(** * Alive2 translation validation: a shallow embedding

    The development follows the layout of the repository:
    - [smt]: the term layer and the solver facade ([smt/solver.h]);
    - [IR]: types ([ir/type.cpp]);
    - [values]: state values ([ir/state_value.h]), the values of a function,
      constants ([ir/constant.cpp]) and the execution state;
    - [tools]: the refinement checker ([tools/transform.cpp]);
    - [parser]: the parser ([tools/alive_parser.cpp]);
    - [tv]: the names and types of the LLVM plugin ([tv/tv.cpp]);
    - [samples], [parser_samples]: small programs, states and models.
    The properties follow the definitions, in the same order. *)

From stdpp Require Import gmap strings list pretty.
From Stdlib Require Import ZArith Lia.

#[local] Open Scope Z_scope.

(** ** The SMT term layer *)

Module smt.

(** Modelled from the spec: the term algebra of [smt/expr.h] is not part of
    the sources; §4.1 lists its operations.  Terms are kept as syntax; every
    C++ operator on [expr] is one constructor (or a definition below). *)
Inductive expr : Type :=
| mkInvalid                              (* expr() *)
| mkBool (b : bool)                      (* expr(true), expr(false) *)
| mkUInt (n : Z) (bits : N)
| mkInt (n : Z) (bits : N)
| IntMin (bits : N)
| mkVar (name : string) (bits : N)
| Not (a : expr)                         (* !a *)
| And (a b : expr)                       (* a && b *)
| Or (a b : expr)                        (* a || b *)
| Eq (a b : expr)                        (* a == b *)
| ule (a b : expr)
| add (a b : expr)                       (* a + b *)
| sub (a b : expr)                       (* a - b *)
| sdiv (a b : expr)
| udiv (a b : expr)
| mkForAll (vars : gset (string * N)) (body : expr).

Declare Scope expr_scope.
Delimit Scope expr_scope with E.
Bind Scope expr_scope with expr.
Notation "a && b" := (And a b) : expr_scope.
Notation "a || b" := (Or a b) : expr_scope.
Notation "a == b" := (Eq a b) (at level 70, no associativity) : expr_scope.

(** [a != b] *)
Definition ne (a b : expr) : expr := Not (a == b).
Notation "a != b" := (ne a b) (at level 70, no associativity) : expr_scope.

(** Modelled from the spec: [notImplies(a,b) ≡ a ∧ ¬b]. *)
Definition notImplies (a b : expr) : expr := (a && Not b)%E.

(** [expr::bits()]: the width of a bit-vector term (0 for the others). *)
Fixpoint bits (e : expr) : N :=
  match e with
  | mkUInt _ w | mkInt _ w | IntMin w | mkVar _ w => w
  | add a _ | sub a _ | sdiv a _ | udiv a _ => bits a
  | _ => 0%N
  end.

(** The names a term mentions. *)
Fixpoint names (e : expr) : gset string :=
  match e with
  | mkInvalid | mkBool _ | mkUInt _ _ | mkInt _ _ | IntMin _ => ∅
  | mkVar x _ => {[ x ]}
  | Not a => names a
  | And a b | Or a b | Eq a b | ule a b | add a b | sub a b | sdiv a b
  | udiv a b => names a ∪ names b
  | mkForAll vars b => set_map fst vars ∪ names b
  end.

Definition rename_var (ρ : string → string) (x : string * N) : string * N :=
  (ρ x.1, x.2).

(** The term with every name changed by [ρ]. *)
Fixpoint rename (ρ : string → string) (e : expr) : expr :=
  match e with
  | mkInvalid | mkBool _ | mkUInt _ _ | mkInt _ _ | IntMin _ => e
  | mkVar x w => mkVar (ρ x) w
  | Not a => Not (rename ρ a)
  | And a b => And (rename ρ a) (rename ρ b)
  | Or a b => Or (rename ρ a) (rename ρ b)
  | Eq a b => Eq (rename ρ a) (rename ρ b)
  | ule a b => ule (rename ρ a) (rename ρ b)
  | add a b => add (rename ρ a) (rename ρ b)
  | sub a b => sub (rename ρ a) (rename ρ b)
  | sdiv a b => sdiv (rename ρ a) (rename ρ b)
  | udiv a b => udiv (rename ρ a) (rename ρ b)
  | mkForAll vars b => mkForAll (set_map (rename_var ρ) vars) (rename ρ b)
  end.

(** *** Values and evaluation under a model *)

Inductive val : Type :=
| VBool (b : bool)
| VBV (w : N) (z : Z).

(** A model binds names; unbound names are completed with 0. *)
Abbreviation Model := (gmap string Z).

Definition mval (m : Model) (x : string) : Z := default 0 (m !! x).

Definition wrap (w : N) (z : Z) : Z := z mod 2 ^ Z.of_N w.

Definition to_signed (w : N) (z : Z) : Z :=
  if z <? 2 ^ (Z.of_N w - 1) then z else z - 2 ^ Z.of_N w.

Definition bvudiv (w : N) (x y : Z) : Z :=
  if y =? 0 then 2 ^ Z.of_N w - 1 else x / y.

Definition bvsdiv (w : N) (x y : Z) : Z :=
  let sx := to_signed w x in
  let sy := to_signed w y in
  if sy =? 0 then (if 0 <=? sx then -1 else 1) else Z.quot sx sy.

Definition bool_op (f : bool → bool → bool) (x y : option val) : option val :=
  match x, y with
  | Some (VBool a), Some (VBool b) => Some (VBool (f a b))
  | _, _ => None
  end.

Definition bv_op (f : N → Z → Z → Z) (x y : option val) : option val :=
  match x, y with
  | Some (VBV w a), Some (VBV w' b) =>
      if (w =? w')%N then Some (VBV w (wrap w (f w a b))) else None
  | _, _ => None
  end.

Definition bv_rel (f : Z → Z → bool) (x y : option val) : option val :=
  match x, y with
  | Some (VBV w a), Some (VBV w' b) =>
      if (w =? w')%N then Some (VBool (f a b)) else None
  | _, _ => None
  end.

Definition val_eq (x y : option val) : option val :=
  match x, y with
  | Some (VBool a), Some (VBool b) => Some (VBool (eqb a b))
  | _, _ => bv_rel Z.eqb x y
  end.

Definition val_not (x : option val) : option val :=
  match x with
  | Some (VBool a) => Some (VBool (negb a))
  | _ => None
  end.

(** Evaluation of quantifier-free terms; ill-sorted terms have no value. *)
Fixpoint eval (m : Model) (e : expr) : option val :=
  match e with
  | mkInvalid => None
  | mkBool b => Some (VBool b)
  | mkUInt n w => Some (VBV w (wrap w n))
  | mkInt n w => Some (VBV w (wrap w n))
  | IntMin w => Some (VBV w (wrap w (2 ^ (Z.of_N w - 1))))
  | mkVar x w => Some (VBV w (wrap w (mval m x)))
  | Not a => val_not (eval m a)
  | And a b => bool_op andb (eval m a) (eval m b)
  | Or a b => bool_op orb (eval m a) (eval m b)
  | Eq a b => val_eq (eval m a) (eval m b)
  | ule a b => bv_rel Z.leb (eval m a) (eval m b)
  | add a b => bv_op (λ _, Z.add) (eval m a) (eval m b)
  | sub a b => bv_op (λ _, Z.sub) (eval m a) (eval m b)
  | sdiv a b => bv_op bvsdiv (eval m a) (eval m b)
  | udiv a b => bv_op bvudiv (eval m a) (eval m b)
  | mkForAll _ _ => None
  end.

(** [m'] may differ from [m] only on the names bound in [vars]. *)
Definition agree_outside (vars : gset (string * N)) (m m' : Model) : Prop :=
  ∀ x, (∀ w, (x, w) ∉ vars) → mval m' x = mval m x.

(** [m] satisfies the query [e]. *)
Fixpoint sat (m : Model) (e : expr) : Prop :=
  match e with
  | mkForAll vars body => ∀ m', agree_outside vars m m' → sat m' body
  | _ => eval m e = Some (VBool true)
  end.

(** [Model::getUInt] *)
Definition getUInt (m : Model) (e : expr) : option Z :=
  match eval m e with
  | Some (VBV _ z) => Some z
  | _ => None
  end.

(** *** The solver facade ([smt/solver.h]) *)

Inductive Result : Type :=
| UNSAT
| SAT (m : Model)
| INVALID
| UNKNOWN.

Definition isSat (r : Result) : bool :=
  match r with SAT _ => true | _ => false end.

(** The external engine: the answer to the [n]-th query it receives. *)
Abbreviation Oracle := (nat → expr → Result).

(** The log of queries dispatched so far. *)
Abbreviation Solver := (list expr).

(** Modelled from the spec: the batch dispatch [Solver::check({...})] is only
    declared in [smt/solver.h]; §4.2: it runs each goal on its own and, for
    each [Sat] result, invokes the callback with the model; other outcomes
    are silently accepted.  The callbacks act on the caller's state [S]. *)
Fixpoint Solver_check {S : Type} (solve : Oracle)
    (queries : list (expr * (Model → S → S))) (s : Solver) (st : S)
  : Solver * S :=
  match queries with
  | [] => (s, st)
  | (goal, on_model) :: rest =>
      let st' := match solve (length s) goal with
                 | SAT m => on_model m st
                 | _ => st
                 end in
      Solver_check solve rest (s ++ [goal]) st'
  end.

End smt.

(** ** The intermediate representation *)

Module IR.
Import smt.

(** *** Types ([ir/type.cpp]) *)

Definition var_type_bits : N := 3.
Definition var_bw_bits : N := 10.

(** Modelled from the spec: the enumeration [SymbolicType::TypeNum] is
    declared in [ir/type.h], which is not part of the sources; the categories
    are numbered in the order in which [type.cpp] and §3 list them, which is
    what [assert(smt_typ >= Int && smt_typ <= Vector)] relies on. *)
Inductive TypeNum : Type := Int | Float | Ptr | Array | Vector | Undefined.

Definition TypeNum_val (t : TypeNum) : Z :=
  match t with
  | Int => 0 | Float => 1 | Ptr => 2 | Array => 3 | Vector => 4
  | Undefined => 5
  end.

(** [TypeNum(smt_typ)] for a value already checked to lie in [Int..Vector]. *)
Definition TypeNum_of (z : Z) : TypeNum :=
  match z with
  | 0 => Int | 1 => Float | 2 => Ptr | 3 => Array | 4 => Vector
  | _ => Undefined
  end.

Record IntType : Type := mkIntType {
  int_opname : string;
  bitwidth : Z;              (* unsigned *)
  defined : bool
}.

Record FloatType : Type := mkFloatType { float_opname : string }.
Record PtrType : Type := mkPtrType { ptr_opname : string }.
Record ArrayType : Type := mkArrayType { array_opname : string }.
Record VectorType : Type := mkVectorType { vector_opname : string }.

Record SymbolicType : Type := mkSymbolicType {
  sym_opname : string;
  name : string;
  enabled : Z;               (* unsigned bit mask *)
  typ : TypeNum;
  i : IntType;
  f : FloatType;
  p : PtrType;
  a : ArrayType;
  v : VectorType
}.

(** The class hierarchy under [Type], as a tagged union. *)
Inductive type : Type :=
| VoidTy
| IntTy (t : IntType)
| FloatTy (t : FloatType)
| PtrTy (t : PtrType)
| ArrayTy (t : ArrayType)
| VectorTy (t : VectorType)
| SymbolicTy (t : SymbolicType).

(** A reference to an object: the object together with its address, which
    is all that [this == &b] looks at. *)
Record ref (A : Type) : Type := mkRef { addr : N; deref : A }.
Arguments mkRef {A} _ _.
Arguments addr {A} _.
Arguments deref {A} _.

(** [Type::var]; [assert(!opname.empty())] fails on an unnamed type. *)
Definition Type_var (opname : string) (var : string) (bits : N) : option expr :=
  if decide (opname = "") then None
  else Some (mkVar (opname +:+ "_" +:+ var) bits).

Definition Type_typeVar (opname : string) : option expr :=
  Type_var opname "type" var_type_bits.

Definition Type_sizeVar (opname : string) : option expr :=
  Type_var opname "bw" var_bw_bits.

(** [Type::is] *)
Definition Type_is (opname : string) (t : TypeNum) : option expr :=
  tv ← Type_typeVar opname;
  Some (tv == mkUInt (TypeNum_val t) var_type_bits)%E.

(** [IntType::bits] *)
Definition IntType_bits (t : IntType) : Z := bitwidth t.

(** [IntType::sizeVar] *)
Definition IntType_sizeVar (t : IntType) : option expr :=
  if defined t then Some (mkUInt (IntType_bits t) var_bw_bits)
  else Type_sizeVar (int_opname t).

(** [IntType::getTypeConstraints]: ints are between 1 and 64 bits. *)
Definition IntType_getTypeConstraints (t : IntType) : option expr :=
  bw ← IntType_sizeVar t;
  Some ((bw != mkUInt 0 var_bw_bits) && ule bw (mkUInt 64 var_bw_bits))%E.

(** [IntType::operator==] *)
Definition IntType_eq (lhs rhs : IntType) : option expr :=
  x ← IntType_sizeVar lhs;
  y ← IntType_sizeVar rhs;
  Some (x == y)%E.

(** The stubs of the other concrete types. *)
Definition FloatType_getTypeConstraints (t : FloatType) : option expr :=
  Some (mkBool false).
Definition FloatType_eq (lhs rhs : FloatType) : option expr :=
  Some (mkBool false).

Definition PtrType_getTypeConstraints (t : PtrType) : option expr :=
  Some (mkBool false).
Definition PtrType_eq (lhs rhs : PtrType) : option expr :=
  x ← Type_sizeVar (ptr_opname lhs);
  y ← Type_sizeVar (ptr_opname rhs);
  Some (x == y)%E.

Definition ArrayType_getTypeConstraints (t : ArrayType) : option expr :=
  Some (mkBool false).
Definition ArrayType_eq (lhs rhs : ArrayType) : option expr :=
  Some (mkBool false).

Definition VectorType_getTypeConstraints (t : VectorType) : option expr :=
  Some (mkBool false).
Definition VectorType_eq (lhs rhs : VectorType) : option expr :=
  Some (mkBool false).

(** [enabled & (1 << K)], converted to a Boolean term. *)
Definition enabled_bit (t : SymbolicType) (k : TypeNum) : bool :=
  negb (Z.land (enabled t) (Z.shiftl 1 (TypeNum_val k)) =? 0).

(** [SymbolicType::isInt] and its four siblings. *)
Definition SymbolicType_is (t : SymbolicType) (k : TypeNum) : option expr :=
  c ← Type_is (sym_opname t) k;
  Some (mkBool (enabled_bit t k) && c)%E.

(** [SymbolicType::getTypeConstraints] *)
Definition SymbolicType_getTypeConstraints (t : SymbolicType) : option expr :=
  let c := mkBool false in
  isI ← SymbolicType_is t Int; ci ← IntType_getTypeConstraints (i t);
  let c := (c || (isI && ci))%E in
  isF ← SymbolicType_is t Float; cf ← FloatType_getTypeConstraints (f t);
  let c := (c || (isF && cf))%E in
  isP ← SymbolicType_is t Ptr; cp ← PtrType_getTypeConstraints (p t);
  let c := (c || (isP && cp))%E in
  isA ← SymbolicType_is t Array; ca ← ArrayType_getTypeConstraints (a t);
  let c := (c || (isA && ca))%E in
  isV ← SymbolicType_is t Vector; cv ← VectorType_getTypeConstraints (v t);
  let c := (c || (isV && cv))%E in
  Some c.

(** [SymbolicType::operator==(const Type &)] *)
Definition SymbolicType_eq (lhs : SymbolicType) (b : type) : option expr :=
  match b with
  | IntTy rhs =>
      c ← SymbolicType_is lhs Int; e ← IntType_eq (i lhs) rhs; Some (c && e)%E
  | FloatTy rhs =>
      c ← SymbolicType_is lhs Float; e ← FloatType_eq (f lhs) rhs; Some (c && e)%E
  | PtrTy rhs =>
      c ← SymbolicType_is lhs Ptr; e ← PtrType_eq (p lhs) rhs; Some (c && e)%E
  | ArrayTy rhs =>
      c ← SymbolicType_is lhs Array; e ← ArrayType_eq (a lhs) rhs; Some (c && e)%E
  | VectorTy rhs =>
      c ← SymbolicType_is lhs Vector; e ← VectorType_eq (v lhs) rhs; Some (c && e)%E
  | SymbolicTy rhs =>
      let c := mkBool false in
      isI ← SymbolicType_is lhs Int; ei ← IntType_eq (i lhs) (i rhs);
      let c := (c || (isI && ei))%E in
      isF ← SymbolicType_is lhs Float; ef ← FloatType_eq (f lhs) (f rhs);
      let c := (c || (isF && ef))%E in
      isP ← SymbolicType_is lhs Ptr; ep ← PtrType_eq (p lhs) (p rhs);
      let c := (c || (isP && ep))%E in
      isA ← SymbolicType_is lhs Array; ea ← ArrayType_eq (a lhs) (a rhs);
      let c := (c || (isA && ea))%E in
      isV ← SymbolicType_is lhs Vector; ev ← VectorType_eq (v lhs) (v rhs);
      let c := (c || (isV && ev))%E in
      tl ← Type_typeVar (sym_opname lhs);
      tr ← Type_typeVar (sym_opname rhs);
      Some (c && (tl == tr))%E
  | VoidTy => None              (* assert(0 && "unhandled case ...") *)
  end.

(** [Type::operator==]: the [CMP] macro expanded for the five concrete
    classes, then the symbolic left-hand side. *)
Definition Type_eq (this b : ref type) : option expr :=
  if decide (addr this = addr b) then Some (mkBool true)
  else
    match deref this, deref b with
    | IntTy lhs, IntTy rhs => IntType_eq lhs rhs
    | IntTy lhs, SymbolicTy rhs => SymbolicType_eq rhs (IntTy lhs)
    | IntTy _, _ => Some (mkBool false)
    | FloatTy lhs, FloatTy rhs => FloatType_eq lhs rhs
    | FloatTy lhs, SymbolicTy rhs => SymbolicType_eq rhs (FloatTy lhs)
    | FloatTy _, _ => Some (mkBool false)
    | PtrTy lhs, PtrTy rhs => PtrType_eq lhs rhs
    | PtrTy lhs, SymbolicTy rhs => SymbolicType_eq rhs (PtrTy lhs)
    | PtrTy _, _ => Some (mkBool false)
    | ArrayTy lhs, ArrayTy rhs => ArrayType_eq lhs rhs
    | ArrayTy lhs, SymbolicTy rhs => SymbolicType_eq rhs (ArrayTy lhs)
    | ArrayTy _, _ => Some (mkBool false)
    | VectorTy lhs, VectorTy rhs => VectorType_eq lhs rhs
    | VectorTy lhs, SymbolicTy rhs => SymbolicType_eq rhs (VectorTy lhs)
    | VectorTy _, _ => Some (mkBool false)
    | SymbolicTy lhs, b => SymbolicType_eq lhs b
    | VoidTy, _ => Some (mkBool false)
    end.

(** [uint64_t] narrowed to [unsigned]. *)
Definition to_unsigned (z : Z) : Z := z mod 2 ^ 32.

(** [IntType::fixup] *)
Definition IntType_fixup (m : Model) (t : IntType) : option IntType :=
  if defined t then Some t
  else
    sv ← IntType_sizeVar t;
    n ← getUInt m sv;
    Some (mkIntType (int_opname t) (to_unsigned n) (defined t)).

(** [SymbolicType::fixup]; both assertions are checked. *)
Definition SymbolicType_fixup (m : Model) (t : SymbolicType) : option SymbolicType :=
  tv ← Type_typeVar (sym_opname t);
  n ← getUInt m tv;
  let smt_typ := to_unsigned n in
  if negb ((TypeNum_val Int <=? smt_typ) && (smt_typ <=? TypeNum_val Vector)) then None
  else if Z.land (Z.shiftl 1 smt_typ) (enabled t) =? 0 then None
  else
    let t := mkSymbolicType (sym_opname t) (name t) (enabled t)
               (TypeNum_of smt_typ) (i t) (f t) (p t) (a t) (v t) in
    match typ t with
    | Int =>
        i' ← IntType_fixup m (i t);
        Some (mkSymbolicType (sym_opname t) (name t) (enabled t) (typ t)
                i' (f t) (p t) (a t) (v t))
    | Float | Ptr | Array | Vector => Some t
    | Undefined => None         (* UNREACHABLE() *)
    end.

(** [Type::fixup], dispatched on the dynamic class. *)
Definition Type_fixup (m : Model) (t : type) : option type :=
  match t with
  | IntTy t => IntTy <$> IntType_fixup m t
  | SymbolicTy t => SymbolicTy <$> SymbolicType_fixup m t
  | VoidTy | FloatTy _ | PtrTy _ | ArrayTy _ | VectorTy _ => Some t
  end.

(** [Type::bits]: defined for integers and for fixed-up symbolic types. *)
Definition Type_bits (t : type) : option Z :=
  match t with
  | IntTy t => Some (IntType_bits t)
  | SymbolicTy t =>
      match typ t with
      | Int => Some (IntType_bits (i t))
      | _ => None
      end
  | _ => None                  (* UNREACHABLE() *)
  end.

(** [SymbolicType::enforceIntType] *)
Definition SymbolicType_enforceIntType (t : SymbolicType) : SymbolicType :=
  mkSymbolicType (sym_opname t) (name t)
    (Z.land (enabled t) (Z.shiftl 1 (TypeNum_val Int)))
    (typ t) (i t) (f t) (p t) (a t) (v t).

(** [SymbolicType::enforceIntOrPtrOrVectorType] *)
Definition SymbolicType_enforceIntOrPtrOrVectorType (t : SymbolicType)
  : SymbolicType :=
  mkSymbolicType (sym_opname t) (name t)
    (Z.land (enabled t)
       (Z.lor (Z.lor (Z.shiftl 1 (TypeNum_val Int)) (Z.shiftl 1 (TypeNum_val Ptr)))
          (Z.shiftl 1 (TypeNum_val Vector))))
    (typ t) (i t) (f t) (p t) (a t) (v t).

(** [SymbolicType::setName] on an unnamed type: every variant and the type
    itself take the operation name. *)
Definition SymbolicType_setName (opname : string) (t : SymbolicType)
  : SymbolicType :=
  let str := if decide (name t = "") then opname else name t in
  mkSymbolicType str (name t) (enabled t) (typ t)
    (mkIntType str (bitwidth (i t)) (defined (i t)))
    (mkFloatType str) (mkPtrType str) (mkArrayType str) (mkVectorType str).

(** *** Reference readings of type equality, for comparison with [Type_eq] *)

(** The category of a concrete type. *)
Definition category (t : type) : TypeNum :=
  match t with
  | IntTy _ => Int
  | FloatTy _ => Float
  | PtrTy _ => Ptr
  | ArrayTy _ => Array
  | VectorTy _ => Vector
  | VoidTy | SymbolicTy _ => Undefined
  end.

(** Equality of the variant of [s] that matches the concrete type [c]
    with [c]. *)
Definition variant_eq_concrete (s : SymbolicType) (c : type) : option expr :=
  match c with
  | IntTy rhs => IntType_eq (i s) rhs
  | FloatTy rhs => FloatType_eq (f s) rhs
  | PtrTy rhs => PtrType_eq (p s) rhs
  | ArrayTy rhs => ArrayType_eq (a s) rhs
  | VectorTy rhs => VectorType_eq (v s) rhs
  | VoidTy | SymbolicTy _ => None
  end.

(** Equality of the variants of category [k] of two symbolic types. *)
Definition variant_eq (k : TypeNum) (lhs rhs : SymbolicType) : option expr :=
  match k with
  | Int => IntType_eq (i lhs) (i rhs)
  | Float => FloatType_eq (f lhs) (f rhs)
  | Ptr => PtrType_eq (p lhs) (p rhs)
  | Array => ArrayType_eq (a lhs) (a rhs)
  | Vector => VectorType_eq (v lhs) (v rhs)
  | Undefined => None
  end.

(** The spec's reading of equality of two symbolic types: the disjunction,
    over the categories the two types share, of the per-category equalities. *)
Definition SymbolicType_eq_shared (lhs rhs : SymbolicType) : option expr :=
  let shared k :=
    l ← SymbolicType_is lhs k; r ← SymbolicType_is rhs k;
    e ← variant_eq k lhs rhs; Some ((l && r) && e)%E in
  ci ← shared Int; cf ← shared Float; cp ← shared Ptr;
  ca ← shared Array; cv ← shared Vector;
  Some (((((mkBool false || ci) || cf) || cp) || ca) || cv)%E.

(** *** The constraints of a type, whatever its class *)

#[global] Instance TypeNum_eq_dec : EqDecision TypeNum.
Proof. solve_decision. Defined.

(** [VoidType::getTypeConstraints] *)
Definition VoidType_getTypeConstraints : option expr := Some (mkBool true).

(** [Type::getTypeConstraints], dispatched on the dynamic class. *)
Definition Type_getTypeConstraints (t : type) : option expr :=
  match t with
  | VoidTy => VoidType_getTypeConstraints
  | IntTy t => IntType_getTypeConstraints t
  | FloatTy t => FloatType_getTypeConstraints t
  | PtrTy t => PtrType_getTypeConstraints t
  | ArrayTy t => ArrayType_getTypeConstraints t
  | VectorTy t => VectorType_getTypeConstraints t
  | SymbolicTy t => SymbolicType_getTypeConstraints t
  end.

(** The width of the type is still to be chosen by a model. *)
Definition open_width (t : type) : bool :=
  match t with
  | IntTy t => negb (defined t)
  | SymbolicTy t => negb (defined (i t))
  | _ => false
  end.

(** The value a model gives to the width term of an integer type, or of
    the integer variant of a symbolic type. *)
Definition width_val (m : Model) (t : type) : option Z :=
  match t with
  | IntTy t => IntType_sizeVar t ≫= getUInt m
  | SymbolicTy s => IntType_sizeVar (i s) ≫= getUInt m
  | _ => None
  end.

(** A declared width fits the 10 bits of a width term. *)
Definition declared_small (t : type) : Prop :=
  match t with
  | IntTy t => defined t = true → 0 ≤ bitwidth t < 2 ^ 10
  | SymbolicTy s => defined (i s) = true → 0 ≤ bitwidth (i s) < 2 ^ 10
  | _ => True
  end.

End IR.

(** ** Values, constants, functions and the execution state *)

Module values.
Import smt IR.

(** *** [StateValue] ([ir/state_value.h]) *)

Record StateValue : Type := mkStateValue { value : expr; non_poison : expr }.

(** *** Values of a function

    A function owns its values; a [Value*] is the position of the value in
    the list that owns it. *)
Inductive ValuePtr : Type :=
| InputPtr (k : nat)
| ConstantPtr (k : nat)
| UndefPtr (k : nat)
| InstrPtr (bb k : nat).

#[global] Instance ValuePtr_eq_dec : EqDecision ValuePtr.
Proof. solve_decision. Defined.

#[global] Instance ValuePtr_countable : Countable ValuePtr.
Proof.
  refine (inj_countable'
    (λ p, match p with
          | InputPtr k => inl (inl k)
          | ConstantPtr k => inl (inr k)
          | UndefPtr k => inr (inl k)
          | InstrPtr bb k => inr (inr (bb, k))
          end)
    (λ x, match x with
          | inl (inl k) => InputPtr k
          | inl (inr k) => ConstantPtr k
          | inr (inl k) => UndefPtr k
          | inr (inr (bb, k)) => InstrPtr bb k
          end) _).
  by intros [].
Defined.

Record Input : Type := mkInput { input_type : type; input_name : string }.

Record IntConst : Type :=
  mkIntConst { const_type : type; const_name : string; const_val : Z }.

Record UndefValue : Type := mkUndefValue { undef_type : type; undef_name : string }.

(** [BinOp::Op] and [BinOp::Flags]; flags are combined with [|]. *)
Inductive BinOp_Op : Type := Add | Sub | Mul | SDiv | UDiv | Shl | LShr | AShr.

Record BinOp_Flags : Type := mkFlags { nsw : bool; nuw : bool; exact : bool }.

Definition None_ : BinOp_Flags := mkFlags false false false.
Definition NSW : BinOp_Flags := mkFlags true false false.
Definition NUW : BinOp_Flags := mkFlags false true false.
Definition Exact : BinOp_Flags := mkFlags false false true.
Definition Flags_or (x y : BinOp_Flags) : BinOp_Flags :=
  mkFlags (nsw x || nsw y) (nuw x || nuw y) (exact x || exact y).

Inductive Instr : Type :=
| BinOp (ty : type) (name : string) (a b : ValuePtr) (op : BinOp_Op)
    (flags : BinOp_Flags)
| Return (ty : type) (name : string) (val : ValuePtr)
| Unreachable (name : string).

Definition Instr_getName (i : Instr) : string :=
  match i with
  | BinOp _ name _ _ _ _ | Return _ name _ | Unreachable name => name
  end.

Record BasicBlock : Type := mkBasicBlock { bb_name : string; bb_instrs : list Instr }.

Record Function : Type := mkFunction {
  inputs : list Input;
  constants : list IntConst;
  undefs : list UndefValue;
  BBs : list BasicBlock
}.

(** [Value::getName] through a pointer; a dangling pointer has no name. *)
Definition getName (fn : Function) (p : ValuePtr) : option string :=
  match p with
  | InputPtr k => input_name <$> inputs fn !! k
  | ConstantPtr k => const_name <$> constants fn !! k
  | UndefPtr k => undef_name <$> undefs fn !! k
  | InstrPtr bb k => b ← BBs fn !! bb; Instr_getName <$> bb_instrs b !! k
  end.

(** [dynamic_cast<const Instr*>(var)] *)
Definition is_Instr (p : ValuePtr) : bool :=
  match p with InstrPtr _ _ => true | _ => false end.

(** Modelled from the spec: [Function::instrs()] is declared in
    [ir/function.h] (absent); §5: instructions are visited in
    block-declaration order.  Each instruction comes with its address. *)
Definition Function_instrs (fn : Function) : list (ValuePtr * Instr) :=
  concat (imap (λ bb b, imap (λ k i, (InstrPtr bb k, i)) (bb_instrs b)) (BBs fn)).

(** *** Constants ([ir/constant.cpp]) *)

Inductive ConstantBinOp_Op : Type := ADD | SUB | SDIV | UDIV.
Inductive ConstantFn_Fn : Type := LOG2 | WIDTH.

(** What the constructor of [ConstantFn] looks at in a [Value*] argument. *)
Record Value : Type := mkValue { Value_type : type; Value_name : string }.

Inductive Constant : Type :=
| Const (ty : type) (name : string)
| ConstantBinOp (ty : type) (name : string) (lhs rhs : Constant)
    (op : ConstantBinOp_Op)
| ConstantFn (ty : type) (name : string) (fn : ConstantFn_Fn) (args : list Value).

Definition Constant_getType (c : Constant) : type :=
  match c with
  | Const ty _ | ConstantBinOp ty _ _ _ _ | ConstantFn ty _ _ _ => ty
  end.

Definition Constant_getName (c : Constant) : string :=
  match c with
  | Const _ name | ConstantBinOp _ name _ _ _ | ConstantFn _ name _ _ => name
  end.

(** The constructor [ConstantBinOp::ConstantBinOp]. *)
Definition ConstantBinOp_new (ty : type) (lhs rhs : Constant)
    (op : ConstantBinOp_Op) : Constant :=
  let opname := match op with
                | ADD => " + " | SUB => " - " | SDIV => " / " | UDIV => " /u "
                end in
  let str := "(" +:+ Constant_getName lhs in
  let str := str +:+ opname in
  let str := str +:+ Constant_getName rhs in
  let str := str +:+ ")" in
  ConstantBinOp ty str lhs rhs op.

Inductive ConstantFnException : Type :=
| mkConstantFnException (msg : string).

(** The loop of [ConstantFn::ConstantFn] that appends the arguments. *)
Definition append_arg (acc : string * bool) (arg : Value) : string * bool :=
  let '(str, first) := acc in
  let str := if negb first then str +:+ ", " else str in
  (str +:+ Value_name arg, false).

(** The constructor [ConstantFn::ConstantFn]; a [throw] is the left case. *)
Definition ConstantFn_new (ty : type) (name : string) (args : list Value)
  : ConstantFnException + Constant :=
  match
    (if decide (name = "log2") then inr (LOG2, 1%nat)
     else if decide (name = "width") then inr (WIDTH, 1%nat)
     else inl (mkConstantFnException ("Unknown function: " +:+ name)))
  with
  | inl e => inl e
  | inr (fn, num_args) =>
      let actual_args := length args in
      if negb (actual_args =? num_args)%nat then
        inl (mkConstantFnException
               ("Expected " +:+ pretty num_args +:+ " parameter for " +:+ name
                +:+ ", but got " +:+ pretty actual_args))
      else
        let str := name +:+ "(" in
        let '(str, _) := foldl append_arg (str, true) args in
        let str := str +:+ ")" in
        inr (ConstantFn ty str fn args)
  end.

(** *** The execution state, as far as the sources read and write it *)

(** [State::ValTy]: a valuation and the variables quantified for it. *)
Abbreviation ValTy := (StateValue * gset (string * N))%type.

(** Modelled from the spec: [ir/state.h] is not part of the sources.  §3:
    the state holds the accumulator [ub], the valuations of the values, the
    set [quant_vars] and the aggregated return; these are the members the
    sources use ([addUB], [getValues], [at], [getQuantVars], [fnReturned],
    [returnDomain], [returnVal]). *)
Record State : Type := mkState {
  ub : expr;
  getValues : gmap ValuePtr ValTy;
  getQuantVars : gset (string * N);
  fnReturned : bool;
  returnDomain : expr;
  returnVal : ValTy
}.

(** Modelled from the spec: [State::addUB]; §4.4: the UB contribution is
    conjoined into the state's [ub]. *)
Definition addUB (e : expr) (s : State) : State :=
  mkState (ub s && e)%E (getValues s) (getQuantVars s) (fnReturned s)
    (returnDomain s) (returnVal s).

(** Modelled from the spec: [Value::bits] is declared in [ir/value.h]
    (absent); §3: the width of a value is the width of its declared type. *)
Definition Constant_bits (c : Constant) : option N :=
  Z.to_N <$> Type_bits (Constant_getType c).

(** [div_ub] *)
Definition div_ub (a b : expr) (ub : expr) (sign : bool) : expr :=
  let bits := bits b in
  let ub := (ub && (b != mkUInt 0 bits))%E in
  if sign then (ub && ((a != IntMin bits) || (b != mkInt (-1) bits)))%E
  else ub.

(** [toSMT_cnst], by dynamic class: the value and the UB of a constant. *)
Fixpoint toSMT_cnst (c : Constant) : option (expr * expr) :=
  match c with
  | Const _ name =>
      w ← Constant_bits c; Some (mkVar name w, mkBool true)
  | ConstantBinOp _ _ lhs rhs op =>
      a ← toSMT_cnst lhs;
      b ← toSMT_cnst rhs;
      let ub := (a.2 && b.2)%E in
      Some match op with
           | ADD => (add a.1 b.1, ub)
           | SUB => (sub a.1 b.1, ub)
           | SDIV => (sdiv a.1 b.1, div_ub a.1 b.1 ub true)
           | UDIV => (udiv a.1 b.1, div_ub a.1 b.1 ub false)
           end
  | ConstantFn _ _ _ _ => Some (mkInvalid, mkBool true)
  end.

(** [Constant::toSMT] *)
Definition Constant_toSMT (c : Constant) (s : State) : option (StateValue * State) :=
  ret ← toSMT_cnst c;
  let s := addUB ret.2 s in
  Some (mkStateValue ret.1 (mkBool true), s).

(** A constant whose leaves have integer types. *)
Fixpoint int_typed (c : Constant) : Prop :=
  match c with
  | Const ty _ => is_Some (Type_bits ty)
  | ConstantBinOp _ _ lhs rhs _ => int_typed lhs ∧ int_typed rhs
  | ConstantFn _ _ _ _ => True
  end.

(** [c'] is [c] or an operand, at any depth, of [c]. *)
Inductive subconstant (c' : Constant) : Constant → Prop :=
| sub_here : subconstant c' c'
| sub_lhs ty name lhs rhs op :
    subconstant c' lhs → subconstant c' (ConstantBinOp ty name lhs rhs op)
| sub_rhs ty name lhs rhs op :
    subconstant c' rhs → subconstant c' (ConstantBinOp ty name lhs rhs op).

(** No division occurs in the constant expression. *)
Fixpoint no_division (c : Constant) : bool :=
  match c with
  | ConstantBinOp _ _ lhs rhs op =>
      match op with
      | ADD | SUB => no_division lhs && no_division rhs
      | SDIV | UDIV => false
      end
  | _ => true
  end.

(** A constant expression whose leaves are plain constants of width [w]. *)
Fixpoint leaves_of_width (w : Z) (c : Constant) : Prop :=
  match c with
  | Const ty _ => Type_bits ty = Some w
  | ConstantBinOp _ _ lhs rhs _ => leaves_of_width w lhs ∧ leaves_of_width w rhs
  | ConstantFn _ _ _ _ => False
  end.

(** The reading of §3 of the operator-specific conditions: division requires
    a non-zero divisor; signed division additionally forbids
    [INT_MIN / -1]. *)
Definition op_condition (op : ConstantBinOp_Op) (a b : expr) : expr :=
  match op with
  | ADD | SUB => mkBool true
  | UDIV => (b != mkUInt 0 (bits b))%E
  | SDIV => ((b != mkUInt 0 (bits b)) &&
             Not ((a == IntMin (bits b)) && (b == mkInt (-1) (bits b))))%E
  end.

End values.

(** ** The refinement checker ([tools/transform.cpp]) *)

Module tools.
Import smt IR values.

(** [util::Errors] ([util/errors.h]): an ordered list of messages. *)
Abbreviation Errors := (list string).

(** Modelled from the spec: [Errors::add] is only declared; §4.7: ordering
    is insertion order and nothing is deduplicated. *)
Definition Errors_add (str : string) (errs : Errors) : Errors := errs ++ [str].

Record Transform : Type := mkTransform { src : Function; tgt : Function }.

Record TransformVerifyOpts : Type := mkOpts { check_each_var : bool }.

(** Symbolic execution of one function ([util/symexec.h], absent): it may
    draw fresh numbers from the global id counter that
    [Value::reset_gbl_id] resets. *)
Abbreviation SymExec := (Function → nat → State * nat).

Section verify.
Variable solve : Oracle.
Variable sym_exec : SymExec.

(** [check_refinement] *)
Definition check_refinement (s : Solver) (errs : Errors)
    (global_qvars : gset (string * N))
    (dom_a : expr) (ap : ValTy) (dom_b : expr) (bp : ValTy)
  : Solver * Errors :=
  let a := ap.1 in
  let b := bp.1 in
  let qvars := global_qvars in
  let qvars := qvars ∪ ap.2 in
  Solver_check solve
    [ (mkForAll qvars (notImplies dom_a dom_b),
       λ m, Errors_add "Source is more defined than target");
      (mkForAll qvars (dom_a && notImplies (non_poison a) (non_poison b)),
       λ m, Errors_add "Target is more poisonous than source");
      (mkForAll qvars ((dom_a && non_poison a) && (value a != value b)),
       λ m, Errors_add "value mismatch") ]
    s errs.

(** The first loop of [Transform::verify]: [emplace] keeps the first
    instruction of each name. *)
Definition tgt_vals_of (tgt : Function) : gmap string ValuePtr :=
  foldl (λ tgt_vals '(p, i),
           match tgt_vals !! Instr_getName i with
           | Some _ => tgt_vals
           | None => <[Instr_getName i := p]> tgt_vals
           end)
    ∅ (Function_instrs tgt).

(** [name[0] != '%']; the code of ['%'] is 37. *)
Definition not_percent (name : string) : bool :=
  match name with
  | String c _ => negb (Ascii.eqb c (Ascii.ascii_of_nat 37))
  | EmptyString => true
  end.

(** One iteration of the loop over [src_state.getValues()]; [None] is an
    [at] that throws or a dangling pointer. *)
Definition check_var (src : Function) (tgt_vals : gmap string ValuePtr)
    (tgt_state : State) (acc : option (Solver * Errors))
    (entry : ValuePtr * ValTy) : option (Solver * Errors) :=
  '(s, errs) ← acc;
  let '(var, val) := entry in
  name ← getName src var;
  if not_percent name || negb (is_Instr var) then Some (s, errs)
  else
    tv ← tgt_vals !! name;
    tval ← getValues tgt_state !! tv;
    Some (check_refinement s errs (getQuantVars tgt_state)
            (mkBool true) val (mkBool true) tval).

(** The part of [Transform::verify] that runs when [opts.check_each_var]
    is set. *)
Definition check_each (src tgt : Function) (src_state tgt_state : State)
    (s : Solver) (errs : Errors) : option (Solver * Errors) :=
  foldl (check_var src (tgt_vals_of tgt) tgt_state) (Some (s, errs))
    (map_to_list (getValues src_state)).

(** The comparison of the two returns that ends [Transform::verify]. *)
Definition check_return (src_state tgt_state : State)
    (s : Solver) (errs : Errors) : Solver * Errors :=
  if negb (eqb (fnReturned src_state) (fnReturned tgt_state)) then
    if fnReturned src_state
    then (s, Errors_add "Source returns but target doesn't" errs)
    else (s, Errors_add "Target returns but source doesn't" errs)
  else if fnReturned src_state then
    check_refinement s errs (getQuantVars tgt_state)
      (returnDomain src_state) (returnVal src_state)
      (returnDomain tgt_state) (returnVal tgt_state)
  else (s, errs).

(** [Transform::verify], from the two executed states on. *)
Definition verify_states (opts : TransformVerifyOpts) (t : Transform)
    (src_state tgt_state : State) : option (Solver * Errors) :=
  let errs : Errors := [] in
  let s : Solver := [] in
  '(s, errs) ← (if check_each_var opts
                then check_each (src t) (tgt t) src_state tgt_state s errs
                else Some (s, errs));
  Some (check_return src_state tgt_state s errs).

(** The two symbolic executions at the start of [Transform::verify]. *)
Definition sym_exec_both (t : Transform) : State * State :=
  let gbl_id := 0%nat in                       (* Value::reset_gbl_id() *)
  let '(src_state, gbl_id) := sym_exec (src t) gbl_id in
  let '(tgt_state, gbl_id) := sym_exec (tgt t) gbl_id in
  (src_state, tgt_state).

(** [Transform::verify]: the queries dispatched and the errors returned. *)
Definition verify (opts : TransformVerifyOpts) (t : Transform)
  : option (Solver * Errors) :=
  let '(src_state, tgt_state) := sym_exec_both t in
  verify_states opts t src_state tgt_state.

End verify.

(** The engine is sound when every countermodel it returns satisfies the
    query. *)
Definition sound (solve : Oracle) : Prop :=
  ∀ n q m, solve n q = SAT m → sat m q.

(** *** Two executions of one function

    The second execution starts from the global id counter the first one
    left, so the fresh symbols it draws are numbered differently. *)

Definition rename_val (ρ : string → string) (v : ValTy) : ValTy :=
  (mkStateValue (rename ρ (value v.1)) (rename ρ (non_poison v.1)),
   set_map (rename_var ρ) v.2).

Definition rename_state (ρ : string → string) (s : State) : State :=
  mkState (rename ρ (ub s)) (rename_val ρ <$> getValues s)
    (set_map (rename_var ρ) (getQuantVars s)) (fnReturned s)
    (rename ρ (returnDomain s)) (rename_val ρ (returnVal s)).

Definition val_names (v : ValTy) : gset string :=
  names (value v.1) ∪ names (non_poison v.1).

(** The names in the terms the checker reads from a state. *)
Definition state_names (s : State) : gset string :=
  names (returnDomain s) ∪ val_names (returnVal s)
  ∪ ⋃ (val_names <$> (map_to_list (getValues s)).*2).

(** [ρ] renames fresh symbols of the state [A]: only symbols recorded in
    [quant_vars] (§4.5) change, they change to names the terms of [A] do not
    mention, and no two names of [A] are merged. *)
Record renames_fresh (A : State) (ρ : string → string) : Prop := {
  ren_registered : ∀ x, ρ x ≠ x → ∃ w, (x, w) ∈ getQuantVars A;
  ren_new : ∀ x, ρ x ≠ x → ρ x ∉ state_names A;
  ren_inj : ∀ x y, x ∈ state_names A → y ∈ state_names A → ρ x = ρ y → x = y
}.

(** [m'] mimics [m]: it agrees with [m] on the names of [A] and gives every
    renamed name the value [m] gives the original. *)
Definition mimics (A : State) (ρ : string → string) (m m' : Model) : Prop :=
  ∀ x, x ∈ state_names A → mval m' x = mval m x ∧ mval m' (ρ x) = mval m x.

(** The names of the instructions that the per-value mode compares. *)
Definition percent_names (f : Function) : list string :=
  filter (λ name, not_percent name = false)
    (map (λ pi, Instr_getName pi.2) (Function_instrs f)).

(** A function is well formed for the checker when the [%]-names of its
    instructions are distinct (§3), when the state values only values of the
    function, and when executing the function a second time yields the state
    of the first execution up to the names of its fresh symbols. *)
Record well_formed (sym_exec : SymExec) (f : Function) : Prop := {
  wf_names : NoDup (percent_names f);
  wf_values : ∀ p, is_Some (getValues (sym_exec f 0%nat).1 !! p) →
                   is_Some (getName f p);
  wf_exec : ∃ ρ, renames_fresh (sym_exec f 0%nat).1 ρ ∧
                 (sym_exec f (sym_exec f 0%nat).2).1
                 = rename_state ρ (sym_exec f 0%nat).1
}.

(** The message a query contributes when the engine answers [Sat] to it as
    its [n]-th query. *)
Definition fired (solve : Oracle) (n : nat) (q : expr) (msg : string) : Errors :=
  if isSat (solve n q) then [msg] else [].

(** The variables a query quantifies. *)
Definition quantified (q : expr) : gset (string * N) :=
  match q with
  | mkForAll vars _ => vars
  | _ => ∅
  end.

(** The three queries of one call to [check_refinement], over the
    variables [qvars] the call quantifies. *)
Definition refinement_queries (qvars : gset (string * N))
    (dom_a : expr) (a : StateValue) (dom_b : expr) (b : StateValue)
  : list expr :=
  [ mkForAll qvars (notImplies dom_a dom_b);
    mkForAll qvars (dom_a && notImplies (non_poison a) (non_poison b));
    mkForAll qvars ((dom_a && non_poison a) && (value a != value b)) ].

(** The comparisons [Transform::verify] hands to [check_refinement]: in the
    per-value mode, the valuation of each source instruction whose name
    starts with ['%'] against the valuation of the target instruction of
    that name, both under the domain [true]; and, when both functions
    returned, the two returned values under the two return domains. *)
Inductive compared (opts : TransformVerifyOpts) (t : Transform)
    (src_state tgt_state : State) : expr → ValTy → expr → ValTy → Prop :=
| compared_value (var : ValuePtr) (val : ValTy) (name : string)
    (tv : ValuePtr) (tval : ValTy) :
    check_each_var opts = true →
    getValues src_state !! var = Some val →
    getName (src t) var = Some name →
    not_percent name = false →
    is_Instr var = true →
    tgt_vals_of (tgt t) !! name = Some tv →
    getValues tgt_state !! tv = Some tval →
    compared opts t src_state tgt_state (mkBool true) val (mkBool true) tval
| compared_return :
    fnReturned src_state = true →
    fnReturned tgt_state = true →
    compared opts t src_state tgt_state
      (returnDomain src_state) (returnVal src_state)
      (returnDomain tgt_state) (returnVal tgt_state).

(** The messages [check_refinement] and [Transform::verify] add. *)
Definition messages : list string :=
  [ "Source is more defined than target";
    "Target is more poisonous than source";
    "value mismatch";
    "Source returns but target doesn't";
    "Target returns but source doesn't" ].

(** The names of the instructions of a function, in the order of
    [Function::instrs]. *)
Definition instr_names (f : Function) : list string :=
  (λ pi, Instr_getName pi.2) <$> Function_instrs f.

End tools.

(** ** The parser ([tools/alive_parser.cpp]) *)

Module parser.
Import smt IR values.

(** The tokens of the lexer ([tools/alive_lexer.h], absent), as the parser
    names them. *)
Inductive token : Type :=
| NAME | PRE | COMMA | INT_TYPE | NUM | IDENTIFIER | NSW | NUW | EXACT
| ADD | SUB | MUL | SDIV | UDIV | SHL | LSHR | ASHR
| EQUALS | LABEL | RETURN | UNREACH | ARROW | END.

#[global] Instance token_eq_dec : EqDecision token.
Proof. solve_decision. Defined.

(** [yylval] *)
Record yylval_t : Type := mkYylval { num : Z; str : string }.

Record lexeme : Type :=
  mkLexeme { lex_token : token; lex_val : yylval_t; lex_line : nat }.

Record LexException : Type := mkLexException { lex_str : string; lex_lineno : nat }.
Record ParseException : Type :=
  mkParseException { parse_str : string; parse_lineno : nat }.

(** [tokenizer_t] *)
Record tokenizer_t : Type := mkTokenizer { last : token; returned : bool }.

(** The statics of the parser, the globals of the lexer, and the function
    that [fn] points to. *)
Record PState : Type := mkPState {
  lexer : list (LexException + lexeme);
  yylval : yylval_t;
  yylineno : nat;
  tokenizer : tokenizer_t;
  identifiers : gmap string ValuePtr;
  fn : Function
}.

Definition with_tokenizer (t : tokenizer_t) (st : PState) : PState :=
  mkPState (lexer st) (yylval st) (yylineno st) t (identifiers st) (fn st).
Definition with_identifiers (ids : gmap string ValuePtr) (st : PState) : PState :=
  mkPState (lexer st) (yylval st) (yylineno st) (tokenizer st) ids (fn st).
Definition with_fn (f : Function) (st : PState) : PState :=
  mkPState (lexer st) (yylval st) (yylineno st) (tokenizer st) (identifiers st) f.

(** How a routine ends: it returns, it throws, it fails an assertion (or
    reaches [UNREACHABLE()]), or the model of a loop runs out of fuel. *)
Inductive result (A : Type) : Type :=
| OK (x : A) (st : PState)
| Throw (e : ParseException)
| Abort
| OutOfFuel.
Arguments OK {A} _ _.
Arguments Throw {A} _.
Arguments Abort {A}.
Arguments OutOfFuel {A}.

Definition M (A : Type) : Type := PState → result A.

#[global] Instance M_ret : MRet M := λ A x st, OK x st.
#[global] Instance M_bind : MBind M := λ A B f m st,
  match m st with
  | OK x st' => f x st'
  | Throw e => Throw e
  | Abort => Abort
  | OutOfFuel => OutOfFuel
  end.

Definition gets {A : Type} (f : PState → A) : M A := λ st, OK (f st) st.
Definition modify (f : PState → PState) : M unit := λ st, OK tt (f st).

Definition abort {A : Type} : M A := λ _, Abort.
Definition out_of_fuel {A : Type} : M A := λ _, OutOfFuel.

(** [error]: throws with the current line number. *)
Definition error {A : Type} (s : string) : M A :=
  λ st, Throw (mkParseException s (yylineno st)).

(** Modelled from the spec: the lexer is an external collaborator (§1, §6);
    what [yylex] will return, and the [yylval] and [yylineno] it leaves, is
    given as a list; at the end of the input it returns [END]. *)
Definition yylex : PState → (LexException + token) * PState :=
  λ st,
    match lexer st with
    | [] => (inr END, st)
    | inl e :: rest =>
        (inl e, mkPState rest (yylval st) (yylineno st) (tokenizer st)
                  (identifiers st) (fn st))
    | inr l :: rest =>
        (inr (lex_token l),
         mkPState rest (lex_val l) (lex_line l) (tokenizer st)
           (identifiers st) (fn st))
    end.

Section routines.
(** The names of the tokens and the constructors of the types and values
    that the parser builds are declared in headers that are not part of the
    sources. *)
Variable token_name : token → string.
Variable IntType_new : Z → type.             (* IntType(yylval.num) *)
Variable SymbolicType_new : type.            (* SymbolicType() *)
Variable IntConst_name : Z → string.         (* the name IntConst gives itself *)
Variable Return_name : string.
Variable Unreachable_name : string.

(** [tokenizer_t::get_new_token] *)
Definition get_new_token : M token :=
  λ st,
    match yylex st with
    | (inr t, st') => OK t st'
    | (inl e, st') => Throw (mkParseException (lex_str e) (lex_lineno e))
    end.

(** [tokenizer_t::operator*] *)
Definition next_token : M token :=
  tk ← gets tokenizer;
  if returned tk then
    modify (with_tokenizer (mkTokenizer (last tk) false));;
    mret (last tk)
  else get_new_token.

(** [tokenizer_t::peek] *)
Definition peek : M token :=
  tk ← gets tokenizer;
  if returned tk then mret (last tk)
  else
    t ← get_new_token;
    modify (with_tokenizer (mkTokenizer t true));;
    mret t.

(** [tokenizer_t::consumeIf] *)
Definition consumeIf (expected : token) : M bool :=
  token ← peek;
  if decide (token = expected) then
    tk ← gets tokenizer;
    modify (with_tokenizer (mkTokenizer (last tk) false));;
    mret true
  else mret false.

(** [tokenizer_t::ensure] *)
Definition ensure (expected : token) : M unit :=
  t ← next_token;
  if decide (t ≠ expected) then
    error ("expected token: " +:+ token_name expected +:+ ", got: "
           +:+ token_name t)
  else mret tt.

(** [tokenizer_t::unget] *)
Definition unget (t : token) : M unit :=
  tk ← gets tokenizer;
  if returned tk then abort            (* assert(returned == false) *)
  else modify (with_tokenizer (mkTokenizer t true)).

(** [get_constant] *)
Definition get_constant (n : Z) (t : type) : M ValuePtr :=
  f ← gets fn;
  let c := mkIntConst t (IntConst_name n) n in
  let ret := ConstantPtr (length (constants f)) in
  modify (with_fn (mkFunction (inputs f) (constants f ++ [c]) (undefs f) (BBs f)));;
  mret ret.

Definition parse_comma : M unit := ensure COMMA.

(** [parse_type] *)
Definition parse_type (optional : bool) : M type :=
  t ← next_token;
  match t with
  | INT_TYPE => v ← gets yylval; mret (IntType_new (num v))
  | _ =>
      if optional then unget t;; mret SymbolicType_new
      else error ("Expecting a type, got: " +:+ token_name t)
  end.

(** [parse_operand] *)
Definition parse_operand (type : type) : M ValuePtr :=
  t ← next_token;
  match t with
  | NUM => v ← gets yylval; get_constant (num v) type
  | IDENTIFIER =>
      v ← gets yylval;
      let id := str v in
      ids ← gets identifiers;
      match ids !! id with
      | Some found => mret found
      | None =>
          f ← gets fn;
          let input := mkInput type id in
          let ret := InputPtr (length (inputs f)) in
          modify (with_fn (mkFunction (inputs f ++ [input]) (constants f)
                             (undefs f) (BBs f)));;
          modify (with_identifiers (<[id := ret]> ids));;
          mret ret
      end
  | _ => error ("Expected an operand, got: " +:+ token_name t)
  end.

(** [parse_nsw_nuw]; every turn of the loop consumes a token. *)
Fixpoint parse_nsw_nuw_loop (fuel : nat) (flags : BinOp_Flags) : M BinOp_Flags :=
  match fuel with
  | O => out_of_fuel
  | S fuel =>
      c ← consumeIf NSW;
      if (c : bool) then parse_nsw_nuw_loop fuel (Flags_or flags values.NSW)
      else
        c ← consumeIf NUW;
        if (c : bool) then parse_nsw_nuw_loop fuel (Flags_or flags values.NUW)
        else mret flags
  end.

Definition parse_nsw_nuw (fuel : nat) : M BinOp_Flags :=
  parse_nsw_nuw_loop fuel None_.

(** [parse_exact] *)
Definition parse_exact : M BinOp_Flags :=
  c ← consumeIf EXACT;
  if (c : bool) then mret Exact else mret None_.

(** [parse_binop_flags] *)
Definition parse_binop_flags (fuel : nat) (op_token : token) : M BinOp_Flags :=
  match op_token with
  | ADD | SUB | MUL | SHL => parse_nsw_nuw fuel
  | SDIV | UDIV | LSHR | ASHR => parse_exact
  | _ => abort                          (* UNREACHABLE() *)
  end.

(** [parse_binop] *)
Definition parse_binop (fuel : nat) (name : string) (op_token : token) : M Instr :=
  flags ← parse_binop_flags fuel op_token;
  type ← parse_type true;
  a ← parse_operand type;
  parse_comma;;
  b ← parse_operand type;
  match op_token with
  | ADD => mret (BinOp type name a b Add flags)
  | SUB => mret (BinOp type name a b Sub flags)
  | MUL => mret (BinOp type name a b Mul flags)
  | SDIV => mret (BinOp type name a b SDiv flags)
  | UDIV => mret (BinOp type name a b UDiv flags)
  | SHL => mret (BinOp type name a b Shl flags)
  | LSHR => mret (BinOp type name a b LShr flags)
  | ASHR => mret (BinOp type name a b AShr flags)
  | _ => abort                          (* UNREACHABLE() *)
  end.

(** [parse_instr] *)
Definition parse_instr (fuel : nat) (name : string) : M Instr :=
  ensure EQUALS;;
  t ← next_token;
  match t with
  | ADD | SUB | MUL | SDIV | UDIV | SHL | ASHR | LSHR => parse_binop fuel name t
  | _ => error ("Expected instruction name; got: " +:+ token_name t)
  end.

(** [parse_return] *)
Definition parse_return : M Instr :=
  type ← parse_type true;
  val ← parse_operand type;
  mret (Return type Return_name val).

(** Modelled from the spec: [Function::getBB] is declared in
    [ir/function.h] (absent); §4.4: the blocks of a function are an ordered
    list keyed by label.  The block of that label is created at the end of
    the list when there is none. *)
Definition getBB (name : string) : M nat :=
  f ← gets fn;
  match list_find (λ b, bb_name b = name) (BBs f) with
  | Some (k, _) => mret k
  | None =>
      modify (with_fn (mkFunction (inputs f) (constants f) (undefs f)
                         (BBs f ++ [mkBasicBlock name []])));;
      mret (length (BBs f))
  end.

(** [BasicBlock::addIntr] on the block at position [bb]. *)
Definition addIntr (bb : nat) (i : Instr) : M unit :=
  f ← gets fn;
  match BBs f !! bb with
  | Some b =>
      modify (with_fn (mkFunction (inputs f) (constants f) (undefs f)
                         (<[bb := mkBasicBlock (bb_name b) (bb_instrs b ++ [i])]>
                            (BBs f))))
  | None => abort
  end.

(** The address the next instruction added to block [bb] will have. *)
Definition next_instr (bb : nat) : M ValuePtr :=
  f ← gets fn;
  match BBs f !! bb with
  | Some b => mret (InstrPtr bb (length (bb_instrs b)))
  | None => abort
  end.

(** [identifiers.emplace]: an existing binding is kept. *)
Definition emplace (name : string) (p : ValuePtr) : M unit :=
  ids ← gets identifiers;
  match ids !! name with
  | Some _ => mret tt
  | None => modify (with_identifiers (<[name := p]> ids))
  end.

(** One turn of the loop of [parse_fn]: the block to go on with, or [None]
    when the loop is left. *)
Definition parse_stmt (fuel : nat) (bb : nat) : M (option nat) :=
  t ← next_token;
  match t with
  | IDENTIFIER =>
      v ← gets yylval;
      let name := str v in
      i ← parse_instr fuel name;
      p ← next_instr bb;
      emplace name p;;
      addIntr bb i;;
      mret (Some bb)
  | LABEL =>
      v ← gets yylval;
      bb ← getBB (str v);
      mret (Some bb)
  | RETURN =>
      i ← parse_return;
      addIntr bb i;;
      mret (Some bb)
  | UNREACH =>
      addIntr bb (Unreachable Unreachable_name);;
      mret (Some bb)
  | _ => unget t;; mret None
  end.

Fixpoint parse_fn_loop (fuel : nat) (bb : nat) : M unit :=
  match fuel with
  | O => out_of_fuel
  | S fuel' =>
      r ← parse_stmt fuel bb;
      match r with
      | Some bb => parse_fn_loop fuel' bb
      | None => mret tt
      end
  end.

(** [parse_fn], on a function that is empty so far. *)
Definition parse_fn (fuel : nat) : M Function :=
  modify (with_fn (mkFunction [] [] [] []));;
  modify (with_identifiers ∅);;
  bb ← getBB "";
  parse_fn_loop fuel bb;;
  gets fn.

(** *** What happens between two uses of an identifier

    Within one function the parser touches its statics only through the
    tokenizer, [parse_operand], [get_constant], [emplace], [getBB] and
    [addIntr]. *)
Inductive step (st st' : PState) : Prop :=
| step_next_token t : next_token st = OK t st' → step st st'
| step_peek t : peek st = OK t st' → step st st'
| step_consumeIf e b : consumeIf e st = OK b st' → step st st'
| step_unget t : unget t st = OK tt st' → step st st'
| step_operand ty p : parse_operand ty st = OK p st' → step st st'
| step_emplace name p : emplace name p st = OK tt st' → step st st'
| step_getBB name k : getBB name st = OK k st' → step st st'
| step_addIntr bb i : addIntr bb i st = OK tt st' → step st st'.

(** The states the parser can be in later in the same function. *)
Definition later : PState → PState → Prop := rtc step.

End routines.

(** What a parser state binds and owns is kept by a later state. *)
Definition keeps (st st' : PState) : Prop :=
  (∀ id p, identifiers st !! id = Some p → identifiers st' !! id = Some p) ∧
  (∀ k x, inputs (fn st) !! k = Some x → inputs (fn st') !! k = Some x).

(** The pointer points to a value the function owns. *)
Definition valid (f : Function) (p : ValuePtr) : Prop := is_Some (getName f p).

(** The operands of an instruction. *)
Definition operands (i : Instr) : list ValuePtr :=
  match i with
  | BinOp _ _ a b _ _ => [a; b]
  | Return _ _ val => [val]
  | Unreachable _ => []
  end.

(** No instruction of the function has a dangling operand. *)
Definition well_scoped (f : Function) : Prop :=
  ∀ bb b k i, BBs f !! bb = Some b → bb_instrs b !! k = Some i →
              Forall (valid f) (operands i).

(** Every identifier is bound to a value of the function. *)
Definition well_bound (st : PState) : Prop :=
  ∀ id p, identifiers st !! id = Some p → valid (fn st) p.

(** The invariant of the loop of [parse_fn]. *)
Definition scoped (st : PState) : Prop := well_bound st ∧ well_scoped (fn st).

(** The step touches neither the identifier table nor the function. *)
Definition quiet (st st' : PState) : Prop :=
  identifiers st' = identifiers st ∧ fn st' = fn st.

(** The function [f'] has the values of [f], under the same pointers and
    names, and possibly more. *)
Definition extends (f f' : Function) : Prop :=
  (∀ k x, inputs f !! k = Some x → inputs f' !! k = Some x) ∧
  (∀ k x, constants f !! k = Some x → constants f' !! k = Some x) ∧
  (∀ k x, undefs f !! k = Some x → undefs f' !! k = Some x) ∧
  (∀ bb b, BBs f !! bb = Some b →
     ∃ b', BBs f' !! bb = Some b' ∧ bb_name b' = bb_name b ∧
           ∀ k i, bb_instrs b !! k = Some i → bb_instrs b' !! k = Some i).

(** The flags the grammar admits for an operation: [nsw] and [nuw] on
    additions, subtractions, multiplications and left shifts, [exact] on
    divisions and right shifts. *)
Definition flags_valid (op : BinOp_Op) (fl : BinOp_Flags) : Prop :=
  match op with
  | Add | Sub | Mul | Shl => exact fl = false
  | SDiv | UDiv | LShr | AShr => nsw fl = false ∧ nuw fl = false
  end.

(** What is left to read: two for each lexeme the lexer still has, one
    for a token that was put back. *)
Definition pending (st : PState) : nat :=
  2 * length (lexer st) + (if returned (tokenizer st) then 1 else 0).

End parser.

(** ** The LLVM plugin ([tv/tv.cpp]) *)

Module tv.
Import smt IR values tools.

(** An [llvm::Value], as far as [value_name] looks at it: the address of
    the object and what [getName()] returns. *)
Record llvm_Value : Type := mk_llvm_Value { llvm_addr : N; llvm_getName : string }.

(** The statics [value_names] and [value_id_counter] (an [unsigned]). *)
Record names_t : Type :=
  mkNames { value_names : gmap N string; value_id_counter : N }.

(** What [reset_state] does to them. *)
Definition reset_names : names_t := mkNames ∅ 0.

(** [value_name]: [value_names[&v]] is the cached name, or the empty
    string, which the map then holds until it is assigned. *)
Definition value_name (v : llvm_Value) (st : names_t) : string * names_t :=
  let name := default "" (value_names st !! llvm_addr v) in
  if decide (name ≠ "") then (name, st)
  else if decide (llvm_getName v ≠ "") then
    let name := "%" +:+ llvm_getName v in
    (name, mkNames (<[llvm_addr v := name]> (value_names st))
             (value_id_counter st))
  else
    let name := "%" +:+ pretty (value_id_counter st) in
    (name, mkNames (<[llvm_addr v := name]> (value_names st))
             ((value_id_counter st + 1) mod 2 ^ 32)%N).

(** An [llvm::Type], as far as [llvm_type2alive] looks at it. *)
Inductive llvm_Type : Type :=
| VoidTyID
| IntegerTyID (bits : N)               (* getBitWidth() *)
| OtherTyID.

(** Modelled from the spec: the constructor [IntType(name, width)] is
    declared in [ir/type.h], which is not part of the sources; §3: [Int(w)]
    is the integer type of the declared width [w]. *)
Definition IntType_new (name : string) (bitwidth : N) : IntType :=
  mkIntType name (Z.of_N bitwidth) true.

(** The array [int_types] as [alive_init] fills it: no object at 0, the
    type [i<k>] at [k] in 1..64.  The object at [k] is given the address
    [k]; the static [Type::voidTy] is given the address 0. *)
Definition int_types (k : N) : option (ref type) :=
  if decide (1 ≤ k ≤ 64)%N
  then Some (mkRef k (IntTy (IntType_new ("i" +:+ pretty k) k)))
  else None.

Definition voidTy : ref type := mkRef 0 VoidTy.

(** [llvm_type2alive]; [None] is [nullptr]. *)
Definition llvm_type2alive (ty : llvm_Type) : option (ref type) :=
  match ty with
  | VoidTyID => Some voidTy
  | IntegerTyID bits => if (bits <=? 64)%N then int_types bits else None
  | OtherTyID => None
  end.

(** Every cached name starts with [%]. *)
Definition names_ok (st : names_t) : Prop :=
  ∀ a n, value_names st !! a = Some n → not_percent n = false.

End tv.

(** ** Sample programs and models *)

Module samples.
Import smt IR values tools.

(** A symbolic type with every category enabled, named after [opname]. *)
Definition symbolic (opname : string) : SymbolicType :=
  SymbolicType_setName opname
    (mkSymbolicType "" "" 31 Undefined (mkIntType "" 0 false)
       (mkFloatType "") (mkPtrType "") (mkArrayType "") (mkVectorType "")).

(** The type of [%a] may be an integer, a pointer or a vector; the type of
    [%b] must be an integer. *)
Definition ty_a : SymbolicType :=
  SymbolicType_enforceIntOrPtrOrVectorType (symbolic "%a").
Definition ty_b : SymbolicType :=
  SymbolicType_enforceIntType (symbolic "%b").

(** Both category variables say "pointer". *)
Definition m_ptr : Model := {[ "%a_type" := 2; "%b_type" := 2 ]}.

(** An engine that decides closed queries by evaluation and gives up on
    the others. *)
Definition eval_oracle : Oracle :=
  λ _ q,
    match q with
    | mkForAll vars b =>
        if decide (vars = ∅) then
          match eval ∅ b with
          | Some (VBool true) => SAT ∅
          | _ => UNSAT
          end
        else UNKNOWN
    | _ => UNKNOWN
    end.

Definition i8 : IntType := mkIntType "i8" 8 true.

(** A state whose function returned its input [%x]. *)
Definition ret_x_state : State :=
  mkState (mkBool true) ∅ ∅ true (mkBool true)
    (mkStateValue (mkVar "%x" 8) (mkBool true), ∅).

(** A state whose function returned [%x] as well, after it introduced the
    fresh symbol [undef_1] for a value the return does not use. *)
Definition unused_undef_state : State :=
  mkState (mkBool true) ∅ {[ ("undef_1", 8%N) ]} true (mkBool true)
    (mkStateValue (mkVar "%x" 8) (mkBool true), ∅).

(** The state after [unreachable]: nothing is returned. *)
Definition unreachable_state : State :=
  mkState (mkBool false) ∅ ∅ false (mkBool false)
    (mkStateValue mkInvalid mkInvalid, ∅).

Definition empty_fn : Function := mkFunction [] [] [] [].

(** The constant expression [(C1 / C2)] over 8-bit integers. *)
Definition C1_sdiv_C2 : Constant :=
  ConstantBinOp_new (IntTy i8)
    (Const (IntTy i8) "C1") (Const (IntTy i8) "C2") SDIV.

Definition init_state : State :=
  mkState (mkBool true) ∅ ∅ false (mkBool false)
    (mkStateValue mkInvalid mkInvalid, ∅).

(** [%r = add i8 undef, %x; ret i8 %r] *)
Definition fn_undef : Function :=
  mkFunction
    [mkInput (IntTy i8) "%x"] [] [mkUndefValue (IntTy i8) "undef"]
    [mkBasicBlock ""
       [BinOp (IntTy i8) "%r" (UndefPtr 0) (InputPtr 0) Add None_;
        Return (IntTy i8) "return" (InstrPtr 0 0)]].

(** Its state when the fresh symbol of [undef] is numbered [n]. *)
Definition fn_undef_state (n : nat) : State :=
  let u := "undef_" +:+ pretty n in
  let r := (mkStateValue (add (mkVar u 8) (mkVar "%x" 8)) (mkBool true), ∅) in
  mkState (mkBool true)
    {[ UndefPtr 0 := (mkStateValue (mkVar u 8) (mkBool true), ∅);
       InstrPtr 0 0 := r ]}
    {[ (u, 8%N) ]} true (mkBool true) r.

(** A state of the same function in which the valuation of [%r] carries
    the fresh symbol [undef_0] as its own quantifier. *)
Definition r_undef_state : State :=
  let r := (mkStateValue (add (mkVar "undef_0" 8) (mkVar "%x" 8)) (mkBool true),
            {[ ("undef_0", 8%N) ]} : gset (string * N)) in
  mkState (mkBool true) {[ InstrPtr 0 0 := r ]} ∅ true (mkBool true) r.

(** An executor that knows this one function and draws one number. *)
Definition fn_undef_exec : SymExec := λ _ gbl_id, (fn_undef_state gbl_id, S gbl_id).

(** The renaming between its first and its second execution. *)
Definition undef_0_to_1 (x : string) : string :=
  if decide (x = "undef_0") then "undef_1" else x.
Definition i16 : IntType := mkIntType "i16" 16 true.

End samples.

Module parser_samples.
Import smt IR values parser samples.

(** Stand-ins for the declarations the sources do not have. *)
Definition token_name (t : token) : string := "token".
Definition IntType_new (n : Z) : type := IntTy (mkIntType "" n true).
Definition SymbolicType_new : type := SymbolicTy (symbolic "").
Definition IntConst_name (n : Z) : string := pretty n.
Definition Return_name : string := "return".
Definition Unreachable_name : string := "unreachable".

Definition lex (t : token) (n : Z) (s : string) : LexException + lexeme :=
  inr (mkLexeme t (mkYylval n s) 1).

(** What the lexer returns on
    [%r = add i8 %x, %x]
    [ret i8 %r]
    [=>] *)
Definition add_x_x : list (LexException + lexeme) :=
  [lex IDENTIFIER 0 "%r"; lex EQUALS 0 ""; lex ADD 0 ""; lex INT_TYPE 8 "";
   lex IDENTIFIER 0 "%x"; lex COMMA 0 ""; lex IDENTIFIER 0 "%x";
   lex RETURN 0 ""; lex INT_TYPE 8 ""; lex IDENTIFIER 0 "%r";
   lex ARROW 0 ""].

Definition start (input : list (LexException + lexeme)) : PState :=
  mkPState input (mkYylval 0 "") 0 (mkTokenizer END false) ∅
    (mkFunction [] [] [] []).

(** The parser in front of the first operand [%x] of the addition. *)
Definition before_x : PState := start (drop 4 add_x_x).

(** The function the parser builds from [add_x_x]. *)
Definition add_x_x_fn : Function :=
  mkFunction [mkInput (IntType_new 8) "%x"] [] []
    [mkBasicBlock ""
       [BinOp (IntType_new 8) "%r" (InputPtr 0) (InputPtr 0) Add None_;
        Return (IntType_new 8) Return_name (InstrPtr 0 0)]].


End parser_samples.

(** * Properties *)

(** ** Evaluation *)

Section eval_facts.
Import smt.

Lemma wrap_range (w : N) (z : Z) : 0 ≤ wrap w z < 2 ^ Z.of_N w.
Proof. unfold wrap. apply Z.mod_pos_bound. apply Z.pow_pos_nonneg; lia. Qed.

Lemma wrap_small (w : N) (z : Z) : 0 ≤ z < 2 ^ Z.of_N w → wrap w z = z.
Proof. intros H. unfold wrap. by apply Z.mod_small. Qed.

Lemma sat_eval (m : Model) (e : expr) :
  (∀ vars body, e ≠ mkForAll vars body) →
  sat m e ↔ eval m e = Some (VBool true).
Proof. intros H. destruct e; simpl; try done. by destruct (H vars e). Qed.

Lemma eval_And_true (m : Model) (x y : expr) :
  eval m (x && y)%E = Some (VBool true) ↔
  eval m x = Some (VBool true) ∧ eval m y = Some (VBool true).
Proof.
  simpl. destruct (eval m x) as [[[]|]|], (eval m y) as [[[]|]|]; simpl;
    split; try done; intros [? ?]; done.
Qed.

End eval_facts.

(** ** Types *)

Section type_facts.
Import smt IR.

Lemma Type_var_Some (opname var : string) (w : N) :
  opname ≠ "" → Type_var opname var w = Some (mkVar (opname +:+ "_" +:+ var) w).
Proof. intros H. unfold Type_var. by rewrite decide_False. Qed.

Lemma Type_var_inv (opname var : string) (w : N) (e : expr) :
  Type_var opname var w = Some e → e = mkVar (opname +:+ "_" +:+ var) w.
Proof. unfold Type_var. case_decide; congruence. Qed.

(** The width term of an integer type is a 10-bit vector under every model. *)
Lemma IntType_sizeVar_eval (t : IntType) (bw : expr) (m : Model) :
  IntType_sizeVar t = Some bw →
  ∃ w, eval m bw = Some (VBV var_bw_bits w) ∧ 0 ≤ w < 1024.
Proof.
  unfold IntType_sizeVar, Type_sizeVar. intros H.
  destruct (defined t).
  - injection H as <-. eexists; split; [done|]. apply (wrap_range 10).
  - apply Type_var_inv in H as ->. eexists; split; [done|]. apply (wrap_range 10).
Qed.

Lemma IntType_sizeVar_total (t : IntType) :
  defined t = true ∨ int_opname t ≠ "" → is_Some (IntType_sizeVar t).
Proof.
  unfold IntType_sizeVar, Type_sizeVar. intros [->|H]; [done|].
  destruct (defined t); [done|]. by rewrite Type_var_Some.
Qed.

(** The constraint of an integer type exists as soon as the type is named
    or has a declared width. *)
Lemma IntType_getTypeConstraints_total (t : IntType) :
  defined t = true ∨ int_opname t ≠ "" → is_Some (IntType_getTypeConstraints t).
Proof.
  intros H. destruct (IntType_sizeVar_total t H) as [bw Hbw].
  unfold IntType_getTypeConstraints. by rewrite Hbw.
Qed.




End type_facts.

(** ** Type fix-up *)

Section fixup_facts.
Import smt IR.

Lemma IntType_fixup_idem (m : Model) (t t' : IntType) :
  IntType_fixup m t = Some t' → IntType_fixup m t' = Some t'.
Proof.
  unfold IntType_fixup, IntType_sizeVar.
  destruct (defined t) eqn:Hd.
  - intros [= <-]. by rewrite Hd.
  - intros H.
    destruct (Type_sizeVar (int_opname t)) as [sv|] eqn:Hsv; [|done].
    simpl in H. destruct (getUInt m sv) as [n|] eqn:Hn; [|done].
    simpl in H. injection H as <-. simpl. by rewrite Hsv; simpl; rewrite Hn.
Qed.

Lemma SymbolicType_fixup_idem (m : Model) (t t' : SymbolicType) :
  SymbolicType_fixup m t = Some t' → SymbolicType_fixup m t' = Some t'.
Proof.
  unfold SymbolicType_fixup. intros H.
  destruct (Type_typeVar (sym_opname t)) as [tv|] eqn:Htv; [|done].
  simpl in H. destruct (getUInt m tv) as [n|] eqn:Hn; [|done]. simpl in H.
  destruct (negb _) eqn:Hrange; [done|].
  destruct (Z.land _ _ =? 0) eqn:Hen; [done|].
  simpl in H.
  destruct (TypeNum_of (to_unsigned n)) eqn:Hk; try done.
  - destruct (IntType_fixup m (i t)) as [i'|] eqn:Hi; [|done].
    simpl in H. injection H as <-. simpl.
    rewrite Htv. simpl. rewrite Hn. simpl. rewrite Hrange, Hen, Hk.
    by rewrite (IntType_fixup_idem _ _ _ Hi).
  - injection H as <-. simpl. rewrite Htv. simpl. rewrite Hn. simpl.
    by rewrite Hrange, Hen, Hk.
  - injection H as <-. simpl. rewrite Htv. simpl. rewrite Hn. simpl.
    by rewrite Hrange, Hen, Hk.
  - injection H as <-. simpl. rewrite Htv. simpl. rewrite Hn. simpl.
    by rewrite Hrange, Hen, Hk.
  - injection H as <-. simpl. rewrite Htv. simpl. rewrite Hn. simpl.
    by rewrite Hrange, Hen, Hk.
Qed.

(** C7. Fix-up is idempotent under a fixed model: running it a second time
    on its own result changes nothing (category, width or any other field),
    and a run that fails an assertion fails the same way. *)
Theorem Type_fixup_idempotent (m : Model) (t : type) :
  Type_fixup m t ≫= Type_fixup m = Type_fixup m t.
Proof.
  destruct t as [|t|t|t|t|t|t]; simpl; try done.
  - destruct (IntType_fixup m t) as [t'|] eqn:H; [|done]. simpl.
    by rewrite (IntType_fixup_idem _ _ _ H).
  - destruct (SymbolicType_fixup m t) as [t'|] eqn:H; [|done]. simpl.
    by rewrite (SymbolicType_fixup_idem _ _ _ H).
Qed.

(** Fix-up does run to completion on a model of the type constraints of a
    named symbolic type, and chooses the integer category. *)
Lemma SymbolicType_fixup_total (m : Model) (t : SymbolicType) (c : expr) :
  SymbolicType_getTypeConstraints t = Some c →
  sat m c →
  ∃ t', SymbolicType_fixup m t = Some t' ∧ typ t' = Int.
Proof.
  unfold SymbolicType_getTypeConstraints, SymbolicType_is, Type_is.
  intros H Hsat.
  destruct (Type_typeVar (sym_opname t)) as [tv|] eqn:Htv; [|done].
  simpl in H.
  destruct (IntType_getTypeConstraints (i t)) as [ci|] eqn:Hci; [|done].
  simpl in H. injection H as <-.
  apply Type_var_inv in Htv as Htv'. subst tv.
  unfold SymbolicType_fixup. rewrite Htv. simpl.
  unfold getUInt. simpl. simpl in Hsat. unfold var_type_bits in *.
  set (n := wrap 3 (mval m _)) in *.
  assert (Hn : 0 ≤ n < 8) by apply (wrap_range 3).
  change (wrap 3 0) with 0 in Hsat.
  assert (HI : enabled_bit t Int = true ∧ n = 0).
  { destruct (eval m ci) as [[bi|]|]; simpl in Hsat; try done.
    injection Hsat as Hsat. rewrite !andb_false_r, !orb_false_r in Hsat.
    apply andb_prop in Hsat as [Hsat _]. apply andb_prop in Hsat as [-> Hz].
    split; [done|]. by apply Z.eqb_eq. }
  destruct HI as [HeI Hn0]. rewrite Hn0. simpl.
  unfold enabled_bit in HeI. rewrite Z.land_comm.
  change (to_unsigned 0) with (TypeNum_val Int).
  destruct (Z.land (enabled t) (1 ≪ TypeNum_val Int) =? 0); [done|].
  destruct (IntType_fixup m (i t)) as [i'|] eqn:Hi.
  - simpl. by eexists.
  - exfalso. unfold IntType_fixup in Hi.
    unfold IntType_getTypeConstraints in Hci.
    destruct (defined (i t)); [done|].
    destruct (IntType_sizeVar (i t)) as [sv|] eqn:Hsv; [|done].
    simpl in Hi.
    destruct (IntType_sizeVar_eval _ _ m Hsv) as (w & Hw & _).
    unfold getUInt in Hi. by rewrite Hw in Hi.
Qed.

End fixup_facts.

(** ** Type equality *)

Section type_eq_facts.
Import smt IR.

Lemma Type_eq_same (this b : ref type) :
  addr this = addr b → Type_eq this b = Some (mkBool true).
Proof. intros H. unfold Type_eq. by rewrite decide_True. Qed.

Lemma SymbolicType_eq_concrete (s : SymbolicType) (c : type) :
  category c ≠ Undefined →
  SymbolicType_eq s c =
    k ← SymbolicType_is s (category c);
    e ← variant_eq_concrete s c;
    Some (k && e)%E.
Proof. by destruct c. Qed.

Lemma eq_sizeVar_eval (m : Model) (x y : expr) (wx wy : Z) :
  eval m x = Some (VBV var_bw_bits wx) →
  eval m y = Some (VBV var_bw_bits wy) →
  eval m (x == y)%E = Some (VBool (wx =? wy)).
Proof. intros Hx Hy. simpl. by rewrite Hx, Hy. Qed.

Lemma IntType_eq_bool (m : Model) (l r : IntType) (e : expr) :
  IntType_eq l r = Some e →
  ∃ b, eval m e = Some (VBool b) ∧ (sat m e ↔ b = true).
Proof.
  unfold IntType_eq. intros H.
  destruct (IntType_sizeVar l) as [x|] eqn:Hx; [|done].
  destruct (IntType_sizeVar r) as [y|] eqn:Hy; [|done].
  simpl in H. injection H as <-.
  destruct (IntType_sizeVar_eval _ _ m Hx) as (wx & Hwx & _).
  destruct (IntType_sizeVar_eval _ _ m Hy) as (wy & Hwy & _).
  exists (wx =? wy). rewrite sat_eval by done.
  rewrite (eq_sizeVar_eval m x y wx wy) by done. split; [done|].
  split; congruence.
Qed.

Lemma PtrType_eq_bool (m : Model) (l r : PtrType) (e : expr) :
  PtrType_eq l r = Some e →
  ∃ b, eval m e = Some (VBool b) ∧ (sat m e ↔ b = true).
Proof.
  unfold PtrType_eq, Type_sizeVar. intros H.
  destruct (Type_var (ptr_opname l) _ _) as [x|] eqn:Hx; [|done].
  destruct (Type_var (ptr_opname r) _ _) as [y|] eqn:Hy; [|done].
  simpl in H. injection H as <-.
  apply Type_var_inv in Hx as ->. apply Type_var_inv in Hy as ->.
  eexists. split; [done|]. simpl. split; congruence.
Qed.

(** Two distinct symbolic types are equal under [m] exactly when some
    category enabled in the left one is the value of both category
    variables and the two variants of that category are equal. *)
Lemma SymbolicType_eq_symbolic_sat (m : Model) (l r : SymbolicType) (c : expr) :
  SymbolicType_eq l (SymbolicTy r) = Some c →
  sat m c ↔
  ∃ k tl tr e,
    enabled_bit l k = true ∧
    Type_typeVar (sym_opname l) = Some tl ∧
    Type_typeVar (sym_opname r) = Some tr ∧
    getUInt m tl = Some (TypeNum_val k) ∧
    getUInt m tr = Some (TypeNum_val k) ∧
    variant_eq k l r = Some e ∧ sat m e.
Proof.
  unfold SymbolicType_eq, SymbolicType_is, Type_is. intros H.
  destruct (Type_typeVar (sym_opname l)) as [tl|] eqn:Htl; [|done].
  simpl in H.
  destruct (IntType_eq (i l) (i r)) as [ei|] eqn:Hei; [|done]. simpl in H.
  destruct (PtrType_eq (p l) (p r)) as [ep|] eqn:Hep; [|done]. simpl in H.
  destruct (Type_typeVar (sym_opname r)) as [tr|] eqn:Htr; [|done].
  simpl in H. injection H as <-.
  destruct (IntType_eq_bool m _ _ _ Hei) as (bi & Hbi & Hsi).
  destruct (PtrType_eq_bool m _ _ _ Hep) as (bp & Hbp & Hsp).
  apply Type_var_inv in Htl as Htl'. apply Type_var_inv in Htr as Htr'.
  subst tl tr. unfold getUInt. simpl. rewrite Hbi, Hbp. simpl.
  unfold var_type_bits.
  set (nl := wrap 3 (mval m (sym_opname l +:+ _))).
  set (nr := wrap 3 (mval m (sym_opname r +:+ _))).
  change (wrap 3 0) with 0. change (wrap 3 1) with 1.
  change (wrap 3 2) with 2. change (wrap 3 3) with 3.
  change (wrap 3 4) with 4.
  rewrite !andb_false_r, !orb_false_r. simpl.
  split.
  - intros [= Hb]. apply andb_prop in Hb as [Hb Hlr].
    apply Z.eqb_eq in Hlr.
    apply orb_prop in Hb as [Hb|Hb];
      apply andb_prop in Hb as [Hb Hv]; apply andb_prop in Hb as [He Hk];
      apply Z.eqb_eq in Hk.
    + exists Int, (mkVar (sym_opname l +:+ "_" +:+ "type") 3),
        (mkVar (sym_opname r +:+ "_" +:+ "type") 3), ei.
      simpl. fold nl nr. rewrite <- Hlr, Hk, Hei, Hsi. done.
    + exists Ptr, (mkVar (sym_opname l +:+ "_" +:+ "type") 3),
        (mkVar (sym_opname r +:+ "_" +:+ "type") 3), ep.
      simpl. fold nl nr. rewrite <- Hlr, Hk, Hep, Hsp. done.
  - intros (k & tl & tr & e & He & [= <-] & [= <-] & Hl & Hr & Hv & Hs).
    simpl in Hl, Hr. fold nl in Hl. fold nr in Hr.
    injection Hl as ->. injection Hr as ->.
    destruct k; simpl in Hv; try done;
      try (injection Hv as <-; done).
    + rewrite Hei in Hv. injection Hv as <-. apply Hsi in Hs as ->.
      by rewrite He.
    + rewrite Hep in Hv. injection Hv as <-. apply Hsp in Hs as ->.
      rewrite He. simpl. by rewrite orb_true_r.
Qed.

End type_eq_facts.

Section type_eq_claim.
Import smt IR samples.

(** C6, as stated, fails for two symbolic types: the left type admits
    pointers, the right one only integers, so they share the integer category
    alone; yet under a model in which both category variables say "pointer"
    the equality built by the code holds, while the disjunction over the
    shared categories does not.  With the operands exchanged the code's
    equality does not hold either: it is not symmetric. *)
Lemma Type_eq_symbolic_not_shared :
  ∃ c c' c'',
    Type_eq (mkRef 1%N (SymbolicTy ty_a)) (mkRef 2%N (SymbolicTy ty_b)) = Some c ∧
    SymbolicType_eq_shared ty_a ty_b = Some c' ∧
    Type_eq (mkRef 2%N (SymbolicTy ty_b)) (mkRef 1%N (SymbolicTy ty_a)) = Some c'' ∧
    eval m_ptr c = Some (VBool true) ∧
    eval m_ptr c' = Some (VBool false) ∧
    eval m_ptr c'' = Some (VBool false).
Proof.
  do 3 eexists.
  split_and!; [reflexivity|reflexivity|reflexivity| | |]; by vm_compute.
Qed.

(** C6 (amended). Comparing a type object with itself yields [true].  For
    two distinct type objects, equality reduces
    - for two integer types, to equality of their width terms;
    - for a symbolic and a concrete type, in either order, to the category
      test of the symbolic type conjoined with equality of its matching
      variant and the concrete type;
    - for two symbolic types, to a predicate that holds exactly when some
      category enabled in the left type is the value of both category
      variables and the variants of that category are equal; the categories
      enabled in the right type are not consulted. *)
Theorem Type_eq_reduces (this b : ref type) :
  (addr this = addr b → Type_eq this b = Some (mkBool true)) ∧
  (addr this ≠ addr b →
   (∀ l r, deref this = IntTy l → deref b = IntTy r →
      Type_eq this b =
        x ← IntType_sizeVar l; y ← IntType_sizeVar r; Some (x == y)%E) ∧
   (∀ s, deref this = SymbolicTy s → category (deref b) ≠ Undefined →
      Type_eq this b =
        k ← SymbolicType_is s (category (deref b));
        e ← variant_eq_concrete s (deref b);
        Some (k && e)%E) ∧
   (∀ s, deref b = SymbolicTy s → category (deref this) ≠ Undefined →
      Type_eq this b =
        k ← SymbolicType_is s (category (deref this));
        e ← variant_eq_concrete s (deref this);
        Some (k && e)%E) ∧
   (∀ l r c, deref this = SymbolicTy l → deref b = SymbolicTy r →
      Type_eq this b = Some c →
      ∀ m, sat m c ↔
        ∃ k tl tr e,
          enabled_bit l k = true ∧
          Type_typeVar (sym_opname l) = Some tl ∧
          Type_typeVar (sym_opname r) = Some tr ∧
          getUInt m tl = Some (TypeNum_val k) ∧
          getUInt m tr = Some (TypeNum_val k) ∧
          variant_eq k l r = Some e ∧ sat m e)).
Proof.
  split; [apply Type_eq_same|].
  intros Hne. unfold Type_eq. rewrite decide_False by done.
  split_and!.
  - by intros l r -> ->.
  - intros s -> Hc. by apply SymbolicType_eq_concrete.
  - intros s -> Hc. rewrite <- SymbolicType_eq_concrete by done.
    by destruct (deref this).
  - intros l r c -> -> H m. by apply SymbolicType_eq_symbolic_sat.
Qed.

(** The instance at [i8] against [i16], and at [i8] against the type of
    [%b]. *)
Lemma Type_eq_reduces_witness :
  Type_eq (mkRef 1%N (IntTy i8)) (mkRef 2%N (IntTy i16))
    = Some (mkUInt 8 10 == mkUInt 16 10)%E ∧
  Type_eq (mkRef 1%N (IntTy i8)) (mkRef 2%N (SymbolicTy ty_b))
    = Some ((mkBool true && (mkVar "%b_type" 3 == mkUInt 0 3))
            && (mkVar "%b_bw" 10 == mkUInt 8 10))%E.
Proof.
  assert (Hne : addr (mkRef 1%N (IntTy i8)) ≠ addr (mkRef 2%N (IntTy i16)))
    by (simpl; lia).
  assert (Hne' : addr (mkRef 1%N (IntTy i8)) ≠ addr (mkRef 2%N (SymbolicTy ty_b)))
    by (simpl; lia).
  split.
  - exact (proj1 (proj2 (Type_eq_reduces _ _) Hne) i8 i16 eq_refl eq_refl).
  - exact (proj1 (proj2 (proj2 (proj2 (Type_eq_reduces _ _) Hne'))) ty_b eq_refl
             ltac:(discriminate)).
Defined.

End type_eq_claim.

(** ** Constants *)

Section constant_facts.
Import smt IR values samples.

(** The syntactic width of a term is the width of its value. *)
Lemma eval_bits (m : Model) (e : expr) (w : N) (z : Z) :
  eval m e = Some (VBV w z) → bits e = w.
Proof.
  revert w z. induction e; intros w z; simpl; try congruence;
    try (destruct (eval m e) as [[|]|]; simpl; congruence);
    try (destruct (eval m e1) as [[|w1 z1]|], (eval m e2) as [[|w2 z2]|];
         simpl; try congruence;
         destruct (w1 =? w2)%N; try congruence;
         intros [= <- _]; by eapply IHe1).
Qed.

(** De Morgan, for terms: the disjunction built by [div_ub] is the negated
    conjunction of the two equalities. *)
Lemma div_ub_signed_eval (m : Model) (a b ub : expr) :
  eval m (div_ub a b ub true) =
  eval m (ub && ((b != mkUInt 0 (bits b)) &&
                 Not ((a == IntMin (bits b)) && (b == mkInt (-1) (bits b)))))%E.
Proof.
  unfold div_ub, ne. cbn [eval].
  generalize (val_eq (eval m b) (Some (VBV (bits b) (wrap (bits b) 0)))).
  generalize (val_eq (eval m a)
                (Some (VBV (bits b) (wrap (bits b) (2 ^ (Z.of_N (bits b) - 1)))))).
  generalize (val_eq (eval m b) (Some (VBV (bits b) (wrap (bits b) (-1))))).
  intros x y z.
  by destruct (eval m ub) as [[[]|]|], x as [[[]|]|], y as [[[]|]|],
    z as [[[]|]|].
Qed.

Lemma and_true_eval (m : Model) (x y : expr) :
  eval m ((x && y) && mkBool true)%E = eval m (x && y)%E.
Proof.
  simpl. by destruct (eval m x) as [[[]|]|], (eval m y) as [[[]|]|].
Qed.

(** C4. The valuation of a constant is never poison, and the UB it adds to
    the state is, for a binary operation, the conjunction of the UB of the
    two operands with the condition of the operator: none for addition and
    subtraction, a non-zero divisor for [UDIV], and for [SDIV] also that the
    operands are not [IntMin] and [-1]; the other constants add no UB. *)
Theorem Constant_toSMT_ub (c : Constant) (s : State) (sv : StateValue)
    (s' : State) :
  Constant_toSMT c s = Some (sv, s') →
  non_poison sv = mkBool true ∧
  ∃ ub_c,
    toSMT_cnst c = Some (value sv, ub_c) ∧
    ub s' = (ub s && ub_c)%E ∧
    match c with
    | ConstantBinOp _ _ lhs rhs op =>
        ∃ a b, toSMT_cnst lhs = Some a ∧ toSMT_cnst rhs = Some b ∧
               ∀ m, eval m ub_c =
                    eval m ((a.2 && b.2) && op_condition op a.1 b.1)%E
    | _ => ub_c = mkBool true
    end.
Proof.
  unfold Constant_toSMT. intros H.
  destruct (toSMT_cnst c) as [[v u]|] eqn:Hc; [|done].
  simpl in H. injection H as <- <-. simpl. split; [done|].
  exists u. split; [done|]. split; [done|].
  destruct c as [ty nm|ty nm lhs rhs op|ty nm fn args]; simpl in Hc.
  - destruct (Constant_bits _); [|done]. by injection Hc as <- <-.
  - destruct (toSMT_cnst lhs) as [a|]; [|done].
    destruct (toSMT_cnst rhs) as [b|]; [|done].
    simpl in Hc. exists a, b. split; [done|]. split; [done|].
    intros m. destruct op; injection Hc as <- <-; unfold op_condition.
    + symmetry. apply and_true_eval.
    + symmetry. apply and_true_eval.
    + apply div_ub_signed_eval.
    + done.
  - by injection Hc as <- <-.
Qed.

(** The instance at [(C1 / C2)]. *)
Lemma Constant_toSMT_ub_witness :
  non_poison (mkStateValue (sdiv (mkVar "C1" 8) (mkVar "C2" 8)) (mkBool true))
    = mkBool true ∧
  ∃ ub_c,
    toSMT_cnst C1_sdiv_C2
      = Some (sdiv (mkVar "C1" 8) (mkVar "C2" 8), ub_c) ∧
    (mkBool true && div_ub (mkVar "C1" 8) (mkVar "C2" 8)
                      (mkBool true && mkBool true) true)%E
      = (mkBool true && ub_c)%E ∧
    ∃ a b, toSMT_cnst (Const (IntTy i8) "C1") = Some a ∧
           toSMT_cnst (Const (IntTy i8) "C2") = Some b ∧
           ∀ m, eval m ub_c =
                eval m ((a.2 && b.2) && op_condition SDIV a.1 b.1)%E.
Proof.
  apply (Constant_toSMT_ub C1_sdiv_C2 init_state
           (mkStateValue (sdiv (mkVar "C1" 8) (mkVar "C2" 8)) (mkBool true))
           (addUB (div_ub (mkVar "C1" 8) (mkVar "C2" 8)
                     (mkBool true && mkBool true) true) init_state)).
  reflexivity.
Defined.

(** Boundary cases: the UB of a signed division is violated at
    [IntMin / -1], and that of either division at a zero divisor. *)
Lemma sdiv_IntMin_minus_one (m : Model) (a b ub : expr) (w : N) :
  (0 < w)%N →
  eval m a = Some (VBV w (2 ^ (Z.of_N w - 1))) →
  eval m b = Some (VBV w (2 ^ Z.of_N w - 1)) →
  eval m (div_ub a b ub true) ≠ Some (VBool true).
Proof.
  intros Hw Ha Hb. rewrite div_ub_signed_eval.
  rewrite (eval_bits _ _ _ _ Hb). cbn [eval ne]. rewrite Ha, Hb. simpl.
  rewrite !N.eqb_refl.
  assert (H1 : wrap w (2 ^ (Z.of_N w - 1)) = 2 ^ (Z.of_N w - 1)).
  { apply wrap_small. split; [apply Z.pow_nonneg; lia|].
    apply Z.pow_lt_mono_r; lia. }
  assert (H2 : wrap w (-1) = 2 ^ Z.of_N w - 1).
  { unfold wrap. symmetry. apply (Z.mod_unique_pos _ _ (-1)); [|lia].
    assert (0 < 2 ^ Z.of_N w) by (apply Z.pow_pos_nonneg; lia). lia. }
  rewrite H1, H2, !Z.eqb_refl. simpl.
  by destruct (eval m ub) as [[[]|]|], (_ =? _).
Qed.

Lemma div_by_zero (m : Model) (a b ub : expr) (w : N) (sign : bool) :
  eval m b = Some (VBV w 0) →
  eval m (div_ub a b ub sign) ≠ Some (VBool true).
Proof.
  intros Hb.
  assert (H : eval m (ub && (b != mkUInt 0 (bits b)))%E ≠ Some (VBool true)).
  { rewrite (eval_bits _ _ _ _ Hb). cbn [eval ne]. rewrite Hb. simpl.
    rewrite N.eqb_refl. simpl. by destruct (eval m ub) as [[[]|]|]. }
  unfold div_ub. destruct sign; [|done].
  intros Heq. apply eval_And_true in Heq as [Heq _]. by apply H.
Qed.

(** A constant over integer types has a valuation. *)
Lemma toSMT_cnst_total (c : Constant) :
  int_typed c → is_Some (toSMT_cnst c).
Proof.
  induction c as [ty nm|ty nm lhs IHl rhs IHr op|ty nm fn args]; simpl.
  - intros [w Hw]. unfold Constant_bits. simpl. rewrite Hw. by eexists.
  - intros [Hl Hr]. destruct (IHl Hl) as [a ->], (IHr Hr) as [b ->].
    by eexists.
  - by eexists.
Qed.

End constant_facts.

Section constant_fn_facts.
Import smt IR values samples.

Lemma string_app_assoc (x y z : string) : (x +:+ y) +:+ z = x +:+ y +:+ z.
Proof.
  induction x as [|c x IH]; [done|].
  change (String c ((x +:+ y) +:+ z) = String c (x +:+ y +:+ z)).
  by rewrite IH.
Qed.

(** C10. The constructor of [ConstantFn] throws exactly when the name is
    neither "log2" nor "width" or the number of arguments is not one; when it
    returns, the name of the constant is the function name followed by its
    argument in parentheses. *)
Theorem ConstantFn_new_throws (ty : type) (name : string) (args : list Value) :
  ((∃ e, ConstantFn_new ty name args = inl e) ↔
   (name ≠ "log2" ∧ name ≠ "width") ∨ length args ≠ 1%nat) ∧
  (∀ c, ConstantFn_new ty name args = inr c →
     ∃ arg, args = [arg] ∧
            Constant_getName c = name +:+ "(" +:+ Value_name arg +:+ ")").
Proof.
  unfold ConstantFn_new.
  assert (Hlen : ∀ l : list Value,
            negb (length l =? 1)%nat = false → ∃ arg, l = [arg]).
  { intros [|x [|y l]] H; try done. by exists x. }
  destruct (decide (name = "log2")) as [Hl|Hl];
    [|destruct (decide (name = "width")) as [Hw|Hw]].
  - destruct (negb (length args =? 1)%nat) eqn:Hn.
    + split; [|done]. split; [intros _; right|by eexists].
      apply negb_true_iff, Nat.eqb_neq in Hn. done.
    + destruct (Hlen _ Hn) as [arg ->]. simpl. split.
      * split; [by intros [e ?]|]. intros [[? _]|?]; done.
      * intros c [= <-]. exists arg. split; [done|]. simpl.
        by rewrite !string_app_assoc.
  - destruct (negb (length args =? 1)%nat) eqn:Hn.
    + split; [|done]. split; [intros _; right|by eexists].
      apply negb_true_iff, Nat.eqb_neq in Hn. done.
    + destruct (Hlen _ Hn) as [arg ->]. simpl. split.
      * split; [by intros [e ?]|]. intros [[_ ?]|?]; done.
      * intros c [= <-]. exists arg. split; [done|]. simpl.
        by rewrite !string_app_assoc.
  - split; [|done]. split; [by left|by eexists].
Qed.

(** The loop of the constructor separates the arguments with [", "]. *)
Lemma append_arg_two (str : string) (x y : Value) :
  foldl append_arg (str, true) [x; y]
  = (str +:+ Value_name x +:+ ", " +:+ Value_name y, false).
Proof. simpl. by rewrite !string_app_assoc. Qed.

End constant_fn_facts.

(** ** The refinement checker *)

Section check_refinement_facts.
Import smt IR values tools samples.

(** The queries of one call: three, all over the same variables. *)
Lemma check_refinement_fst (solve : Oracle) (s : Solver) (errs : Errors)
    (gq : gset (string * N)) (dom_a : expr) (ap : ValTy) (dom_b : expr)
    (bp : ValTy) :
  (check_refinement solve s errs gq dom_a ap dom_b bp).1 =
    s ++ [mkForAll (gq ∪ ap.2) (dom_a && Not dom_b);
          mkForAll (gq ∪ ap.2)
            (dom_a && (non_poison ap.1 && Not (non_poison bp.1)));
          mkForAll (gq ∪ ap.2)
            ((dom_a && non_poison ap.1) && Not (value ap.1 == value bp.1))].
Proof.
  unfold check_refinement, notImplies, ne. cbn [Solver_check fst].
  by rewrite <- !app_assoc.
Qed.

(** The errors of one call: one for each query answered [Sat]. *)
Lemma check_refinement_snd (solve : Oracle) (s : Solver) (errs : Errors)
    (gq : gset (string * N)) (dom_a : expr) (ap : ValTy) (dom_b : expr)
    (bp : ValTy) :
  (check_refinement solve s errs gq dom_a ap dom_b bp).2 =
    errs
    ++ fired solve (length s) (mkForAll (gq ∪ ap.2) (dom_a && Not dom_b))
         "Source is more defined than target"
    ++ fired solve (length s + 1)
         (mkForAll (gq ∪ ap.2)
            (dom_a && (non_poison ap.1 && Not (non_poison bp.1))))
         "Target is more poisonous than source"
    ++ fired solve (length s + 2)
         (mkForAll (gq ∪ ap.2)
            ((dom_a && non_poison ap.1) && Not (value ap.1 == value bp.1)))
         "value mismatch".
Proof.
  unfold check_refinement, notImplies, ne, fired, Errors_add.
  cbn [Solver_check snd]. rewrite !length_app. cbn [length].
  replace (length s + 1 + 1)%nat with (length s + 2)%nat by lia.
  destruct (solve (length s) _), (solve (length s + 1)%nat _),
    (solve (length s + 2)%nat _);
    simpl; by rewrite <- ?app_assoc, ?app_nil_r.
Qed.

(** C1, as stated, fails on the text of the third message: when the third
    query has a countermodel the error added is not ["Value mismatch"]. *)
Lemma check_refinement_not_Value_mismatch :
  (check_refinement eval_oracle [] [] ∅
     (mkBool true) (mkStateValue (mkUInt 0 8) (mkBool true), ∅)
     (mkBool true) (mkStateValue (mkUInt 1 8) (mkBool true), ∅)).2
  = ["value mismatch"] ∧
  "Value mismatch" ∉
    (check_refinement eval_oracle [] [] ∅
       (mkBool true) (mkStateValue (mkUInt 0 8) (mkBool true), ∅)
       (mkBool true) (mkStateValue (mkUInt 1 8) (mkBool true), ∅)).2.
Proof.
  assert (H : (check_refinement eval_oracle [] [] ∅
     (mkBool true) (mkStateValue (mkUInt 0 8) (mkBool true), ∅)
     (mkBool true) (mkStateValue (mkUInt 1 8) (mkBool true), ∅)).2
    = ["value mismatch"]) by by vm_compute.
  split; [done|]. rewrite H. intros Hin. apply list_elem_of_singleton in Hin.
  discriminate.
Qed.

(** C1 (amended). The checker dispatches exactly three universally
    quantified queries, in this order: [dom_a ∧ ¬dom_b], then
    [dom_a ∧ (a.non_poison ∧ ¬b.non_poison)], then
    [(dom_a ∧ a.non_poison) ∧ a.value ≠ b.value]; each query the engine
    answers with a countermodel adds exactly one error, respectively
    "Source is more defined than target", "Target is more poisonous than
    source" and "value mismatch"; any other answer adds nothing. *)
Theorem check_refinement_three_queries (solve : Oracle) (s : Solver)
    (errs : Errors) (gq : gset (string * N)) (dom_a : expr) (ap : ValTy)
    (dom_b : expr) (bp : ValTy) :
  let qvars := gq ∪ ap.2 in
  let q1 := mkForAll qvars (dom_a && Not dom_b) in
  let q2 := mkForAll qvars
              (dom_a && (non_poison ap.1 && Not (non_poison bp.1))) in
  let q3 := mkForAll qvars
              ((dom_a && non_poison ap.1) && Not (value ap.1 == value bp.1)) in
  let n := length s in
  check_refinement solve s errs gq dom_a ap dom_b bp =
    (s ++ [q1; q2; q3],
     errs ++ fired solve n q1 "Source is more defined than target"
          ++ fired solve (n + 1) q2 "Target is more poisonous than source"
          ++ fired solve (n + 2) q3 "value mismatch").
Proof.
  intros qvars q1 q2 q3 n. apply injective_projections.
  - apply check_refinement_fst.
  - apply check_refinement_snd.
Qed.

(** The second query is, under every model, the conjunction of the three
    conditions in the order [A.domain ∧ A.non_poison ∧ ¬B.non_poison]. *)
Lemma second_query_assoc (m : Model) (dom_a npa npb : expr) :
  eval m (dom_a && (npa && Not npb))%E = eval m ((dom_a && npa) && Not npb)%E.
Proof.
  simpl. destruct (eval m dom_a) as [[[]|]|], (eval m npa) as [[[]|]|],
    (eval m npb) as [[[]|]|]; done.
Qed.

End check_refinement_facts.

(** ** The verification driver *)

Section verify_facts.
Import smt IR values tools samples.

Lemma foldl_check_var_None (solve : Oracle) (src : Function)
    (tv : gmap string ValuePtr) (B : State) (l : list (ValuePtr * ValTy)) :
  foldl (check_var solve src tv B) None l = None.
Proof. by induction l. Qed.

(** Invariants of the loop over the valuations of the source. *)
Lemma check_each_ind (I : Solver * Errors → Prop) (solve : Oracle)
    (src : Function) (tv : gmap string ValuePtr) (B : State)
    (l : list (ValuePtr * ValTy)) (a r : Solver * Errors) :
  foldl (check_var solve src tv B) (Some a) l = Some r →
  I a →
  (∀ x e x', e ∈ l → I x →
     check_var solve src tv B (Some x) e = Some x' → I x') →
  I r.
Proof.
  revert a. induction l as [|e l IH]; intros a Hr Ha Hstep; cbn [foldl] in Hr.
  - by injection Hr as <-.
  - destruct (check_var solve src tv B (Some a) e) as [a'|] eqn:He.
    + apply (IH a' Hr).
      * apply (Hstep a e); [by left|done|done].
      * intros x e' x' Hin. apply Hstep. by right.
    + by rewrite foldl_check_var_None in Hr.
Qed.

Lemma check_var_cases (solve : Oracle) (src : Function)
    (tv : gmap string ValuePtr) (B : State) (s : Solver) (errs : Errors)
    (var : ValuePtr) (val : ValTy) (r : Solver * Errors) :
  check_var solve src tv B (Some (s, errs)) (var, val) = Some r →
  r = (s, errs) ∨
  ∃ tval, r = check_refinement solve s errs (getQuantVars B)
                (mkBool true) val (mkBool true) tval.
Proof.
  unfold check_var. simpl.
  destruct (getName src var) as [name|]; [|done]. simpl.
  destruct (not_percent name || negb (is_Instr var)).
  - intros [= <-]. by left.
  - destruct (tv !! name) as [p|]; [|done]. simpl.
    destruct (getValues B !! p) as [tval|]; [|done]. simpl.
    intros [= <-]. right. by exists tval.
Qed.

(** C9. When exactly one of the two states has returned, or neither has,
    the driver dispatches no query for the return value; it adds exactly
    one error in the first case ("Source returns but target doesn't" when
    only the source returned, "Target returns but source doesn't"
    otherwise) and none in the second. *)
Theorem verify_return_mismatch (solve : Oracle) (opts : TransformVerifyOpts)
    (t : Transform) (A B : State) :
  fnReturned A ≠ fnReturned B ∨ (fnReturned A = false ∧ fnReturned B = false) →
  verify_states solve opts t A B =
    '(s, errs) ← (if check_each_var opts
                  then check_each solve (src t) (tgt t) A B [] []
                  else Some ([], []));
    Some (s, errs ++
             (if fnReturned A then ["Source returns but target doesn't"]
              else if fnReturned B then ["Target returns but source doesn't"]
              else [])).
Proof.
  intros H. unfold verify_states.
  destruct (if check_each_var opts then _ else _) as [[s errs]|]; [|done].
  simpl. f_equal. unfold check_return, Errors_add.
  destruct (fnReturned A), (fnReturned B); simpl; try done.
  - by destruct H as [?|[? ?]].
  - by rewrite app_nil_r.
Qed.

(** The instance at a source that returns and a target that does not. *)
Lemma verify_return_mismatch_witness :
  verify_states eval_oracle (mkOpts false) (mkTransform empty_fn empty_fn)
    ret_x_state unreachable_state
  = Some ([], ["Source returns but target doesn't"]).
Proof.
  apply (verify_return_mismatch eval_oracle (mkOpts false)
           (mkTransform empty_fn empty_fn) ret_x_state unreachable_state).
  left. simpl. discriminate.
Defined.


(** What one iteration of the per-value loop compares. *)
Lemma check_var_compared (solve : Oracle) (src : Function)
    (tv : gmap string ValuePtr) (B : State) (s : Solver) (errs : Errors)
    (var : ValuePtr) (val : ValTy) (r : Solver * Errors) :
  check_var solve src tv B (Some (s, errs)) (var, val) = Some r →
  r = (s, errs) ∨
  ∃ name p tval,
    getName src var = Some name ∧ not_percent name = false ∧
    is_Instr var = true ∧ tv !! name = Some p ∧
    getValues B !! p = Some tval ∧
    r = check_refinement solve s errs (getQuantVars B)
          (mkBool true) val (mkBool true) tval.
Proof.
  unfold check_var. simpl.
  destruct (getName src var) as [name|]; [|done]. simpl.
  destruct (not_percent name) eqn:Hn; simpl.
  { intros [= <-]. by left. }
  destruct (is_Instr var) eqn:Hi; simpl.
  2: { intros [= <-]. by left. }
  destruct (tv !! name) as [p|] eqn:Hp; [|done]. simpl.
  destruct (getValues B !! p) as [tval|] eqn:Ht; [|done]. simpl.
  intros [= <-]. right. by exists name, p, tval.
Qed.

(** The queries one call adds to the log. *)
Lemma check_refinement_queries (solve : Oracle) (s : Solver) (errs : Errors)
    (gq : gset (string * N)) (dom_a : expr) (ap : ValTy) (dom_b : expr)
    (bp : ValTy) :
  (check_refinement solve s errs gq dom_a ap dom_b bp).1 =
    s ++ refinement_queries (gq ∪ ap.2) dom_a ap.1 dom_b bp.1.
Proof. by rewrite check_refinement_fst. Qed.

Lemma refinement_queries_quantified (qvars : gset (string * N))
    (dom_a : expr) (a : StateValue) (dom_b : expr) (b : StateValue) (q : expr) :
  q ∈ refinement_queries qvars dom_a a dom_b b → quantified q = qvars.
Proof.
  unfold refinement_queries. intros H.
  repeat (apply elem_of_cons in H as [->|H]; [done|]).
  by apply elem_of_nil in H.
Qed.

(** An iteration that meets the conditions of the loop body compares. *)
Lemma check_var_hit (solve : Oracle) (src : Function)
    (tv : gmap string ValuePtr) (B : State) (s : Solver) (errs : Errors)
    (var : ValuePtr) (val : ValTy) (name : string) (p : ValuePtr)
    (tval : ValTy) :
  getName src var = Some name → not_percent name = false →
  is_Instr var = true → tv !! name = Some p →
  getValues B !! p = Some tval →
  check_var solve src tv B (Some (s, errs)) (var, val) =
    Some (check_refinement solve s errs (getQuantVars B)
            (mkBool true) val (mkBool true) tval).
Proof.
  intros Hname Hpc Hins Hp Ht. unfold check_var. simpl.
  rewrite Hname. simpl. rewrite Hpc, Hins. simpl.
  rewrite Hp. simpl. by rewrite Ht.
Qed.

(** The loop never removes a query from the log. *)
Lemma check_each_keeps (solve : Oracle) (src : Function)
    (tv : gmap string ValuePtr) (B : State)
    (l : list (ValuePtr * ValTy)) (a r : Solver * Errors) (q : expr) :
  foldl (check_var solve src tv B) (Some a) l = Some r →
  q ∈ a.1 → q ∈ r.1.
Proof.
  intros Hr Ha.
  apply (check_each_ind (λ x, q ∈ x.1) _ _ _ _ _ _ _ Hr Ha).
  intros [s0 e0] [var val] x' _ Hx Hstep.
  apply check_var_compared in Hstep as [->|(? & ? & ? & _ & _ & _ & _ & _ & ->)];
    [done|].
  rewrite check_refinement_queries. apply elem_of_app. by left.
Qed.

(** Every valuation that meets the conditions of the loop body has its
    three queries in the log the loop leaves. *)
Lemma check_each_complete (solve : Oracle) (src : Function)
    (tv : gmap string ValuePtr) (B : State)
    (l : list (ValuePtr * ValTy)) (a r : Solver * Errors)
    (var : ValuePtr) (val : ValTy) (name : string) (p : ValuePtr)
    (tval : ValTy) (q : expr) :
  foldl (check_var solve src tv B) (Some a) l = Some r →
  (var, val) ∈ l →
  getName src var = Some name → not_percent name = false →
  is_Instr var = true → tv !! name = Some p →
  getValues B !! p = Some tval →
  q ∈ refinement_queries (getQuantVars B ∪ val.2)
        (mkBool true) val.1 (mkBool true) tval.1 →
  q ∈ r.1.
Proof.
  intros Hr Hin Hname Hpc Hins Hp Ht Hq. revert a Hr.
  induction l as [|e l IH]; intros a Hr; [by apply elem_of_nil in Hin|].
  cbn [foldl] in Hr.
  destruct (check_var solve src tv B (Some a) e) as [a'|] eqn:He;
    [|by rewrite foldl_check_var_None in Hr].
  apply elem_of_cons in Hin as [<-|Hin].
  - apply (check_each_keeps _ _ _ _ _ _ _ _ Hr).
    destruct a as [s0 e0].
    rewrite (check_var_hit _ _ _ _ _ _ _ _ _ _ _ Hname Hpc Hins Hp Ht) in He.
    injection He as <-. rewrite check_refinement_queries.
    apply elem_of_app. by right.
  - by apply (IH Hin a').
Qed.

(** The log after the comparison of the two returns. *)
Lemma check_return_log (solve : Oracle) (A B : State) (s : Solver)
    (errs : Errors) :
  (check_return solve A B s errs).1 =
    s ++ (if fnReturned A && fnReturned B
          then refinement_queries (getQuantVars B ∪ (returnVal A).2)
                 (returnDomain A) (returnVal A).1
                 (returnDomain B) (returnVal B).1
          else []).
Proof.
  unfold check_return.
  destruct (fnReturned A), (fnReturned B); cbn [negb Bool.eqb andb];
    rewrite ?check_refinement_queries; cbn [fst]; by rewrite ?app_nil_r.
Qed.

(** C2, as stated, fails: the source state has introduced a fresh symbol
    that the target state does not have and that the returned value does not
    use; none of the three queries quantifies it. *)
Lemma verify_quantified_not_union :
  ∃ s errs,
    verify_states eval_oracle (mkOpts false) (mkTransform empty_fn empty_fn)
      unused_undef_state ret_x_state = Some (s, errs) ∧
    length s = 3%nat ∧
    Forall (λ q, quantified q ≠
                   getQuantVars unused_undef_state ∪ getQuantVars ret_x_state
                   ∪ (returnVal unused_undef_state).2 ∪ (returnVal ret_x_state).2)
      s.
Proof.
  do 2 eexists. split; [reflexivity|]. split; [reflexivity|].
  repeat constructor; simpl; intros Heq;
    assert (Hin : ("undef_1", 8%N) ∈ (∅ ∪ ∅ : gset (string * N)))
      by (rewrite Heq; do 3 apply elem_of_union_l; by apply elem_of_singleton);
    apply elem_of_union in Hin as [Hin|Hin]; by apply not_elem_of_empty in Hin.
Qed.

(** C2 (amended). The queries the driver dispatches are exactly those of
    the comparisons it makes (the two returned values, or, in the per-value
    mode, the valuation of a source instruction against the valuation of
    the target instruction of the same name): every query of the log is
    one of the three queries of such a comparison, and it quantifies the
    union of the target state's [quant_vars] and the per-value quantifiers
    of the source value of that very comparison (neither the source
    state's [quant_vars] nor the per-value quantifiers of the target value
    are added); conversely the three queries of every such comparison are
    in the log. *)
Theorem verify_quantified (solve : Oracle) (opts : TransformVerifyOpts)
    (t : Transform) (A B : State) (s : Solver) (errs : Errors) :
  verify_states solve opts t A B = Some (s, errs) →
  (∀ q, q ∈ s →
     ∃ dom_a ap dom_b bp,
       compared opts t A B dom_a ap dom_b bp ∧
       q ∈ refinement_queries (getQuantVars B ∪ ap.2) dom_a ap.1 dom_b bp.1 ∧
       quantified q = getQuantVars B ∪ ap.2) ∧
  (∀ dom_a ap dom_b bp,
     compared opts t A B dom_a ap dom_b bp →
     ∀ q, q ∈ refinement_queries (getQuantVars B ∪ ap.2)
                dom_a ap.1 dom_b bp.1 →
          q ∈ s ∧ quantified q = getQuantVars B ∪ ap.2).
Proof.
  unfold verify_states. intros H.
  destruct (if check_each_var opts then _ else _) as [[s0 e0]|] eqn:Hloop;
    [|done].
  simpl in H. injection H as H.
  assert (Hs : s = (check_return solve A B s0 e0).1) by by rewrite H.
  rewrite check_return_log in Hs. clear H. split.
  - set (I := λ x : Solver * Errors, ∀ q, q ∈ x.1 →
           ∃ dom_a ap dom_b bp,
             compared opts t A B dom_a ap dom_b bp ∧
             q ∈ refinement_queries (getQuantVars B ∪ ap.2)
                   dom_a ap.1 dom_b bp.1 ∧
             quantified q = getQuantVars B ∪ ap.2).
    assert (Hpre : I (s0, e0)).
    { destruct (check_each_var opts) eqn:Hopt.
      - unfold check_each in Hloop.
        apply (check_each_ind I _ _ _ _ _ _ _ Hloop).
        + intros q Hq. by apply elem_of_nil in Hq.
        + intros [s1 e1] [var val] x' Hin Hi Hstep.
          apply elem_of_map_to_list in Hin.
          apply check_var_compared in Hstep
            as [->|(name & p & tval & Hname & Hpc & Hins & Hp & Ht & ->)];
            [done|].
          intros q Hq. rewrite check_refinement_queries in Hq.
          apply elem_of_app in Hq as [Hq|Hq]; [by apply Hi|].
          exists (mkBool true), val, (mkBool true), tval.
          split; [by eapply compared_value|].
          split; [done|]. by eapply refinement_queries_quantified.
      - injection Hloop as <- <-. intros q Hq. by apply elem_of_nil in Hq. }
    intros q Hq. rewrite Hs in Hq.
    apply elem_of_app in Hq as [Hq|Hq]; [by apply Hpre|].
    destruct (fnReturned A) eqn:HA, (fnReturned B) eqn:HB; simpl in Hq;
      try by apply elem_of_nil in Hq.
    exists (returnDomain A), (returnVal A), (returnDomain B), (returnVal B).
    split; [by apply compared_return|].
    split; [done|]. by eapply refinement_queries_quantified.
  - intros dom_a ap dom_b bp Hc q Hq.
    split; [|by eapply refinement_queries_quantified].
    rewrite Hs. apply elem_of_app.
    destruct Hc as [var val name tv tval Hopt Hval Hname Hpc Hins Hp Ht|HA HB].
    + left. rewrite Hopt in Hloop. unfold check_each in Hloop.
      apply (check_each_complete _ _ _ _ _ _ _ var val name tv tval q Hloop);
        try done.
      by apply elem_of_map_to_list.
    + right. by rewrite HA, HB.
Qed.

(** The instance in the per-value mode at the value-mismatch query for
    [%r]: the source valuation of [%r] carries [undef_0], the target state
    has introduced [undef_1], and the query quantifies both. *)
Lemma verify_quantified_witness :
  ∃ dom_a ap dom_b bp,
    compared (mkOpts true) (mkTransform fn_undef fn_undef)
      r_undef_state (fn_undef_state 1) dom_a ap dom_b bp ∧
    mkForAll ({[ ("undef_1", 8%N) ]} ∪ {[ ("undef_0", 8%N) ]})
      ((mkBool true && mkBool true) &&
       (add (mkVar "undef_0" 8) (mkVar "%x" 8)
        != add (mkVar "undef_1" 8) (mkVar "%x" 8)))
      ∈ refinement_queries (getQuantVars (fn_undef_state 1) ∪ ap.2)
          dom_a ap.1 dom_b bp.1 ∧
    quantified
      (mkForAll ({[ ("undef_1", 8%N) ]} ∪ {[ ("undef_0", 8%N) ]})
         ((mkBool true && mkBool true) &&
          (add (mkVar "undef_0" 8) (mkVar "%x" 8)
           != add (mkVar "undef_1" 8) (mkVar "%x" 8))))
      = getQuantVars (fn_undef_state 1) ∪ ap.2.
Proof.
  refine (proj1 (verify_quantified eval_oracle (mkOpts true)
            (mkTransform fn_undef fn_undef) r_undef_state (fn_undef_state 1)
            _ _ _) _ _).
  - vm_compute. reflexivity.
  - do 2 apply list_elem_of_further. apply list_elem_of_here.
Defined.

End verify_facts.

(** ** Reflexivity of refinement *)

Section reflexivity.
Import smt IR values tools samples.

(** None of the three queries has a model when both sides are the same. *)
Lemma same_domain_unsat (m : Model) (d : expr) :
  eval m (d && Not d)%E ≠ Some (VBool true).
Proof. simpl. by destruct (eval m d) as [[[]|]|]. Qed.

Lemma same_poison_unsat (m : Model) (d np : expr) :
  eval m (d && (np && Not np))%E ≠ Some (VBool true).
Proof.
  simpl. by destruct (eval m d) as [[[]|]|], (eval m np) as [[[]|]|].
Qed.

Lemma val_eq_refl (x : option val) :
  val_eq x x = None ∨ val_eq x x = Some (VBool true).
Proof.
  destruct x as [[[]|w z]|]; simpl; auto.
  rewrite N.eqb_refl, Z.eqb_refl. auto.
Qed.

Lemma same_value_unsat (m : Model) (d np v : expr) :
  eval m ((d && np) && Not (v == v))%E ≠ Some (VBool true).
Proof.
  simpl. destruct (val_eq_refl (eval m v)) as [->| ->];
    by destruct (eval m d) as [[[]|]|], (eval m np) as [[[]|]|].
Qed.

Lemma fired_unsat (solve : Oracle) (n : nat) (q : expr) (msg : string) :
  sound solve →
  (∀ m, ¬ sat m q) →
  fired solve n q msg = [].
Proof.
  intros Hsound Hq. unfold fired.
  destruct (solve n q) as [|m| |] eqn:Hs; try done.
  exfalso. apply Hsound in Hs. by apply (Hq m).
Qed.

(** *** Renaming of fresh symbols *)

Lemma eval_names_ext (m m' : Model) (e : expr) :
  (∀ x, x ∈ names e → mval m' x = mval m x) → eval m' e = eval m e.
Proof.
  induction e; simpl; intros H; try done;
    try (rewrite IHe by done; done);
    try (rewrite IHe1, IHe2; [done| |];
         intros x Hx; apply H, elem_of_union; auto).
  rewrite H; [done|]. by apply elem_of_singleton.
Qed.

Lemma eval_rename (m m' : Model) (ρ : string → string) (e : expr) :
  (∀ x, x ∈ names e → mval m' (ρ x) = mval m x) →
  eval m' (rename ρ e) = eval m e.
Proof.
  induction e; simpl; intros H; try done;
    try (rewrite IHe by done; done);
    try (rewrite IHe1, IHe2; [done| |];
         intros x Hx; apply H, elem_of_union; auto).
  rewrite H; [done|]. by apply elem_of_singleton.
Qed.

Lemma agree_outside_mono (vars vars' : gset (string * N)) (m m' : Model) :
  vars ⊆ vars' → agree_outside vars m m' → agree_outside vars' m m'.
Proof.
  intros Hsub H x Hx. apply H. intros w Hw. apply (Hx w). by apply Hsub.
Qed.

(** A model of the source side extends to the renamed symbols: they are
    quantified, so they may take the values of the symbols they stand for. *)
Lemma renamed_model (A : State) (ρ : string → string) (m : Model) :
  renames_fresh A ρ →
  ∃ m', agree_outside (getQuantVars (rename_state ρ A)) m m' ∧
        (∀ x, x ∈ state_names A →
              mval m' x = mval m x ∧ mval m' (ρ x) = mval m x).
Proof.
  intros [Hreg Hnew Hinj].
  set (S := filter (λ x, ρ x ≠ x) (elements (state_names A))).
  set (l := (λ x, (ρ x, mval m x)) <$> S).
  assert (HS : ∀ x, x ∈ S ↔ ρ x ≠ x ∧ x ∈ state_names A).
  { intros x. unfold S. rewrite list_elem_of_filter, elem_of_elements. done. }
  assert (Hkeys : ∀ y, y ∈ l.*1 ↔ ∃ x, y = ρ x ∧ x ∈ S).
  { intros y. unfold l. rewrite <- list_fmap_compose.
    apply list_elem_of_fmap. }
  assert (Hnd : NoDup l.*1).
  { unfold l. rewrite <- list_fmap_compose.
    apply NoDup_fmap_2_strong.
    - intros x y Hx Hy Heq. simpl in Heq.
      apply HS in Hx as [_ Hx]. apply HS in Hy as [_ Hy]. by apply Hinj.
    - apply NoDup_filter, NoDup_elements. }
  assert (P1 : ∀ y, (∀ x, x ∈ S → y ≠ ρ x) → mval (list_to_map l ∪ m) y = mval m y).
  { intros y Hy. unfold mval. rewrite lookup_union_r; [done|].
    apply not_elem_of_list_to_map_1. rewrite Hkeys.
    intros (x & -> & Hx). by apply (Hy x). }
  assert (P2 : ∀ x, x ∈ S → mval (list_to_map l ∪ m) (ρ x) = mval m x).
  { intros x Hx. unfold mval.
    erewrite lookup_union_Some_l; [done|].
    apply elem_of_list_to_map_1; [done|].
    unfold l. apply list_elem_of_fmap. by exists x. }
  assert (P3 : ∀ x, x ∈ state_names A → mval (list_to_map l ∪ m) x = mval m x).
  { intros x Hx. apply P1. intros z Hz ->. apply HS in Hz as [Hz _].
    by apply (Hnew z). }
  exists (list_to_map l ∪ m). split.
  - intros y Hy. apply P1. intros x Hx ->. apply HS in Hx as [Hx _].
    destruct (Hreg x Hx) as [w Hw]. apply (Hy w). simpl.
    apply elem_of_map. by exists (x, w).
  - intros x Hx. split; [by apply P3|].
    destruct (decide (ρ x = x)) as [->|Hne]; [by apply P3|].
    apply P2, HS. done.
Qed.

Lemma names_returnDomain (A : State) : names (returnDomain A) ⊆ state_names A.
Proof.
  unfold state_names. intros x Hx. by apply elem_of_union_l, elem_of_union_l.
Qed.

Lemma names_returnVal (A : State) : val_names (returnVal A) ⊆ state_names A.
Proof.
  unfold state_names. intros x Hx. by apply elem_of_union_l, elem_of_union_r.
Qed.

Lemma names_getValues (A : State) (p : ValuePtr) (v : ValTy) :
  getValues A !! p = Some v → val_names v ⊆ state_names A.
Proof.
  intros H. unfold state_names. intros x Hx.
  apply elem_of_union_r, elem_of_union_list. exists (val_names v).
  split; [|done]. apply list_elem_of_fmap. exists v. split; [done|].
  apply list_elem_of_fmap. exists (p, v). split; [done|].
  by apply elem_of_map_to_list.
Qed.

Lemma mimics_eval (A : State) (ρ : string → string) (m m' : Model) (e : expr) :
  mimics A ρ m m' →
  names e ⊆ state_names A →
  eval m' e = eval m e ∧ eval m' (rename ρ e) = eval m e.
Proof.
  intros H He. split; [apply eval_names_ext|apply eval_rename];
    intros x Hx; apply H; by apply He.
Qed.

Lemma renamed_unsat (A : State) (ρ : string → string)
    (vars : gset (string * N)) (b : expr) (m : Model) :
  renames_fresh A ρ →
  getQuantVars (rename_state ρ A) ⊆ vars →
  (∀ vars' b', b ≠ mkForAll vars' b') →
  (∀ m', mimics A ρ m m' → eval m' b ≠ Some (VBool true)) →
  ¬ sat m (mkForAll vars b).
Proof.
  intros Hren Hsub Hq Hb Hsat.
  destruct (renamed_model A ρ m Hren) as (m' & Hag & Hm').
  apply (Hb m' Hm'). apply sat_eval; [done|]. apply Hsat.
  by eapply agree_outside_mono.
Qed.

(** Comparing a valuation of the first execution with its counterpart in
    the second adds no error. *)
Lemma check_refinement_renamed (solve : Oracle) (s : Solver) (errs : Errors)
    (A : State) (ρ : string → string) (d : expr) (v : ValTy) :
  sound solve →
  renames_fresh A ρ →
  names d ⊆ state_names A →
  val_names v ⊆ state_names A →
  (check_refinement solve s errs (getQuantVars (rename_state ρ A))
     d v (rename ρ d) (rename_val ρ v)).2 = errs.
Proof.
  intros Hsound Hren Hd Hv. rewrite check_refinement_snd.
  cbn [snd fst rename_val value non_poison].
  assert (Hval : names (value v.1) ⊆ state_names A).
  { intros x Hx. apply Hv. by apply elem_of_union_l. }
  assert (Hnp : names (non_poison v.1) ⊆ state_names A).
  { intros x Hx. apply Hv. by apply elem_of_union_r. }
  assert (Hsub : getQuantVars (rename_state ρ A)
                 ⊆ getQuantVars (rename_state ρ A) ∪ v.2).
  { intros x Hx. by apply elem_of_union_l. }
  rewrite (fired_unsat solve (length s)), (fired_unsat solve (length s + 1)),
    (fired_unsat solve (length s + 2)); try done.
  - by rewrite !app_nil_r.
  - intros m. apply (renamed_unsat A ρ); [done|done|done|].
    intros m' H.
    destruct (mimics_eval A ρ m m' d H Hd) as [E1 _].
    destruct (mimics_eval A ρ m m' _ H Hval) as [E2 E3].
    destruct (mimics_eval A ρ m m' _ H Hnp) as [E4 _].
    pose proof (same_value_unsat m d (non_poison v.1) (value v.1)) as Hc.
    cbn [eval] in *. by rewrite E1, E2, E3, E4.
  - intros m. apply (renamed_unsat A ρ); [done|done|done|].
    intros m' H.
    destruct (mimics_eval A ρ m m' d H Hd) as [E1 _].
    destruct (mimics_eval A ρ m m' _ H Hnp) as [E4 E5].
    pose proof (same_poison_unsat m d (non_poison v.1)) as Hc.
    cbn [eval] in *. by rewrite E1, E4, E5.
  - intros m. apply (renamed_unsat A ρ); [done|done|done|].
    intros m' H.
    destruct (mimics_eval A ρ m m' d H Hd) as [E1 E2].
    pose proof (same_domain_unsat m d) as Hc.
    cbn [eval] in *. by rewrite E1, E2.
Qed.

(** [emplace] never replaces a binding. *)
Lemma tgt_vals_fold_keep (l : list (ValuePtr * Instr))
    (m : gmap string ValuePtr) (name : string) (p : ValuePtr) :
  m !! name = Some p →
  foldl (λ tgt_vals '(p, i),
           match tgt_vals !! Instr_getName i with
           | Some _ => tgt_vals
           | None => <[Instr_getName i := p]> tgt_vals
           end) m l !! name = Some p.
Proof.
  revert m. induction l as [|[q i] l IH]; intros m Hm; [done|].
  cbn [foldl]. apply IH.
  destruct (m !! Instr_getName i) eqn:Hi; [done|].
  rewrite lookup_insert_ne; [done|]. intros <-. congruence.
Qed.

Lemma tgt_vals_fold_first (l : list (ValuePtr * Instr))
    (m : gmap string ValuePtr) (p : ValuePtr) (i : Instr) :
  NoDup (filter (λ name, not_percent name = false)
           (map (λ pi, Instr_getName pi.2) l)) →
  (p, i) ∈ l →
  not_percent (Instr_getName i) = false →
  m !! Instr_getName i = None →
  foldl (λ tgt_vals '(p, i),
           match tgt_vals !! Instr_getName i with
           | Some _ => tgt_vals
           | None => <[Instr_getName i := p]> tgt_vals
           end) m l !! Instr_getName i = Some p.
Proof.
  revert m. induction l as [|[q j] l IH]; intros m Hnd Hin Hpc Hm.
  - by apply elem_of_nil in Hin.
  - cbn [foldl]. apply elem_of_cons in Hin as [[= <- <-]|Hin].
    + rewrite Hm. apply tgt_vals_fold_keep. by rewrite lookup_insert_eq.
    + assert (Hin' : Instr_getName i
                     ∈ filter (λ name, not_percent name = false)
                         (map (λ pi, Instr_getName pi.2) l)).
      { apply list_elem_of_filter. split; [done|].
        apply list_elem_of_fmap. by exists (p, i). }
      simpl in Hnd. destruct (decide (Instr_getName j = Instr_getName i)) as [Heq|Hne].
      * exfalso. rewrite filter_cons_True in Hnd by (simpl; by rewrite Heq).
        apply NoDup_cons in Hnd as [Hq _]. apply Hq. simpl. by rewrite Heq.
      * apply IH; [|done|done|].
        -- rewrite filter_cons in Hnd. case_decide; [|done].
           by apply NoDup_cons in Hnd as [_ Hnd].
        -- destruct (m !! Instr_getName j); [done|]. by rewrite lookup_insert_ne.
Qed.

Lemma Function_instrs_lookup (f : Function) (bb k : nat) (name : string) :
  getName f (InstrPtr bb k) = Some name →
  ∃ i, (InstrPtr bb k, i) ∈ Function_instrs f ∧ Instr_getName i = name.
Proof.
  simpl. intros H.
  destruct (BBs f !! bb) as [b|] eqn:Hb; [|done]. simpl in H.
  destruct (bb_instrs b !! k) as [i|] eqn:Hi; [|done]. injection H as <-.
  exists i. split; [|done]. unfold Function_instrs.
  apply list_elem_of_In, in_concat.
  exists (imap (λ k i, (InstrPtr bb k, i)) (bb_instrs b)). split.
  - apply list_elem_of_In, elem_of_lookup_imap. by exists bb, b.
  - apply list_elem_of_In, elem_of_lookup_imap. by exists k, i.
Qed.

(** With distinct names, the table of target values sends the [%]-name of
    an instruction to that instruction. *)
Lemma tgt_vals_of_instr (f : Function) (p : ValuePtr) (name : string) :
  NoDup (percent_names f) →
  is_Instr p = true →
  not_percent name = false →
  getName f p = Some name →
  tgt_vals_of f !! name = Some p.
Proof.
  intros Hnd Hp Hpc Hname. destruct p as [| | |bb k]; try done.
  apply Function_instrs_lookup in Hname as (i & Hin & <-).
  by apply tgt_vals_fold_first.
Qed.

Lemma check_each_total (I : Solver * Errors → Prop) (solve : Oracle)
    (src : Function) (tv : gmap string ValuePtr) (B : State)
    (l : list (ValuePtr * ValTy)) (a : Solver * Errors) :
  I a →
  (∀ x e, e ∈ l → I x →
     ∃ x', check_var solve src tv B (Some x) e = Some x' ∧ I x') →
  ∃ r, foldl (check_var solve src tv B) (Some a) l = Some r ∧ I r.
Proof.
  revert a. induction l as [|e l IH]; intros a Ha Hstep; cbn [foldl].
  - by exists a.
  - destruct (Hstep a e) as (a' & -> & Ha'); [by left|done|].
    apply IH; [done|]. intros x e' Hin. apply Hstep. by right.
Qed.

(** C3. For a sound engine and a well-formed function [f], verifying the
    transform whose source and target are both [f] runs to completion and
    returns no error, in either mode. *)
Theorem verify_reflexive (solve : Oracle) (sym_exec : SymExec)
    (opts : TransformVerifyOpts) (f : Function) :
  sound solve →
  well_formed sym_exec f →
  ∃ s, verify solve sym_exec opts (mkTransform f f) = Some (s, []).
Proof.
  intros Hsound [Hnames Hvalues (ρ & Hren & Hexec)].
  unfold verify, sym_exec_both. simpl.
  destruct (sym_exec f 0%nat) as [A id1] eqn:HA. simpl in Hexec, Hvalues, Hren.
  destruct (sym_exec f id1) as [B id2]. simpl in Hexec. subst B.
  unfold verify_states. simpl.
  assert (Hpre : ∃ s,
    (if check_each_var opts
     then check_each solve f f A (rename_state ρ A) [] []
     else Some ([], [])) = Some (s, [])).
  { destruct (check_each_var opts); [|by exists []].
    unfold check_each.
    destruct (check_each_total (λ x, x.2 = []) solve f (tgt_vals_of f)
                (rename_state ρ A)
                (map_to_list (getValues A)) ([], [])) as ([s e] & Hr & He);
      [done| |simpl in He; subst e; by exists s].
    intros [s e] [var val] Hin He. simpl in He. subst e.
    apply elem_of_map_to_list in Hin.
    unfold check_var. simpl.
    destruct (Hvalues var) as [name Hname]; [by rewrite Hin|].
    rewrite Hname. simpl.
    destruct (not_percent name) eqn:Hpc; simpl; [by eexists|].
    destruct (is_Instr var) eqn:Hi; simpl; [|by eexists].
    rewrite (tgt_vals_of_instr f var name) by done. simpl.
    rewrite lookup_fmap, Hin. simpl. eexists. split; [done|].
    apply (check_refinement_renamed solve s [] A ρ (mkBool true) val);
      [done|done| |by eapply names_getValues].
    intros x Hx. by apply not_elem_of_empty in Hx. }
  destruct Hpre as [s ->]. simpl.
  unfold check_return. simpl. rewrite eqb_reflx. simpl.
  destruct (fnReturned A).
  - eexists. f_equal. apply injective_projections; [done|].
    apply check_refinement_renamed;
      [done|done|apply names_returnDomain|apply names_returnVal].
  - by exists s.
Qed.

(** *** A sound engine and a well-formed function *)

Lemma eval_ext (m m' : Model) (e : expr) :
  (∀ x, mval m' x = mval m x) → eval m' e = eval m e.
Proof.
  intros H. induction e; simpl; rewrite ?H; congruence.
Qed.

Lemma eval_oracle_sound : sound eval_oracle.
Proof.
  intros n q m. unfold eval_oracle.
  destruct q as [| | | | | | | | | | | | | | |vars b]; try done.
  case_decide as Hv; [|done]. subst vars.
  destruct (eval ∅ b) as [[[]|]|] eqn:Hb; try done.
  intros [= <-]. simpl. intros m' Hm'.
  assert (Hext : eval m' b = Some (VBool true)).
  { rewrite <- Hb. apply eval_ext. intros x. apply Hm'.
    intros w. apply not_elem_of_empty. }
  apply sat_eval; [|done]. intros vars b' ->. by simpl in Hext.
Qed.

Lemma undef_0_to_1_fresh : renames_fresh (fn_undef_state 0) undef_0_to_1.
Proof.
  assert (Hn : state_names (fn_undef_state 0) = {[ "undef_0"; "%x" ]}).
  { apply (bool_decide_unpack _). by vm_compute. }
  split.
  - intros x Hx. exists 8%N. unfold undef_0_to_1 in Hx.
    case_decide as Hd; [|done]. subst x. simpl. by apply elem_of_singleton.
  - intros x Hx. unfold undef_0_to_1 in *. case_decide as Hd; [|done].
    rewrite Hn. intros Hin.
    apply elem_of_union in Hin as [Hin|Hin]; apply elem_of_singleton in Hin;
      discriminate.
  - intros x y. rewrite Hn. intros Hx Hy.
    apply elem_of_union in Hx as [Hx|Hx]; apply elem_of_singleton in Hx;
      apply elem_of_union in Hy as [Hy|Hy]; apply elem_of_singleton in Hy;
      subst; by vm_compute.
Qed.

Lemma fn_undef_well_formed : well_formed fn_undef_exec fn_undef.
Proof.
  split.
  - apply (bool_decide_unpack _). by vm_compute.
  - intros p Hp. simpl in Hp.
    destruct (decide (p = UndefPtr 0)) as [->|Hne]; [by eexists|].
    destruct (decide (p = InstrPtr 0 0)) as [->|Hne']; [by eexists|].
    rewrite lookup_insert_ne, lookup_singleton_ne in Hp by done.
    by destruct Hp.
  - exists undef_0_to_1. split; [apply undef_0_to_1_fresh|].
    by vm_compute.
Qed.

(** The instance at [%r = add i8 undef, %x; ret i8 %r], in the per-value
    mode: the two executions number the fresh symbol differently. *)
Lemma verify_reflexive_witness :
  ∃ s, verify eval_oracle fn_undef_exec (mkOpts true)
         (mkTransform fn_undef fn_undef)
       = Some (s, []).
Proof.
  apply (verify_reflexive eval_oracle fn_undef_exec (mkOpts true) fn_undef).
  - exact eval_oracle_sound.
  - exact fn_undef_well_formed.
Defined.

End reflexivity.

(** ** The parser *)

Section parser_facts.
Import smt IR values parser.

Variable token_name : token → string.
Variable IntType_new : Z → type.
Variable SymbolicType_new : type.
Variable IntConst_name : Z → string.
Variable Return_name : string.
Variable Unreachable_name : string.

#[local] Abbreviation parse_operand := (parse_operand token_name IntConst_name).
#[local] Abbreviation step := (step token_name IntConst_name).
#[local] Abbreviation later := (later token_name IntConst_name).

Lemma bind_OK {A B : Type} (m : M A) (f : A → M B) (st : PState) (y : B)
    (st' : PState) :
  (m ≫= f) st = OK y st' → ∃ x st1, m st = OK x st1 ∧ f x st1 = OK y st'.
Proof.
  unfold mbind, M_bind. destruct (m st) as [x st1| | |]; try done.
  intros H. by exists x, st1.
Qed.

Lemma keeps_refl (st : PState) : keeps st st.
Proof. by split. Qed.

Lemma keeps_trans (st1 st2 st3 : PState) :
  keeps st1 st2 → keeps st2 st3 → keeps st1 st3.
Proof. intros [H1 H2] [H3 H4]. split; eauto. Qed.

Lemma keeps_same (st st' : PState) :
  identifiers st' = identifiers st → fn st' = fn st → keeps st st'.
Proof. intros Hi Hf. unfold keeps. rewrite Hi, Hf. by split. Qed.

(** The tokenizer leaves the identifier table and the function alone. *)
Lemma next_token_same (st st' : PState) (t : token) :
  next_token st = OK t st' →
  identifiers st' = identifiers st ∧ fn st' = fn st.
Proof.
  unfold next_token, get_new_token, yylex, mbind, M_bind, gets, modify, mret,
    M_ret. simpl.
  destruct (returned (tokenizer st)); simpl; [by intros [= <- <-]|].
  destruct (lexer st) as [|[e|l] rest]; simpl; [|done|];
    by intros [= <- <-].
Qed.

Lemma peek_same (st st' : PState) (t : token) :
  peek st = OK t st' →
  identifiers st' = identifiers st ∧ fn st' = fn st.
Proof.
  unfold peek, get_new_token, yylex, mbind, M_bind, gets, modify, mret, M_ret.
  simpl.
  destruct (returned (tokenizer st)); simpl; [by intros [= <- <-]|].
  destruct (lexer st) as [|[e|l] rest]; simpl; [|done|];
    by intros [= <- <-].
Qed.

Lemma consumeIf_same (st st' : PState) (e : token) (b : bool) :
  consumeIf e st = OK b st' →
  identifiers st' = identifiers st ∧ fn st' = fn st.
Proof.
  unfold consumeIf. intros H.
  apply bind_OK in H as (t & st1 & Hp & H). apply peek_same in Hp as [Hi Hf].
  case_decide; [|by injection H as <- <-].
  unfold mbind, M_bind, gets, modify, mret, M_ret in H. simpl in H.
  by injection H as <- <-.
Qed.

Lemma unget_same (st st' : PState) (t : token) :
  unget t st = OK tt st' →
  identifiers st' = identifiers st ∧ fn st' = fn st.
Proof.
  unfold unget, mbind, M_bind, gets, modify, abort. simpl.
  destruct (returned (tokenizer st)); [done|]. by intros [= <-].
Qed.

(** An operand either resolves a bound identifier, and changes nothing but
    the tokenizer, or extends the table and the function. *)
Lemma parse_operand_keeps (ty : type) (st st' : PState) (p : ValuePtr) :
  parse_operand ty st = OK p st' → keeps st st'.
Proof.
  unfold parser.parse_operand. intros H.
  apply bind_OK in H as (t & st1 & Ht & H).
  apply next_token_same in Ht as [Hi Hf].
  apply (keeps_trans _ st1); [by apply keeps_same|]. clear Hi Hf.
  destruct t; try done.
  - unfold get_constant, mbind, M_bind, gets, modify, mret, M_ret in H.
    simpl in H. injection H as <- <-. by split.
  - unfold mbind, M_bind, gets, modify, mret, M_ret in H. simpl in H.
    destruct (identifiers st1 !! str (yylval st1)) as [q|] eqn:Hq.
    + injection H as <- <-. apply keeps_refl.
    + injection H as <- <-. split; simpl.
      * intros id q Hid. rewrite lookup_insert_ne; [done|]. congruence.
      * intros k x Hk. by apply lookup_app_l_Some.
Qed.

Lemma emplace_keeps (name : string) (p : ValuePtr) (st st' : PState) :
  emplace name p st = OK tt st' → keeps st st'.
Proof.
  unfold emplace, mbind, M_bind, gets, modify, mret, M_ret. simpl.
  destruct (identifiers st !! name) as [q|] eqn:Hq; intros [= <-].
  - apply keeps_refl.
  - split; simpl; [|done]. intros id q Hid.
    rewrite lookup_insert_ne; [done|]. congruence.
Qed.

Lemma getBB_keeps (name : string) (k : nat) (st st' : PState) :
  getBB name st = OK k st' → keeps st st'.
Proof.
  unfold getBB, mbind, M_bind, gets, modify, mret, M_ret. simpl.
  destruct (list_find _ _) as [[j b]|]; intros [= <- <-]; by split.
Qed.

Lemma addIntr_keeps (bb : nat) (i : Instr) (st st' : PState) :
  addIntr bb i st = OK tt st' → keeps st st'.
Proof.
  unfold addIntr, mbind, M_bind, gets, modify, abort. simpl.
  destruct (BBs (fn st) !! bb); [|done]. intros [= <-]. by split.
Qed.

Lemma step_keeps (st st' : PState) : step st st' → keeps st st'.
Proof.
  intros [t H|t H|e b H|t H|ty p H|name p H|name k H|bb i H].
  - apply next_token_same in H as [? ?]. by apply keeps_same.
  - apply peek_same in H as [? ?]. by apply keeps_same.
  - apply consumeIf_same in H as [? ?]. by apply keeps_same.
  - apply unget_same in H as [? ?]. by apply keeps_same.
  - by eapply parse_operand_keeps.
  - by eapply emplace_keeps.
  - by eapply getBB_keeps.
  - by eapply addIntr_keeps.
Qed.

Lemma later_keeps (st st' : PState) : later st st' → keeps st st'.
Proof.
  induction 1 as [st|st1 st2 st3 Hs _ IH]; [apply keeps_refl|].
  eapply keeps_trans; [by apply step_keeps|done].
Qed.

(** A bound identifier resolves to its binding, and nothing is created. *)
Lemma parse_operand_bound (ty : type) (st st0 : PState) (p : ValuePtr) :
  next_token st = OK IDENTIFIER st0 →
  identifiers st !! str (yylval st0) = Some p →
  parse_operand ty st = OK p st0.
Proof.
  intros Ht Hp. unfold parser.parse_operand.
  unfold mbind at 1. unfold M_bind. rewrite Ht.
  apply next_token_same in Ht as [Hi Hf].
  unfold mbind, M_bind, gets, mret, M_ret. simpl. by rewrite Hi, Hp.
Qed.

(** C8. An operand identifier that is not bound in the identifier table
    becomes a new input of that name and type, added to the inputs of the
    function, and the identifier is bound to it; in every later state of
    the parser within the same function the input is still there and the
    same identifier, used as an operand, resolves to it without creating
    anything. *)
Theorem parse_operand_implicit_input (ty : type) (st st0 : PState) :
  next_token st = OK IDENTIFIER st0 →
  identifiers st !! str (yylval st0) = None →
  let id := str (yylval st0) in
  let p := InputPtr (length (inputs (fn st))) in
  ∃ st1,
    parse_operand ty st = OK p st1 ∧
    inputs (fn st1) = inputs (fn st) ++ [mkInput ty id] ∧
    identifiers st1 = <[id := p]> (identifiers st) ∧
    ∀ st2, later st1 st2 →
      inputs (fn st2) !! length (inputs (fn st)) = Some (mkInput ty id) ∧
      ∀ ty' st3,
        next_token st2 = OK IDENTIFIER st3 →
        str (yylval st3) = id →
        parse_operand ty' st2 = OK p st3 ∧
        fn st3 = fn st2 ∧ identifiers st3 = identifiers st2.
Proof.
  intros Ht Hnone id p.
  pose proof (next_token_same _ _ _ Ht) as [Hi Hf].
  eexists. split_and!.
  - unfold parser.parse_operand. unfold mbind at 1. unfold M_bind.
    rewrite Ht. unfold mbind, M_bind, gets, modify, mret, M_ret. simpl.
    destruct (identifiers st0 !! str (yylval st0)) eqn:E; [congruence|].
    rewrite Hf. reflexivity.
  - done.
  - simpl. by rewrite Hi.
  - intros st2 Hlater. apply later_keeps in Hlater as [Hids Hins].
    split.
    + apply Hins. simpl. rewrite lookup_app_r by done.
      by rewrite Nat.sub_diag.
    + intros ty' st3 Ht3 Hid.
      pose proof (next_token_same _ _ _ Ht3) as [Hi3 Hf3].
      split; [|done]. apply parse_operand_bound; [done|].
      rewrite Hid. apply Hids. simpl. by rewrite lookup_insert_eq.
Qed.


(** *** The routines of a function body are made of these steps *)

#[local] Abbreviation ensure := (ensure token_name).
#[local] Abbreviation parse_type := (parse_type token_name IntType_new SymbolicType_new).
#[local] Abbreviation parse_binop :=
  (parse_binop token_name IntType_new SymbolicType_new IntConst_name).
#[local] Abbreviation parse_instr :=
  (parse_instr token_name IntType_new SymbolicType_new IntConst_name).
#[local] Abbreviation parse_return :=
  (parse_return token_name IntType_new SymbolicType_new IntConst_name Return_name).
#[local] Abbreviation parse_stmt :=
  (parse_stmt token_name IntType_new SymbolicType_new IntConst_name
     Return_name Unreachable_name).
#[local] Abbreviation parse_fn_loop :=
  (parse_fn_loop token_name IntType_new SymbolicType_new IntConst_name
     Return_name Unreachable_name).

Lemma gets_OK {A : Type} (f : PState → A) (st st' : PState) (x : A) :
  gets f st = OK x st' → x = f st ∧ st' = st.
Proof. by intros [= <- <-]. Qed.

Lemma mret_OK {A : Type} (x y : A) (st st' : PState) :
  (mret x : M A) st = OK y st' → y = x ∧ st' = st.
Proof. by intros [= <- <-]. Qed.

Tactic Notation "inv_bind" hyp(H) "as" ident(x) ident(st) ident(H1) :=
  apply bind_OK in H as (x & st & H1 & H).

Tactic Notation "inv_gets" hyp(H) :=
  let x := fresh "x" in
  let st := fresh "st" in
  let H1 := fresh "H" in
  apply bind_OK in H as (x & st & H1 & H);
  apply gets_OK in H1 as [-> ->].

Lemma later_trans (st1 st2 st3 : PState) :
  later st1 st2 → later st2 st3 → later st1 st3.
Proof. apply rtc_trans. Qed.

Lemma later_step (st1 st2 : PState) : step st1 st2 → later st1 st2.
Proof. apply rtc_once. Qed.

Lemma next_token_later (t : token) (st st' : PState) :
  next_token st = OK t st' → later st st'.
Proof. intros H. eapply later_step, step_next_token. done. Qed.

Lemma unget_later (t : token) (st st' : PState) :
  unget t st = OK tt st' → later st st'.
Proof. intros H. eapply later_step, step_unget. done. Qed.

Lemma ensure_later (e : token) (st st' : PState) :
  ensure e st = OK tt st' → later st st'.
Proof.
  unfold parser.ensure. intros H. inv_bind H as t st1 Ht.
  case_decide; [done|]. apply mret_OK in H as [_ ->].
  by eapply next_token_later.
Qed.

Lemma parse_type_later (o : bool) (ty : type) (st st' : PState) :
  parse_type o st = OK ty st' → later st st'.
Proof.
  unfold parser.parse_type. intros H. inv_bind H as t st1 Ht.
  apply next_token_later in Ht. eapply later_trans; [done|].
  assert (Hother : ((if o then unget t;; mret SymbolicType_new
                     else error ("Expecting a type, got: " +:+ token_name t))
                    : M type) st1 = OK ty st' → later st1 st').
  { destruct o; [|done]. intros H'. inv_bind H' as u st2 Hu.
    apply mret_OK in H' as [_ ->]. destruct u. by eapply unget_later. }
  destruct t; try (by apply Hother).
  inv_gets H. apply mret_OK in H as [_ ->]. apply rtc_refl.
Qed.

Lemma parse_operand_later (ty : type) (p : ValuePtr) (st st' : PState) :
  parse_operand ty st = OK p st' → later st st'.
Proof. intros H. eapply later_step, step_operand. done. Qed.

Lemma consumeIf_later (e : token) (b : bool) (st st' : PState) :
  consumeIf e st = OK b st' → later st st'.
Proof. intros H. eapply later_step, step_consumeIf. done. Qed.

Lemma parse_nsw_nuw_loop_later (fuel : nat) (fl fl' : BinOp_Flags)
    (st st' : PState) :
  parse_nsw_nuw_loop fuel fl st = OK fl' st' → later st st'.
Proof.
  revert fl st. induction fuel as [|fuel IH]; intros fl st H; [done|].
  simpl in H. inv_bind H as c st1 Hc. apply consumeIf_later in Hc.
  eapply later_trans; [done|]. destruct c; [by eapply IH|].
  inv_bind H as c st2 Hc2. apply consumeIf_later in Hc2.
  eapply later_trans; [done|]. destruct c; [by eapply IH|].
  apply mret_OK in H as [_ ->]. apply rtc_refl.
Qed.

Lemma parse_exact_later (fl : BinOp_Flags) (st st' : PState) :
  parse_exact st = OK fl st' → later st st'.
Proof.
  unfold parse_exact. intros H. inv_bind H as c st1 Hc.
  apply consumeIf_later in Hc.
  destruct c; apply mret_OK in H as [_ ->]; done.
Qed.

Lemma parse_binop_flags_later (fuel : nat) (t : token) (fl : BinOp_Flags)
    (st st' : PState) :
  parse_binop_flags fuel t st = OK fl st' → later st st'.
Proof.
  destruct t; simpl; try done; try apply parse_exact_later;
    apply parse_nsw_nuw_loop_later.
Qed.

Lemma parse_binop_later (fuel : nat) (name : string) (t : token) (i : Instr)
    (st st' : PState) :
  parse_binop fuel name t st = OK i st' → later st st'.
Proof.
  unfold parser.parse_binop. intros H.
  inv_bind H as fl st1 H1. apply parse_binop_flags_later in H1.
  inv_bind H as ty st2 H2. apply parse_type_later in H2.
  inv_bind H as a st3 H3. apply parse_operand_later in H3.
  inv_bind H as u st4 H4. destruct u. apply ensure_later in H4.
  inv_bind H as b st5 H5. apply parse_operand_later in H5.
  assert (st' = st5) as ->.
  { destruct t; try done; by apply mret_OK in H as [_ ->]. }
  repeat (eapply later_trans; [eassumption|]). apply rtc_refl.
Qed.

Lemma parse_instr_later (fuel : nat) (name : string) (i : Instr)
    (st st' : PState) :
  parse_instr fuel name st = OK i st' → later st st'.
Proof.
  unfold parser.parse_instr. intros H.
  inv_bind H as u st1 H1. destruct u. apply ensure_later in H1.
  inv_bind H as t st2 H2. apply next_token_later in H2.
  eapply later_trans; [done|]. eapply later_trans; [done|].
  destruct t; try done; by eapply parse_binop_later.
Qed.

Lemma parse_return_later (i : Instr) (st st' : PState) :
  parse_return st = OK i st' → later st st'.
Proof.
  unfold parser.parse_return. intros H.
  inv_bind H as ty st1 H1. apply parse_type_later in H1.
  inv_bind H as v st2 H2. apply parse_operand_later in H2.
  apply mret_OK in H as [_ ->]. by eapply later_trans.
Qed.

Lemma addIntr_later (bb : nat) (i : Instr) (st st' : PState) :
  addIntr bb i st = OK tt st' → later st st'.
Proof. intros H. eapply later_step, step_addIntr. done. Qed.

Lemma next_instr_same (bb : nat) (p : ValuePtr) (st st' : PState) :
  next_instr bb st = OK p st' → st' = st.
Proof.
  unfold next_instr. intros H. inv_gets H.
  destruct (BBs (fn st) !! bb); [|done]. by apply mret_OK in H as [_ ->].
Qed.

(** One statement of a function body is a sequence of steps. *)
Lemma parse_stmt_later (fuel bb : nat) (r : option nat) (st st' : PState) :
  parse_stmt fuel bb st = OK r st' → later st st'.
Proof.
  unfold parser.parse_stmt. intros H. inv_bind H as t st1 Ht.
  apply next_token_later in Ht. eapply later_trans; [done|]. clear Ht.
  assert (Hother : (unget t;; mret None : M (option nat)) st1 = OK r st' →
                   later st1 st').
  { intros H'. inv_bind H' as u st2 Hu. apply mret_OK in H' as [_ ->].
    destruct u. by eapply unget_later. }
  destruct t; try (by apply Hother).
  - inv_gets H. inv_bind H as i st2 Hi. apply parse_instr_later in Hi.
    inv_bind H as p st3 Hp. apply next_instr_same in Hp as ->.
    inv_bind H as u st4 He. destruct u.
    inv_bind H as u st5 Ha. destruct u. apply addIntr_later in Ha.
    apply mret_OK in H as [_ ->].
    eapply later_trans; [done|]. eapply later_trans; [|done].
    eapply later_step, step_emplace. done.
  - inv_gets H. inv_bind H as k st2 Hk. apply mret_OK in H as [_ ->].
    eapply later_step, step_getBB. done.
  - inv_bind H as i st2 Hi. apply parse_return_later in Hi.
    inv_bind H as u st3 Ha. destruct u. apply addIntr_later in Ha.
    apply mret_OK in H as [_ ->]. by eapply later_trans.
  - inv_bind H as u st2 Ha. destruct u. apply addIntr_later in Ha.
    by apply mret_OK in H as [_ ->].
Qed.

(** So is the whole loop of [parse_fn]. *)
Lemma parse_fn_loop_later (fuel bb : nat) (st st' : PState) :
  parse_fn_loop fuel bb st = OK tt st' → later st st'.
Proof.
  revert bb st. induction fuel as [|fuel IH]; intros bb st H; [done|].
  cbn [parser.parse_fn_loop] in H. inv_bind H as r st1 Hr.
  apply parse_stmt_later in Hr. eapply later_trans; [done|].
  destruct r as [bb'|].
  - by eapply IH.
  - apply mret_OK in H as [_ ->]. apply rtc_refl.
Qed.

End parser_facts.

Section parser_examples.
Import smt IR values parser parser_samples.

(** Both uses of [%x] in [%r = add i8 %x, %x] are the one implicit input,
    and [%r] in the return is the addition. *)
Example parse_fn_add_x_x :
  ∃ st, parse_fn token_name IntType_new SymbolicType_new IntConst_name
          Return_name Unreachable_name 4 (start add_x_x)
        = OK add_x_x_fn st.
Proof. eexists. vm_compute. reflexivity. Qed.

(** The instance at the first [%x] of that function. *)
Lemma parse_operand_implicit_input_witness :
  ∃ st1,
    parse_operand token_name IntConst_name (IntType_new 8) before_x
      = OK (InputPtr 0) st1 ∧
    inputs (fn st1) = [] ++ [mkInput (IntType_new 8) "%x"] ∧
    identifiers st1 = <["%x" := InputPtr 0]> ∅ ∧
    ∀ st2, later token_name IntConst_name st1 st2 →
      inputs (fn st2) !! 0%nat = Some (mkInput (IntType_new 8) "%x") ∧
      ∀ ty' st3,
        next_token st2 = OK IDENTIFIER st3 →
        str (yylval st3) = "%x" →
        parse_operand token_name IntConst_name ty' st2 = OK (InputPtr 0) st3 ∧
        fn st3 = fn st2 ∧ identifiers st3 = identifiers st2.
Proof.
  apply (parse_operand_implicit_input token_name IntConst_name
           (IntType_new 8) before_x
           (mkPState (drop 5 add_x_x) (mkYylval 0 "%x") 1
              (mkTokenizer END false) ∅ (mkFunction [] [] [] []))).
  - reflexivity.
  - reflexivity.
Defined.

End parser_examples.

(** * Further properties *)

(** ** Types: constraints, categories and fix-up *)

Section type_constraint_facts.
Import smt IR.

(** The value of the constraint of an integer type, from the value of its
    width term. *)
Lemma IntType_getTypeConstraints_eval (t : IntType) (m : Model) (c bw : expr)
    (w : Z) :
  IntType_getTypeConstraints t = Some c →
  IntType_sizeVar t = Some bw →
  eval m bw = Some (VBV var_bw_bits w) →
  eval m c = Some (VBool (negb (w =? 0) && (w <=? 64))).
Proof.
  unfold IntType_getTypeConstraints. intros H Hbw Hw. rewrite Hbw in H.
  simpl in H. injection H as <-. simpl. rewrite Hw. simpl.
  change (wrap var_bw_bits 0) with 0. change (wrap var_bw_bits 64) with 64.
  done.
Qed.

(** The category test of a symbolic type, under a model. *)
Lemma SymbolicType_is_eval (t : SymbolicType) (k : TypeNum) (m : Model)
    (c : expr) :
  SymbolicType_is t k = Some c →
  eval m c =
    Some (VBool (enabled_bit t k &&
                 (wrap 3 (mval m (sym_opname t +:+ "_" +:+ "type")) =? TypeNum_val k))).
Proof.
  unfold SymbolicType_is, Type_is, Type_typeVar. intros H.
  destruct (Type_var _ _ _) as [tv|] eqn:Htv; [|done].
  apply Type_var_inv in Htv as ->. simpl in H. injection H as <-.
  simpl. by destruct k.
Qed.

(** The value of the constraints of a symbolic type: the disjuncts of the
    categories other than the integers are false. *)
Lemma SymbolicType_getTypeConstraints_eval (t : SymbolicType) (m : Model)
    (c : expr) :
  SymbolicType_getTypeConstraints t = Some c →
  sym_opname t ≠ "" ∧
  ∃ bw w,
    IntType_sizeVar (i t) = Some bw ∧
    eval m bw = Some (VBV var_bw_bits w) ∧ 0 ≤ w < 1024 ∧
    eval m c =
      Some (VBool ((enabled_bit t Int &&
                    (wrap 3 (mval m (sym_opname t +:+ "_" +:+ "type")) =? 0)) &&
                   (negb (w =? 0) && (w <=? 64)))).
Proof.
  unfold SymbolicType_getTypeConstraints. intros H.
  destruct (SymbolicType_is t Int) as [isI|] eqn:HI; [|done]. simpl in H.
  destruct (IntType_getTypeConstraints (i t)) as [ci|] eqn:Hci; [|done].
  simpl in H.
  destruct (SymbolicType_is t Float) as [isF|] eqn:HF; [|done]. simpl in H.
  destruct (SymbolicType_is t Ptr) as [isP|] eqn:HP; [|done]. simpl in H.
  destruct (SymbolicType_is t Array) as [isA|] eqn:HA; [|done]. simpl in H.
  destruct (SymbolicType_is t Vector) as [isV|] eqn:HV; [|done]. simpl in H.
  injection H as <-.
  split.
  { intros He. unfold SymbolicType_is, Type_is, Type_typeVar, Type_var in HI.
    by rewrite decide_True in HI. }
  assert (Hbw : is_Some (IntType_sizeVar (i t))).
  { unfold IntType_getTypeConstraints in Hci.
    by destruct (IntType_sizeVar (i t)). }
  destruct Hbw as [bw Hbw].
  destruct (IntType_sizeVar_eval _ _ m Hbw) as (w & Hw & Hr).
  exists bw, w. split; [done|]. split; [done|]. split; [done|].
  simpl.
  rewrite (SymbolicType_is_eval _ _ m _ HI), (SymbolicType_is_eval _ _ m _ HF),
    (SymbolicType_is_eval _ _ m _ HP), (SymbolicType_is_eval _ _ m _ HA),
    (SymbolicType_is_eval _ _ m _ HV).
  rewrite (IntType_getTypeConstraints_eval _ m _ _ _ Hci Hbw Hw). simpl.
  by rewrite !andb_false_r, !orb_false_r.
Qed.

Lemma SymbolicType_getTypeConstraints_not_forall (t : SymbolicType) (c : expr) :
  SymbolicType_getTypeConstraints t = Some c →
  ∀ vars body, c ≠ mkForAll vars body.
Proof.
  unfold SymbolicType_getTypeConstraints. intros H.
  destruct (SymbolicType_is t Int); [|done]. simpl in H.
  destruct (IntType_getTypeConstraints (i t)); [|done]. simpl in H.
  destruct (SymbolicType_is t Float); [|done]. simpl in H.
  destruct (SymbolicType_is t Ptr); [|done]. simpl in H.
  destruct (SymbolicType_is t Array); [|done]. simpl in H.
  destruct (SymbolicType_is t Vector); [|done]. simpl in H.
  by injection H as <-.
Qed.

(** X1. A model satisfies the constraints of a symbolic type exactly when
    the integer category is enabled, the category variable says "integer"
    and the width of the integer variant lies in 1..64: the constraints of
    the four other categories are the literal [false]. *)
Theorem SymbolicType_getTypeConstraints_iff (t : SymbolicType) (m : Model)
    (c : expr) :
  SymbolicType_getTypeConstraints t = Some c →
  ∃ tv bw n w,
    Type_typeVar (sym_opname t) = Some tv ∧
    IntType_sizeVar (i t) = Some bw ∧
    getUInt m tv = Some n ∧
    getUInt m bw = Some w ∧
    (sat m c ↔ enabled_bit t Int = true ∧ n = TypeNum_val Int ∧ 1 ≤ w ≤ 64).
Proof.
  intros H.
  pose proof (SymbolicType_getTypeConstraints_not_forall t c H) as Hq.
  destruct (SymbolicType_getTypeConstraints_eval t m c H)
    as (Hne & bw & w & Hbw & Hw & Hr & Hc).
  eexists _, bw, _, w.
  split; [by apply Type_var_Some|]. split; [done|].
  split; [reflexivity|]. split; [by unfold getUInt; rewrite Hw|].
  rewrite sat_eval by done. rewrite Hc. unfold var_type_bits. simpl.
  set (n := wrap 3 _).
  destruct (enabled_bit t Int); simpl.
  - destruct (Z.eqb_spec n 0), (Z.eqb_spec w 0), (Z.leb_spec w 64); simpl;
      split; try done; try lia; try (intros (_ & ? & ?); lia).
  - split; [done|]. by intros [? _].
Qed.

(** The instance at the type of an operand [%x] that may be anything. *)
Lemma SymbolicType_getTypeConstraints_witness :
  ∃ tv bw n w,
    Type_typeVar "%x" = Some tv ∧
    IntType_sizeVar (i (samples.symbolic "%x")) = Some bw ∧
    getUInt {[ "%x_bw" := 8 ]} tv = Some n ∧
    getUInt {[ "%x_bw" := 8 ]} bw = Some w ∧
    (sat {[ "%x_bw" := 8 ]}
       (default mkInvalid (SymbolicType_getTypeConstraints (samples.symbolic "%x")))
     ↔ enabled_bit (samples.symbolic "%x") Int = true ∧ n = TypeNum_val Int
       ∧ 1 ≤ w ≤ 64).
Proof.
  apply (SymbolicType_getTypeConstraints_iff (samples.symbolic "%x")).
  reflexivity.
Defined.

End type_constraint_facts.

Section enforce_facts.
Import smt IR.

(** X2. [enforceIntType] leaves the integer category as it was and
    disables every other one; [enforceIntOrPtrOrVectorType] leaves the
    integer, pointer and vector categories as they were and disables the
    others.  Neither ever enables a category. *)
Theorem SymbolicType_enforce_enabled (t : SymbolicType) (k : TypeNum) :
  enabled_bit (SymbolicType_enforceIntType t) k
    = enabled_bit t k && bool_decide (k = Int) ∧
  enabled_bit (SymbolicType_enforceIntOrPtrOrVectorType t) k
    = enabled_bit t k && bool_decide (k ∈ [Int; Ptr; Vector]).
Proof.
  unfold enabled_bit, SymbolicType_enforceIntType,
    SymbolicType_enforceIntOrPtrOrVectorType. cbn [enabled].
  rewrite <- !Z.land_assoc.
  split; destruct k; cbn -[Z.land];
    rewrite ?Z.land_0_r, ?andb_true_r, ?andb_false_r; try done;
    change (Z.land 1 1) with 1; change (Z.land 21 1) with 1;
    change (Z.land 21 4) with 4; change (Z.land 21 16) with 16;
    rewrite ?andb_true_r; done.
Qed.

End enforce_facts.

Section fixup_more_facts.
Import smt IR.

Lemma TypeNum_of_val (n : Z) :
  0 ≤ n ≤ 4 → TypeNum_val (TypeNum_of n) = n ∧ TypeNum_of n ≠ Undefined.
Proof.
  intros H.
  assert (n = 0 ∨ n = 1 ∨ n = 2 ∨ n = 3 ∨ n = 4) as [->|[->|[->|[->| ->]]]]
    by lia; done.
Qed.

(** What a run of [SymbolicType::fixup] that passes both assertions has
    read and written. *)
Lemma SymbolicType_fixup_inv (m : Model) (t t' : SymbolicType) :
  SymbolicType_fixup m t = Some t' →
  ∃ n, getUInt m (mkVar (sym_opname t +:+ "_" +:+ "type") var_type_bits) = Some n ∧
       0 ≤ n ≤ 4 ∧
       Z.land (enabled t) (Z.shiftl 1 n) ≠ 0 ∧
       typ t' = TypeNum_of n ∧
       sym_opname t' = sym_opname t ∧ name t' = name t ∧
       enabled t' = enabled t ∧
       f t' = f t ∧ p t' = p t ∧ a t' = a t ∧ v t' = v t ∧
       (i t' = i t ∨ (typ t' = Int ∧ IntType_fixup m (i t) = Some (i t'))).
Proof.
  unfold SymbolicType_fixup. intros H.
  destruct (Type_typeVar (sym_opname t)) as [tv|] eqn:Htv; [|done].
  apply Type_var_inv in Htv as ->. simpl in H.
  unfold getUInt in *. simpl in *.
  set (n := wrap var_type_bits _) in *.
  assert (Hn : 0 ≤ n < 8) by apply (wrap_range 3).
  assert (Hu : to_unsigned n = n) by (unfold to_unsigned; apply Z.mod_small; lia).
  rewrite Hu in H.
  destruct (negb _) eqn:Hrange; [done|].
  apply negb_false_iff, andb_prop in Hrange as [H0 H4].
  apply Z.leb_le in H0, H4. simpl in H0, H4.
  destruct (Z.land _ _ =? 0) eqn:Hen; [done|].
  apply Z.eqb_neq in Hen. rewrite Z.land_comm in Hen.
  exists n. split; [done|]. split; [lia|]. split; [done|].
  destruct (TypeNum_of n) eqn:Hk; try done.
  - destruct (IntType_fixup m (i t)) as [i'|] eqn:Hi; [|done].
    simpl in H. injection H as <-. simpl. split_and!; try done. by right.
  - injection H as <-. simpl. split_and!; try done. by left.
  - injection H as <-. simpl. split_and!; try done. by left.
  - injection H as <-. simpl. split_and!; try done. by left.
  - injection H as <-. simpl. split_and!; try done. by left.
Qed.

Lemma enabled_bit_land (t : SymbolicType) (k : TypeNum) :
  Z.land (enabled t) (Z.shiftl 1 (TypeNum_val k)) ≠ 0 → enabled_bit t k = true.
Proof. unfold enabled_bit. intros H. by apply negb_true_iff, Z.eqb_neq. Qed.

(** X3. When fix-up of a symbolic type returns, the category it has chosen
    is one of the five proper ones, is the value the model gives to the
    category variable, and is enabled in the type; the mask, the names and
    the variants of the other categories are unchanged. *)
Theorem SymbolicType_fixup_enabled (m : Model) (t t' : SymbolicType) :
  SymbolicType_fixup m t = Some t' →
  typ t' ≠ Undefined ∧
  enabled_bit t (typ t') = true ∧
  (∃ tv, Type_typeVar (sym_opname t) = Some tv ∧
         getUInt m tv = Some (TypeNum_val (typ t'))) ∧
  enabled t' = enabled t ∧ name t' = name t ∧ sym_opname t' = sym_opname t ∧
  f t' = f t ∧ p t' = p t ∧ a t' = a t ∧ v t' = v t.
Proof.
  intros H.
  assert (Hne : sym_opname t ≠ "").
  { intros He. unfold SymbolicType_fixup, Type_typeVar, Type_var in H.
    by rewrite decide_True in H. }
  apply SymbolicType_fixup_inv in H
    as (n & Hn & Hr & Hen & -> & Ho & Hnm & He & Hf & Hp & Ha & Hv & _).
  destruct (TypeNum_of_val n Hr) as [Hval Hud].
  split_and!; try done.
  - apply enabled_bit_land. by rewrite Hval.
  - eexists. split; [by apply Type_var_Some|]. by rewrite Hval.
Qed.

(** The instance at the type of [%b] and a model that says "integer, 8
    bits". *)
Lemma SymbolicType_fixup_enabled_witness :
  ∃ t', SymbolicType_fixup {[ "%b_bw" := 8 ]} samples.ty_b = Some t' ∧
        typ t' ≠ Undefined ∧
        enabled_bit samples.ty_b (typ t') = true ∧
        (∃ tv, Type_typeVar (sym_opname samples.ty_b) = Some tv ∧
               getUInt {[ "%b_bw" := 8 ]} tv = Some (TypeNum_val (typ t'))) ∧
        enabled t' = enabled samples.ty_b ∧ name t' = name samples.ty_b ∧
        sym_opname t' = sym_opname samples.ty_b ∧
        f t' = f samples.ty_b ∧ p t' = p samples.ty_b ∧
        a t' = a samples.ty_b ∧ v t' = v samples.ty_b.
Proof.
  eexists. split; [reflexivity|].
  apply (SymbolicType_fixup_enabled {[ "%b_bw" := 8 ]} samples.ty_b).
  reflexivity.
Defined.

(** X4. After [enforceIntType], fix-up can only choose the integer
    category: a model that gives the category variable another value makes
    fix-up fail its assertion instead. *)
Theorem SymbolicType_fixup_enforceIntType (m : Model) (t : SymbolicType) :
  (∀ t', SymbolicType_fixup m (SymbolicType_enforceIntType t) = Some t' →
         typ t' = Int) ∧
  (∀ tv n, Type_typeVar (sym_opname t) = Some tv → getUInt m tv = Some n →
           n ≠ TypeNum_val Int →
           SymbolicType_fixup m (SymbolicType_enforceIntType t) = None).
Proof.
  assert (Hint : ∀ t', SymbolicType_fixup m (SymbolicType_enforceIntType t)
                       = Some t' → typ t' = Int).
  { intros t' H.
    apply SymbolicType_fixup_inv in H as (n & _ & Hr & Hen & -> & _).
    simpl in Hen. rewrite <- Z.land_assoc in Hen.
    assert (n = 0 ∨ n = 1 ∨ n = 2 ∨ n = 3 ∨ n = 4) as [->|[->|[->|[->| ->]]]]
      by lia; try done; simpl in Hen; by rewrite Z.land_0_r in Hen. }
  split; [done|].
  intros tv n Htv Hn Hne.
  destruct (SymbolicType_fixup m (SymbolicType_enforceIntType t)) as [t'|] eqn:H;
    [|done].
  exfalso. pose proof (Hint t' eq_refl) as Ht.
  apply SymbolicType_fixup_inv in H as (n' & Hn' & Hr & _ & Hty & _).
  simpl in Hn'. apply Type_var_inv in Htv as ->. rewrite Hn in Hn'.
  injection Hn' as <-. rewrite Ht in Hty.
  assert (n = 0 ∨ n = 1 ∨ n = 2 ∨ n = 3 ∨ n = 4) as [->|[->|[->|[->| ->]]]]
    by lia; done.
Qed.

(** A symbolic type fixes up to an integer when the model says so. *)
Lemma SymbolicType_fixup_Int (m : Model) (t : SymbolicType) (i' : IntType) :
  getUInt m (mkVar (sym_opname t +:+ "_" +:+ "type") var_type_bits) = Some 0 →
  sym_opname t ≠ "" →
  enabled_bit t Int = true →
  IntType_fixup m (i t) = Some i' →
  SymbolicType_fixup m t
  = Some (mkSymbolicType (sym_opname t) (name t) (enabled t) Int i'
            (f t) (p t) (a t) (v t)).
Proof.
  intros Hn Hne Hen Hi. unfold SymbolicType_fixup, Type_typeVar.
  rewrite Type_var_Some by done. cbn [mbind option_bind]. rewrite Hn.
  cbn [mbind option_bind].
  unfold enabled_bit in Hen. rewrite Z.land_comm.
  change (to_unsigned 0) with (TypeNum_val Int).
  apply negb_true_iff in Hen. rewrite Hen. simpl. by rewrite Hi.
Qed.

(** The width an integer type has after fix-up is the value of its width
    term. *)
Lemma IntType_fixup_bits (m : Model) (t : IntType) (bw : expr) (w : Z) :
  IntType_sizeVar t = Some bw →
  eval m bw = Some (VBV var_bw_bits w) →
  0 ≤ w < 1024 →
  ∃ t', IntType_fixup m t = Some t' ∧
        IntType_bits t' mod 2 ^ 10 = w ∧
        (defined t = false → IntType_bits t' = w).
Proof.
  intros Hbw Hw Hr. unfold IntType_fixup.
  destruct (defined t) eqn:Hd.
  - exists t. split; [done|]. split; [|done].
    unfold IntType_sizeVar in Hbw. rewrite Hd in Hbw. injection Hbw as <-.
    simpl in Hw. by injection Hw as <-.
  - rewrite Hbw. simpl. unfold getUInt. rewrite Hw. simpl.
    eexists. split; [done|]. unfold IntType_bits. simpl.
    assert (Hu : to_unsigned w = w)
      by (unfold to_unsigned; apply Z.mod_small; lia).
    rewrite Hu. split; [|done]. apply Z.mod_small. lia.
Qed.

(** Fix-up under a model of the constraints: the width it leaves is the
    value of the width term. *)
Lemma Type_fixup_width (t : type) (m : Model) (c : expr) :
  t ≠ VoidTy →
  Type_getTypeConstraints t = Some c →
  sat m c →
  ∃ t' w wv, Type_fixup m t = Some t' ∧
             Type_bits t' = Some w ∧
             width_val m t = Some wv ∧
             1 ≤ wv ≤ 64 ∧
             w mod 2 ^ 10 = wv ∧
             (open_width t = true → w = wv).
Proof.
  intros Hvoid Hc Hsat.
  destruct t as [|t|t|t|t|t|t]; simpl in Hc; try done;
    try (injection Hc as <-; done).
  - assert (Hbw : is_Some (IntType_sizeVar t)).
    { unfold IntType_getTypeConstraints in Hc. by destruct (IntType_sizeVar t). }
    destruct Hbw as [bw Hbw].
    destruct (IntType_sizeVar_eval _ _ m Hbw) as (w & Hw & Hr).
    assert (Hrange : 1 ≤ w ≤ 64).
    { assert (Hs : eval m c = Some (VBool true)).
      { apply sat_eval; [|done]. unfold IntType_getTypeConstraints in Hc.
        rewrite Hbw in Hc. simpl in Hc. by injection Hc as <-. }
      rewrite (IntType_getTypeConstraints_eval _ m _ _ _ Hc Hbw Hw) in Hs.
      injection Hs as Hs. apply andb_prop in Hs as [H0 H64].
      apply negb_true_iff, Z.eqb_neq in H0. apply Z.leb_le in H64. lia. }
    destruct (IntType_fixup_bits m t bw w Hbw Hw Hr) as (t' & Hfix & Hmod & Hopen).
    exists (IntTy t'), (IntType_bits t'), w. simpl. rewrite Hfix, Hbw. simpl.
    unfold getUInt. rewrite Hw.
    do 3 (split; [done|]). split; [lia|]. split; [done|].
    intros Hd. apply negb_true_iff in Hd. by apply Hopen.
  - pose proof (SymbolicType_getTypeConstraints_not_forall t c Hc) as Hq.
    destruct (SymbolicType_getTypeConstraints_eval t m c Hc)
      as (Hne & bw & w & Hbw & Hw & Hr & Hev).
    rewrite sat_eval in Hsat by done. rewrite Hev in Hsat.
    injection Hsat as Hsat.
    apply andb_prop in Hsat as [Hsat Hw'].
    apply andb_prop in Hsat as [Hen Hn]. apply Z.eqb_eq in Hn.
    apply andb_prop in Hw' as [H0 H64].
    apply negb_true_iff, Z.eqb_neq in H0. apply Z.leb_le in H64.
    destruct (IntType_fixup_bits m (i t) bw w Hbw Hw Hr)
      as (i' & Hfix & Hmod & Hopen).
    eexists _, (IntType_bits i'), w. simpl.
    rewrite (SymbolicType_fixup_Int m t i'); try done.
    + simpl. rewrite Hbw. simpl. unfold getUInt. rewrite Hw.
      do 3 (split; [done|]). split; [lia|]. split; [done|].
      intros Hd. apply negb_true_iff in Hd. by apply Hopen.
    + unfold getUInt. simpl. f_equal. exact Hn.
Qed.

(** X5. A type other than [void] that a model's constraints admit has,
    after fix-up under that model, a width, and the width read as a 10-bit
    number lies in 1..64; when the width was left open, the width itself
    does.  In particular fix-up passes its assertions on such a model. *)
Theorem Type_fixup_bits (t : type) (m : Model) (c : expr) :
  t ≠ VoidTy →
  Type_getTypeConstraints t = Some c →
  sat m c →
  ∃ t' w, Type_fixup m t = Some t' ∧
          Type_bits t' = Some w ∧
          1 ≤ w mod 2 ^ 10 ≤ 64 ∧
          (open_width t = true → 1 ≤ w ≤ 64).
Proof.
  intros Hvoid Hc Hsat.
  destruct (Type_fixup_width t m c Hvoid Hc Hsat)
    as (t' & w & wv & Hfix & Hbits & _ & Hr & Hmod & Hopen).
  exists t', w. split; [done|]. split; [done|]. split; [lia|].
  intros Ho. rewrite (Hopen Ho). done.
Qed.

(** The instance at the type of an operand [%x] that may be anything. *)
Lemma Type_fixup_bits_witness :
  ∃ t' w, Type_fixup {[ "%x_bw" := 8 ]} (SymbolicTy (samples.symbolic "%x"))
            = Some t' ∧
          Type_bits t' = Some w ∧
          1 ≤ w mod 2 ^ 10 ≤ 64 ∧
          (open_width (SymbolicTy (samples.symbolic "%x")) = true → 1 ≤ w ≤ 64).
Proof.
  eapply (Type_fixup_bits (SymbolicTy (samples.symbolic "%x"))
            {[ "%x_bw" := 8 ]}).
  - discriminate.
  - reflexivity.
  - by vm_compute.
Defined.

End fixup_more_facts.

(** ** Type equality, under a model *)

Section type_eq_more_facts.
Import smt IR.

Lemma eval_Or_true (m : Model) (x y : expr) :
  eval m (x || y)%E = Some (VBool true) →
  eval m x = Some (VBool true) ∨ eval m y = Some (VBool true).
Proof.
  simpl. destruct (eval m x) as [[[]|]|], (eval m y) as [[[]|]|]; simpl;
    try done; auto.
Qed.

(** Equality of two integer types compares the values of their width
    terms. *)
Lemma IntType_eq_eval (m : Model) (l r : IntType) (e : expr) :
  IntType_eq l r = Some e →
  ∃ x y wl wr,
    IntType_sizeVar l = Some x ∧ IntType_sizeVar r = Some y ∧
    eval m x = Some (VBV var_bw_bits wl) ∧
    eval m y = Some (VBV var_bw_bits wr) ∧
    eval m e = Some (VBool (wl =? wr)).
Proof.
  unfold IntType_eq. intros H.
  destruct (IntType_sizeVar l) as [x|] eqn:Hx; [|done].
  destruct (IntType_sizeVar r) as [y|] eqn:Hy; [|done].
  simpl in H. injection H as <-.
  destruct (IntType_sizeVar_eval _ _ m Hx) as (wl & Hwl & _).
  destruct (IntType_sizeVar_eval _ _ m Hy) as (wr & Hwr & _).
  exists x, y, wl, wr. split_and!; try done. by apply eq_sizeVar_eval.
Qed.

Lemma IntType_eq_width (m : Model) (l r : IntType) (e : expr) :
  IntType_eq l r = Some e →
  eval m e = Some (VBool true) →
  ∃ w, width_val m (IntTy l) = Some w ∧ width_val m (IntTy r) = Some w.
Proof.
  intros H Hs.
  destruct (IntType_eq_eval m l r e H) as (x & y & wl & wr & Hx & Hy & Hwl & Hwr & He).
  rewrite He in Hs. injection Hs as Hs. apply Z.eqb_eq in Hs as <-.
  exists wl. simpl. rewrite Hx, Hy. simpl. unfold getUInt.
  by rewrite Hwl, Hwr.
Qed.

(** X6. Two distinct integer types of declared widths (below 1024) are
    equal under a model exactly when the widths are the same number. *)
Theorem Type_eq_int_widths (this b : ref type) (l r : IntType) (m : Model) :
  addr this ≠ addr b →
  deref this = IntTy l → deref b = IntTy r →
  defined l = true → defined r = true →
  0 ≤ bitwidth l < 2 ^ 10 → 0 ≤ bitwidth r < 2 ^ 10 →
  ∃ c, Type_eq this b = Some c ∧ (sat m c ↔ bitwidth l = bitwidth r).
Proof.
  intros Hne Hl Hr Hdl Hdr Hwl Hwr.
  unfold Type_eq. rewrite decide_False by done. rewrite Hl, Hr.
  unfold IntType_eq, IntType_sizeVar, IntType_bits. rewrite Hdl, Hdr. simpl.
  eexists. split; [done|]. simpl. unfold var_bw_bits.
  rewrite !wrap_small by done.
  destruct (Z.eqb_spec (bitwidth l) (bitwidth r)); split; congruence.
Qed.

(** The instance at [i8] against [i16]. *)
Lemma Type_eq_int_widths_witness :
  ∃ c, Type_eq (mkRef 1%N (IntTy samples.i8)) (mkRef 2%N (IntTy samples.i16))
       = Some c ∧
       (sat ∅ c ↔ bitwidth samples.i8 = bitwidth samples.i16).
Proof.
  apply (Type_eq_int_widths (mkRef 1%N (IntTy samples.i8))
           (mkRef 2%N (IntTy samples.i16)) samples.i8 samples.i16 ∅);
    try reflexivity; simpl; lia.
Defined.

(** Under a model of the constraints of the left type, an equality that
    holds equates the values of the two width terms. *)
Lemma Type_eq_width (this b : ref type) (m : Model) (c ca : expr) :
  addr this ≠ addr b →
  Type_eq this b = Some c → sat m c →
  Type_getTypeConstraints (deref this) = Some ca → sat m ca →
  ∃ w, width_val m (deref this) = Some w ∧ width_val m (deref b) = Some w.
Proof.
  intros Hne Hc Hsat Hca Hsa. unfold Type_eq in Hc.
  rewrite decide_False in Hc by done.
  destruct (deref this) as [|l|l|l|l|l|l] eqn:Hthis; simpl in Hca;
    try (injection Hca as <-; done).
  - by injection Hc as <-.
  - (* an integer on the left *)
    destruct (deref b) as [|r|r|r|r|r|r] eqn:Hb;
      try (injection Hc as <-; done).
    + apply (IntType_eq_width m l r c); [done|].
      apply sat_eval; [|done]. unfold IntType_eq in Hc.
      destruct (IntType_sizeVar l), (IntType_sizeVar r); try done.
      by injection Hc as <-.
    + simpl in Hc.
      destruct (SymbolicType_is r Int) as [isI|]; [|done]. simpl in Hc.
      destruct (IntType_eq (i r) l) as [e|] eqn:He; [|done]. simpl in Hc.
      injection Hc as <-. simpl in Hsat.
      apply (eval_And_true m isI e) in Hsat as [_ Hs].
      destruct (IntType_eq_width m (i r) l e He Hs) as (w & H1 & H2).
      exists w. done.
  - (* a symbolic type on the left: its constraints say "integer" *)
    pose proof (SymbolicType_getTypeConstraints_not_forall l ca Hca) as Hq.
    destruct (SymbolicType_getTypeConstraints_eval l m ca Hca)
      as (Hnm & bw & w & Hbw & Hw & Hr & Hev).
    rewrite sat_eval in Hsa by done. rewrite Hev in Hsa.
    injection Hsa as Hsa. apply andb_prop in Hsa as [Hsa _].
    apply andb_prop in Hsa as [_ Hn]. apply Z.eqb_eq in Hn.
    assert (Hoff : ∀ k isK, k ≠ Int → SymbolicType_is l k = Some isK →
                            eval m isK ≠ Some (VBool true)).
    { intros k isK Hk HK. rewrite (SymbolicType_is_eval _ _ m _ HK), Hn.
      destruct k; try done; simpl; by rewrite andb_false_r. }
    assert (Hoff' : ∀ k isK e, k ≠ Int → SymbolicType_is l k = Some isK →
                      eval m (isK && e)%E ≠ Some (VBool true)).
    { intros k isK e Hk HK Hs. apply eval_And_true in Hs as [Hs _].
      by apply (Hoff k isK). }
    destruct (deref b) as [|r|r|r|r|r|r] eqn:Hb; simpl in Hc; try done.
    + destruct (SymbolicType_is l Int) as [isI|]; [|done]. simpl in Hc.
      destruct (IntType_eq (i l) r) as [e|] eqn:He; [|done]. simpl in Hc.
      injection Hc as <-. simpl in Hsat.
      apply (eval_And_true m isI e) in Hsat as [_ Hs].
      by apply (IntType_eq_width m (i l) r e).
    + destruct (SymbolicType_is l Float) as [isK|] eqn:HK; [|done].
      simpl in Hc. injection Hc as <-. by apply (Hoff' Float) in Hsat.
    + destruct (SymbolicType_is l Ptr) as [isK|] eqn:HK; [|done].
      simpl in Hc. destruct (PtrType_eq (p l) r) as [e|]; [|done].
      simpl in Hc. injection Hc as <-. by apply (Hoff' Ptr) in Hsat.
    + destruct (SymbolicType_is l Array) as [isK|] eqn:HK; [|done].
      simpl in Hc. injection Hc as <-. by apply (Hoff' Array) in Hsat.
    + destruct (SymbolicType_is l Vector) as [isK|] eqn:HK; [|done].
      simpl in Hc. injection Hc as <-. by apply (Hoff' Vector) in Hsat.
    + destruct (SymbolicType_is l Int) as [isI|] eqn:HI; [|done]. simpl in Hc.
      destruct (IntType_eq (i l) (i r)) as [ei|] eqn:Hei; [|done]. simpl in Hc.
      destruct (SymbolicType_is l Float) as [isF|] eqn:HF; [|done]. simpl in Hc.
      destruct (SymbolicType_is l Ptr) as [isP|] eqn:HP; [|done]. simpl in Hc.
      destruct (PtrType_eq (p l) (p r)) as [ep|] eqn:Hep; [|done]. simpl in Hc.
      destruct (SymbolicType_is l Array) as [isA|] eqn:HA; [|done]. simpl in Hc.
      destruct (SymbolicType_is l Vector) as [isV|] eqn:HV; [|done]. simpl in Hc.
      destruct (Type_typeVar (sym_opname l)) as [tl|]; [|done]. simpl in Hc.
      destruct (Type_typeVar (sym_opname r)) as [tr|]; [|done]. simpl in Hc.
      injection Hc as <-. cbn [sat] in Hsat.
      apply eval_And_true in Hsat as [Hs _].
      apply eval_Or_true in Hs as [Hs|Hs]; [|by apply (Hoff' Vector) in Hs].
      apply eval_Or_true in Hs as [Hs|Hs]; [|by apply (Hoff' Array) in Hs].
      apply eval_Or_true in Hs as [Hs|Hs]; [|by apply (Hoff' Ptr) in Hs].
      apply eval_Or_true in Hs as [Hs|Hs]; [|by apply (Hoff' Float) in Hs].
      apply eval_Or_true in Hs as [Hs|Hs]; [done|].
      apply eval_And_true in Hs as [_ Hs].
      by apply (IntType_eq_width m (i l) (i r) ei).
Qed.

(** X7. Type inference is coherent: when a model satisfies the constraints
    of two types and their equality, fix-up under that model gives both
    the same width.  Declared widths are taken below 1024, and one address
    holds one object. *)
Theorem Type_eq_fixup_same_bits (this b : ref type) (m : Model)
    (c ca cb : expr) :
  (addr this = addr b → deref this = deref b) →
  declared_small (deref this) → declared_small (deref b) →
  Type_getTypeConstraints (deref this) = Some ca → sat m ca →
  Type_getTypeConstraints (deref b) = Some cb → sat m cb →
  Type_eq this b = Some c → sat m c →
  ∃ ta tb, Type_fixup m (deref this) = Some ta ∧
           Type_fixup m (deref b) = Some tb ∧
           Type_bits ta = Type_bits tb.
Proof.
  intros Hobj Hsl Hsr Hca Hsa Hcb Hsb Hc Hsat.
  assert (Hfix : ∀ t ct, Type_getTypeConstraints t = Some ct → sat m ct →
                         is_Some (Type_fixup m t)).
  { intros t ct Hct Hst.
    assert (t = VoidTy ∨ t ≠ VoidTy) as [->|Hv]
      by (destruct t; auto; right; discriminate); [done|].
    destruct (Type_fixup_width t m ct Hv Hct Hst) as (t' & ? & ? & -> & _).
    done. }
  destruct (decide (addr this = addr b)) as [Heq|Hne].
  - rewrite <- (Hobj Heq). destruct (Hfix _ _ Hca Hsa) as [ta Hta].
    by exists ta, ta.
  - destruct (Type_eq_width this b m c ca Hne Hc Hsat Hca Hsa)
      as (w & Hwl & Hwr).
    assert (Hvl : deref this ≠ VoidTy) by (intros E; by rewrite E in Hwl).
    assert (Hvr : deref b ≠ VoidTy) by (intros E; by rewrite E in Hwr).
    destruct (Type_fixup_width _ m ca Hvl Hca Hsa)
      as (ta & wa & wva & Hta & Hba & Hwa & Hra & Hma & Hoa).
    destruct (Type_fixup_width _ m cb Hvr Hcb Hsb)
      as (tb & wb & wvb & Htb & Hbb & Hwb & Hrb & Hmb & Hob).
    rewrite Hwl in Hwa. injection Hwa as <-.
    rewrite Hwr in Hwb. injection Hwb as <-.
    exists ta, tb. split; [done|]. split; [done|].
    rewrite Hba, Hbb. f_equal.
    assert (Hw : ∀ t t' w', declared_small t → Type_fixup m t = Some t' →
                   Type_bits t' = Some w' → w' mod 2 ^ 10 = w →
                   (open_width t = true → w' = w) → w' = w).
    { intros t t' w' Hs Hf Hb Hm Ho.
      destruct t as [|t|t|t|t|t|t]; simpl in *;
        try (injection Hf as <-; done).
      - destruct (defined t) eqn:Hd; [|by apply Ho].
        unfold IntType_fixup in Hf. rewrite Hd in Hf. simpl in Hf.
        injection Hf as <-. simpl in Hb. injection Hb as <-.
        unfold IntType_bits in *. rewrite <- Hm. symmetry.
        apply Z.mod_small. by apply Hs.
      - destruct (defined (i t)) eqn:Hd; [|by apply Ho].
        destruct (SymbolicType_fixup m t) as [s'|] eqn:Hs'; [|done].
        simpl in Hf. injection Hf as <-. simpl in Hb.
        apply SymbolicType_fixup_inv in Hs'
          as (n & _ & _ & _ & _ & _ & _ & _ & _ & _ & _ & _ & Hi).
        destruct (typ s'); try done. injection Hb as <-.
        assert (Hi' : i s' = i t).
        { destruct Hi as [Hi|[_ Hi]]; [done|].
          unfold IntType_fixup in Hi. rewrite Hd in Hi. by injection Hi. }
        rewrite Hi' in *. unfold IntType_bits in *. rewrite <- Hm. symmetry.
        apply Z.mod_small. by apply Hs. }
    rewrite (Hw _ _ _ Hsl Hta Hba Hma Hoa).
    by rewrite (Hw _ _ _ Hsr Htb Hbb Hmb Hob).
Qed.

(** The instance at the type of [%b] against [i8], under a model that says
    "integer, 8 bits". *)
Lemma Type_eq_fixup_same_bits_witness :
  ∃ ta tb,
    Type_fixup {[ "%b_bw" := 8 ]} (SymbolicTy samples.ty_b) = Some ta ∧
    Type_fixup {[ "%b_bw" := 8 ]} (IntTy samples.i8) = Some tb ∧
    Type_bits ta = Type_bits tb.
Proof.
  eapply (Type_eq_fixup_same_bits (mkRef 1%N (SymbolicTy samples.ty_b))
            (mkRef 2%N (IntTy samples.i8)) {[ "%b_bw" := 8 ]}).
  - simpl. lia.
  - simpl. discriminate.
  - simpl. lia.
  - reflexivity.
  - by vm_compute.
  - reflexivity.
  - by vm_compute.
  - reflexivity.
  - by vm_compute.
Defined.

End type_eq_more_facts.

(** ** Constant expressions: sorts and undefined behaviour *)

Section constant_more_facts.
Import smt IR values samples.

(** The UB term of a binary operation implies that of both operands. *)
Lemma toSMT_cnst_ub_step (m : Model) (ty : type) (name : string)
    (lhs rhs : Constant) (op : ConstantBinOp_Op) (r : expr * expr) :
  toSMT_cnst (ConstantBinOp ty name lhs rhs op) = Some r →
  eval m r.2 = Some (VBool true) →
  ∃ a b, toSMT_cnst lhs = Some a ∧ toSMT_cnst rhs = Some b ∧
         eval m a.2 = Some (VBool true) ∧ eval m b.2 = Some (VBool true).
Proof.
  simpl. intros H Hu.
  destruct (toSMT_cnst lhs) as [a|]; [|done].
  destruct (toSMT_cnst rhs) as [b|]; [|done].
  simpl in H. exists a, b. split; [done|]. split; [done|].
  apply eval_And_true.
  destruct op; injection H as <-; cbn [snd] in Hu; try done.
  - apply eval_And_true in Hu as [Hu _]. by apply eval_And_true in Hu as [Hu _].
  - by apply eval_And_true in Hu as [Hu _].
Qed.

(** X8. UB accumulates upwards: under a model in which a constant
    expression has no UB, none of its operands, at any depth, has. *)
Theorem toSMT_cnst_ub_operands (m : Model) (c c' : Constant) (r : expr * expr) :
  subconstant c' c →
  toSMT_cnst c = Some r →
  eval m r.2 = Some (VBool true) →
  ∃ r', toSMT_cnst c' = Some r' ∧ eval m r'.2 = Some (VBool true).
Proof.
  intros Hsub. revert r.
  induction Hsub as [|ty name lhs rhs op _ IH|ty name lhs rhs op _ IH];
    intros r Hr Hu.
  - by exists r.
  - destruct (toSMT_cnst_ub_step m _ _ _ _ _ _ Hr Hu) as (a & b & Ha & _ & Hua & _).
    by apply (IH a).
  - destruct (toSMT_cnst_ub_step m _ _ _ _ _ _ Hr Hu) as (a & b & _ & Hb & _ & Hub).
    by apply (IH b).
Qed.

(** The instance at the divisor of [(C1 / C2)], with [C2 = 1]. *)
Lemma toSMT_cnst_ub_operands_witness :
  ∃ r', toSMT_cnst (Const (IntTy i8) "C2") = Some r' ∧
        eval {[ "C2" := 1 ]} r'.2 = Some (VBool true).
Proof.
  eapply (toSMT_cnst_ub_operands {[ "C2" := 1 ]} C1_sdiv_C2).
  - apply sub_rhs, sub_here.
  - reflexivity.
  - by vm_compute.
Defined.

(** X9. A constant expression in which no division occurs has no UB,
    whatever the model. *)
Theorem toSMT_cnst_no_division (c : Constant) (r : expr * expr) (m : Model) :
  no_division c = true →
  toSMT_cnst c = Some r →
  eval m r.2 = Some (VBool true).
Proof.
  revert r. induction c as [ty nm|ty nm lhs IHl rhs IHr op|ty nm fn args];
    intros r Hnd Hr; simpl in Hr.
  - destruct (Constant_bits _); [|done]. by injection Hr as <-.
  - destruct (toSMT_cnst lhs) as [a|]; [|done].
    destruct (toSMT_cnst rhs) as [b|]; [|done].
    simpl in Hr, Hnd.
    destruct op; try done; apply andb_prop in Hnd as [Hl Hr'];
      injection Hr as <-; simpl;
      by rewrite (IHl a Hl eq_refl), (IHr b Hr' eq_refl).
  - by injection Hr as <-.
Qed.

(** The instance at [(C1 + C2)]. *)
Lemma toSMT_cnst_no_division_witness :
  eval ∅ (mkBool true && mkBool true)%E = Some (VBool true).
Proof.
  apply (toSMT_cnst_no_division
           (ConstantBinOp_new (IntTy i8) (Const (IntTy i8) "C1")
              (Const (IntTy i8) "C2") ADD)
           (add (mkVar "C1" 8) (mkVar "C2" 8), (mkBool true && mkBool true)%E) ∅);
    reflexivity.
Defined.

Lemma wrap_IntMin (w : N) : (0 < w)%N → wrap w (2 ^ (Z.of_N w - 1)) = 2 ^ (Z.of_N w - 1).
Proof.
  intros Hw. apply wrap_small. split; [apply Z.pow_nonneg; lia|].
  apply Z.pow_lt_mono_r; lia.
Qed.

Lemma wrap_minus_one (w : N) : wrap w (-1) = 2 ^ Z.of_N w - 1.
Proof.
  unfold wrap. symmetry. apply (Z.mod_unique_pos _ _ (-1)); [|lia].
  assert (0 < 2 ^ Z.of_N w) by (apply Z.pow_pos_nonneg; lia). lia.
Qed.

(** X10. A division of constants has UB exactly when an operand has, or
    the divisor is zero, or, for the signed division, the operands are the
    least integer and [-1]: under a model that gives the operands the
    [w]-bit values [x] and [y], the UB term of the division evaluates to
    the conjunction of the UB of the operands with [y ≠ 0] and, for [SDIV],
    with [¬(x = 2^(w-1) ∧ y = 2^w - 1)]. *)
Theorem ConstantBinOp_div_ub (m : Model) (ty : type) (name : string)
    (lhs rhs : Constant) (sign : bool) (a b : expr * expr) (w : N) (x y : Z)
    (ua ub : bool) :
  toSMT_cnst lhs = Some a → toSMT_cnst rhs = Some b →
  eval m a.1 = Some (VBV w x) → eval m b.1 = Some (VBV w y) →
  eval m a.2 = Some (VBool ua) → eval m b.2 = Some (VBool ub) →
  (0 < w)%N →
  ∃ r, toSMT_cnst (ConstantBinOp ty name lhs rhs (if sign then SDIV else UDIV))
       = Some r ∧
       eval m r.2 =
         Some (VBool (ua && ub && negb (y =? 0) &&
                      negb (sign && (x =? 2 ^ (Z.of_N w - 1))
                            && (y =? 2 ^ Z.of_N w - 1)))).
Proof.
  intros Ha Hb Hx Hy Hua Hub Hw. cbn [toSMT_cnst]. rewrite Ha, Hb.
  cbn [mbind option_bind].
  eexists. split; [reflexivity|].
  destruct sign; cbn [snd].
  - rewrite div_ub_signed_eval. rewrite (eval_bits _ _ _ _ Hy).
    cbn [eval ne]. rewrite Hx, Hy, Hua, Hub. simpl. rewrite !N.eqb_refl.
    rewrite (wrap_IntMin w Hw), wrap_minus_one.
    change (wrap w 0) with (0 mod 2 ^ Z.of_N w). rewrite Z.mod_0_l
      by (apply Z.pow_nonzero; lia).
    simpl. by destruct ua, ub, (y =? 0), (x =? _), (y =? _).
  - unfold div_ub. rewrite (eval_bits _ _ _ _ Hy).
    cbn [eval ne]. rewrite Hy, Hua, Hub. simpl. rewrite !N.eqb_refl.
    change (wrap w 0) with (0 mod 2 ^ Z.of_N w). rewrite Z.mod_0_l
      by (apply Z.pow_nonzero; lia).
    simpl. by destruct ua, ub, (y =? 0).
Qed.

(** The instance at [(C1 / C2)] with [C1 = -128] and [C2 = -1]. *)
Lemma ConstantBinOp_div_ub_witness :
  ∃ r, toSMT_cnst (ConstantBinOp (IntTy i8) "(C1 / C2)" (Const (IntTy i8) "C1")
                     (Const (IntTy i8) "C2") SDIV) = Some r ∧
       eval {[ "C1" := 128; "C2" := 255 ]} r.2 =
         Some (VBool (true && true && negb (255 =? 0) &&
                      negb (true && (128 =? 2 ^ (Z.of_N 8 - 1))
                            && (255 =? 2 ^ Z.of_N 8 - 1)))).
Proof.
  apply (ConstantBinOp_div_ub {[ "C1" := 128; "C2" := 255 ]} (IntTy i8)
           "(C1 / C2)" (Const (IntTy i8) "C1") (Const (IntTy i8) "C2") true
           (mkVar "C1" 8, mkBool true) (mkVar "C2" 8, mkBool true)
           8%N 128 255 true true); try reflexivity.
Defined.

(** X11. A constant expression whose leaves are plain constants of one
    integer width is well sorted: it has a valuation, its value is a bit
    vector of that width under every model, and its UB is a Boolean. *)
Theorem toSMT_cnst_well_sorted (w : Z) (c : Constant) (m : Model) :
  leaves_of_width w c →
  ∃ r z u, toSMT_cnst c = Some r ∧
           eval m r.1 = Some (VBV (Z.to_N w) z) ∧
           eval m r.2 = Some (VBool u).
Proof.
  induction c as [ty nm|ty nm lhs IHl rhs IHr op|ty nm fn args];
    cbn [leaves_of_width toSMT_cnst].
  - intros Hw. unfold Constant_bits. simpl. rewrite Hw. simpl.
    by eexists _, _, _.
  - intros [Hl Hr].
    destruct (IHl Hl) as (a & x & ua & -> & Hx & Hua).
    destruct (IHr Hr) as (b & y & ub & -> & Hy & Hub).
    cbn [mbind option_bind].
    destruct op; eexists _, _, _; (split; [reflexivity|]); cbn [fst snd].
    + cbn [eval]. rewrite Hx, Hy, Hua, Hub. simpl. by rewrite N.eqb_refl.
    + cbn [eval]. rewrite Hx, Hy, Hua, Hub. simpl. by rewrite N.eqb_refl.
    + split; [cbn [eval]; rewrite Hx, Hy; simpl; by rewrite N.eqb_refl|].
      rewrite div_ub_signed_eval. rewrite (eval_bits _ _ _ _ Hy).
      cbn [eval ne]. rewrite Hx, Hy, Hua, Hub. simpl. rewrite !N.eqb_refl.
      done.
    + split; [cbn [eval]; rewrite Hx, Hy; simpl; by rewrite N.eqb_refl|].
      unfold div_ub. rewrite (eval_bits _ _ _ _ Hy).
      cbn [eval ne]. rewrite Hy, Hua, Hub. simpl. rewrite !N.eqb_refl.
      done.
  - done.
Qed.

(** The instance at [(C1 / C2)]. *)
Lemma toSMT_cnst_well_sorted_witness :
  ∃ r z u, toSMT_cnst C1_sdiv_C2 = Some r ∧
           eval ∅ r.1 = Some (VBV (Z.to_N 8) z) ∧
           eval ∅ r.2 = Some (VBool u).
Proof.
  apply (toSMT_cnst_well_sorted 8 C1_sdiv_C2 ∅). by split.
Defined.

End constant_more_facts.

(** ** The refinement checker: what an error means *)

Section check_refinement_more_facts.
Import smt IR values tools samples.

Lemma agree_outside_refl (vars : gset (string * N)) (m : Model) :
  agree_outside vars m m.
Proof. by intros x _. Qed.

Lemma eval_Not_true (m : Model) (x : expr) :
  eval m (Not x) = Some (VBool true) ↔ eval m x = Some (VBool false).
Proof. simpl. destruct (eval m x) as [[[]|]|]; simpl; split; done. Qed.

(** A message is among those a query contributes only when the engine
    answered the query with a model. *)
Lemma fired_elem (solve : Oracle) (n : nat) (q : expr) (msg msg' : string) :
  msg' ∈ fired solve n q msg → msg' = msg ∧ ∃ m, solve n q = SAT m.
Proof.
  unfold fired. destruct (solve n q) as [|m| |]; simpl; intros H;
    try (by apply elem_of_nil in H).
  apply list_elem_of_singleton in H. split; [done|]. by exists m.
Qed.

Lemma fired_length (solve : Oracle) (n : nat) (q : expr) (msg : string) :
  (length (fired solve n q msg) ≤ 1)%nat.
Proof. unfold fired. destruct (isSat _); simpl; lia. Qed.

Lemma messages_elem :
  "Source is more defined than target" ∈ messages ∧
  "Target is more poisonous than source" ∈ messages ∧
  "value mismatch" ∈ messages ∧
  "Source returns but target doesn't" ∈ messages ∧
  "Target returns but source doesn't" ∈ messages.
Proof.
  unfold messages.
  split_and!; repeat first [apply list_elem_of_here | apply list_elem_of_further].
Qed.

Lemma fired_messages (solve : Oracle) (n : nat) (q : expr) (msg : string) :
  msg ∈ messages → Forall (λ e, e ∈ messages) (fired solve n q msg).
Proof.
  intros H. unfold fired. destruct (isSat _); [|apply Forall_nil_2].
  apply Forall_cons_2; [done|apply Forall_nil_2].
Qed.

(** X12. With a sound engine no error is a false alarm.  An error of
    [check_refinement] comes with a model under which, whatever values the
    quantified variables take, the source is defined and the target is not
    ("Source is more defined than target"), or the source is defined and not
    poison and the target is poison ("Target is more poisonous than source"),
    or the source is defined and not poison and the two values differ
    ("value mismatch"). *)
Theorem check_refinement_errors_sound (solve : Oracle) (s : Solver)
    (errs : Errors) (gq : gset (string * N)) (dom_a : expr) (ap : ValTy)
    (dom_b : expr) (bp : ValTy) :
  sound solve →
  ∃ new,
    (check_refinement solve s errs gq dom_a ap dom_b bp).2 = errs ++ new ∧
    ("Source is more defined than target" ∈ new →
       ∃ m, ∀ m', agree_outside (gq ∪ ap.2) m m' →
         eval m' dom_a = Some (VBool true) ∧
         eval m' dom_b = Some (VBool false)) ∧
    ("Target is more poisonous than source" ∈ new →
       ∃ m, ∀ m', agree_outside (gq ∪ ap.2) m m' →
         eval m' dom_a = Some (VBool true) ∧
         eval m' (non_poison ap.1) = Some (VBool true) ∧
         eval m' (non_poison bp.1) = Some (VBool false)) ∧
    ("value mismatch" ∈ new →
       ∃ m, ∀ m', agree_outside (gq ∪ ap.2) m m' →
         eval m' dom_a = Some (VBool true) ∧
         eval m' (non_poison ap.1) = Some (VBool true) ∧
         eval m' (value ap.1 == value bp.1)%E = Some (VBool false)).
Proof.
  intros Hsound. rewrite check_refinement_snd. eexists. split; [reflexivity|].
  split_and!; intros Hin;
    repeat (apply elem_of_app in Hin as [Hin|Hin]);
    apply fired_elem in Hin as [Hmsg [m Hm]]; try discriminate;
    apply Hsound in Hm; exists m; intros m' Hm'; specialize (Hm m' Hm');
    cbn [sat] in Hm.
  - apply eval_And_true in Hm as [Hd Hn]. by apply eval_Not_true in Hn.
  - apply eval_And_true in Hm as [Hd Hn].
    apply eval_And_true in Hn as [Ha Hb]. by apply eval_Not_true in Hb.
  - apply eval_And_true in Hm as [Hd Hn].
    apply eval_And_true in Hd as [Hd Ha]. by apply eval_Not_true in Hn.
Qed.

(** The instance at the values 0 and 1. *)
Lemma check_refinement_errors_sound_witness :
  ∃ new,
    (check_refinement eval_oracle [] [] ∅
       (mkBool true) (mkStateValue (mkUInt 0 8) (mkBool true), ∅)
       (mkBool true) (mkStateValue (mkUInt 1 8) (mkBool true), ∅)).2
    = [] ++ new ∧
    ("Source is more defined than target" ∈ new →
       ∃ m, ∀ m', agree_outside (∅ ∪ ∅) m m' →
         eval m' (mkBool true) = Some (VBool true) ∧
         eval m' (mkBool true) = Some (VBool false)) ∧
    ("Target is more poisonous than source" ∈ new →
       ∃ m, ∀ m', agree_outside (∅ ∪ ∅) m m' →
         eval m' (mkBool true) = Some (VBool true) ∧
         eval m' (mkBool true) = Some (VBool true) ∧
         eval m' (mkBool true) = Some (VBool false)) ∧
    ("value mismatch" ∈ new →
       ∃ m, ∀ m', agree_outside (∅ ∪ ∅) m m' →
         eval m' (mkBool true) = Some (VBool true) ∧
         eval m' (mkBool true) = Some (VBool true) ∧
         eval m' (mkUInt 0 8 == mkUInt 1 8)%E = Some (VBool false)).
Proof.
  apply (check_refinement_errors_sound eval_oracle [] [] ∅
           (mkBool true) (mkStateValue (mkUInt 0 8) (mkBool true), ∅)
           (mkBool true) (mkStateValue (mkUInt 1 8) (mkBool true), ∅)).
  apply eval_oracle_sound.
Defined.

(** X13. Refinement is one-directional.  With a sound engine,
    [check_refinement] adds no error when, under every model, the target is
    defined wherever the source is and, wherever the source is defined and
    not poison, the target is not poison and has the same value; the target
    may be defined, or not poison, where the source is not. *)
Theorem check_refinement_refined (solve : Oracle) (s : Solver)
    (errs : Errors) (gq : gset (string * N)) (dom_a : expr) (ap : ValTy)
    (dom_b : expr) (bp : ValTy) :
  sound solve →
  (∀ m, eval m dom_a = Some (VBool true) → eval m dom_b = Some (VBool true)) →
  (∀ m, eval m dom_a = Some (VBool true) →
        eval m (non_poison ap.1) = Some (VBool true) →
        eval m (non_poison bp.1) = Some (VBool true) ∧
        eval m (value ap.1 == value bp.1)%E = Some (VBool true)) →
  (check_refinement solve s errs gq dom_a ap dom_b bp).2 = errs.
Proof.
  intros Hsound Hdom Hval. rewrite check_refinement_snd.
  rewrite !fired_unsat; [by rewrite app_nil_r|done| |done| |done|];
    intros m Hm; specialize (Hm m (agree_outside_refl _ m)); cbn [sat] in Hm.
  - apply eval_And_true in Hm as [Hd Hn].
    apply eval_And_true in Hd as [Hd Ha]. apply eval_Not_true in Hn.
    destruct (Hval m Hd Ha) as [_ He]. congruence.
  - apply eval_And_true in Hm as [Hd Hn].
    apply eval_And_true in Hn as [Ha Hb]. apply eval_Not_true in Hb.
    destruct (Hval m Hd Ha) as [He _]. congruence.
  - apply eval_And_true in Hm as [Hd Hn]. apply eval_Not_true in Hn.
    specialize (Hdom m Hd). congruence.
Qed.

(** The instance at a source that is always poison and a target that never
    is. *)
Lemma check_refinement_refined_witness :
  (check_refinement eval_oracle [] [] ∅
     (mkBool true) (mkStateValue (mkVar "%x" 8) (mkBool false), ∅)
     (mkBool true) (mkStateValue (mkUInt 0 8) (mkBool true), ∅)).2 = [].
Proof.
  apply (check_refinement_refined eval_oracle [] [] ∅
           (mkBool true) (mkStateValue (mkVar "%x" 8) (mkBool false), ∅)
           (mkBool true) (mkStateValue (mkUInt 0 8) (mkBool true), ∅)).
  - apply eval_oracle_sound.
  - done.
  - intros m _ Hp. simpl in Hp. discriminate.
Defined.

End check_refinement_more_facts.

(** ** The verification driver: edge cases and invariants *)

Section verify_more_facts.
Import smt IR values tools samples.

(** The table of target values, built from any table: a name already in
    the table keeps its value, any other name gets the first instruction
    of that name. *)
Lemma tgt_vals_fold_lookup (l : list (ValuePtr * Instr))
    (m : gmap string ValuePtr) (name : string) :
  foldl (λ tgt_vals '(p, i),
           match tgt_vals !! Instr_getName i with
           | Some _ => tgt_vals
           | None => <[Instr_getName i := p]> tgt_vals
           end) m l !! name
  = match m !! name with
    | Some p => Some p
    | None => (λ r, r.2.1) <$> list_find (λ pi, Instr_getName pi.2 = name) l
    end.
Proof.
  revert m. induction l as [|[q j] l IH]; intros m; cbn [foldl].
  - by destruct (m !! name).
  - rewrite IH. cbn [list_find]. simpl.
    destruct (decide (Instr_getName j = name)) as [<-|Hne].
    + destruct (m !! Instr_getName j) as [p|] eqn:Hm; [by rewrite Hm|].
      by rewrite lookup_insert_eq.
    + destruct (m !! Instr_getName j) as [p|] eqn:Hm.
      * destruct (m !! name); [done|].
        by destruct (list_find _ l) as [[k [p' i']]|].
      * rewrite lookup_insert_ne by done.
        destruct (m !! name); [done|].
        by destruct (list_find _ l) as [[k [p' i']]|].
Qed.

Lemma list_find_None_names (l : list (ValuePtr * Instr)) (name : string) :
  list_find (λ pi, Instr_getName pi.2 = name) l = None
  ↔ name ∉ (λ pi, Instr_getName pi.2) <$> l.
Proof.
  rewrite list_find_None, Forall_forall. split.
  - intros H Hin. apply list_elem_of_fmap in Hin as (pi & -> & Hpi).
    by apply (H pi).
  - intros H pi Hpi Heq. apply H. apply list_elem_of_fmap. by exists pi.
Qed.

Lemma tgt_vals_of_None (tgt : Function) (name : string) :
  name ∉ instr_names tgt → tgt_vals_of tgt !! name = None.
Proof.
  intros Hn. unfold tgt_vals_of. rewrite tgt_vals_fold_lookup, lookup_empty.
  apply list_find_None_names in Hn. unfold instr_names in Hn.
  by rewrite Hn.
Qed.

(** X14. When several instructions of the target have the same name, the
    table of target values that [Transform::verify] builds sends the name
    to the first of them, in the order of [Function::instrs]: the value of
    a name is an instruction of that name before which no instruction has
    the name; and a name is in the table exactly when some instruction has
    it. *)
Theorem tgt_vals_of_first (tgt : Function) (name : string) :
  (∀ p, tgt_vals_of tgt !! name = Some p →
     ∃ k i, Function_instrs tgt !! k = Some (p, i) ∧
            Instr_getName i = name ∧
            ∀ j pi, Function_instrs tgt !! j = Some pi → (j < k)%nat →
                    Instr_getName pi.2 ≠ name) ∧
  (is_Some (tgt_vals_of tgt !! name) ↔ name ∈ instr_names tgt).
Proof.
  unfold tgt_vals_of. rewrite tgt_vals_fold_lookup, lookup_empty. split.
  - intros p Hp.
    destruct (list_find _ _) as [[k [q i]]|] eqn:Hf; [|done].
    simpl in Hp. injection Hp as <-.
    apply list_find_Some in Hf as (Hk & Hname & Hfirst).
    exists k, i. split; [done|]. split; [done|].
    intros j pi Hj Hlt. by apply (Hfirst j pi).
  - split.
    + intros [p Hp]. destruct (decide (name ∈ instr_names tgt)) as [|Hn]; [done|].
      apply list_find_None_names in Hn. by rewrite Hn in Hp.
    + intros Hin. destruct (list_find _ _) as [r|] eqn:Hf; [by eexists|].
      apply list_find_None_names in Hf. done.
Qed.

(** One turn of the loop throws when the target has no instruction of the
    name of the source instruction. *)
Lemma check_var_missing (solve : Oracle) (src : Function)
    (tv : gmap string ValuePtr) (B : State) (x : Solver * Errors)
    (var : ValuePtr) (val : ValTy) (name : string) :
  getName src var = Some name →
  not_percent name = false →
  is_Instr var = true →
  tv !! name = None ∨ (∃ p, tv !! name = Some p ∧ getValues B !! p = None) →
  check_var solve src tv B (Some x) (var, val) = None.
Proof.
  intros Hname Hpc Hi Hmiss. unfold check_var. destruct x as [s errs]. simpl.
  rewrite Hname. simpl. rewrite Hpc, Hi. simpl.
  destruct Hmiss as [->|(p & -> & Hp)]; [done|]. simpl. by rewrite Hp.
Qed.

Lemma foldl_check_var_missing (solve : Oracle) (src : Function)
    (tv : gmap string ValuePtr) (B : State) (l : list (ValuePtr * ValTy))
    (acc : option (Solver * Errors)) (e : ValuePtr * ValTy) :
  e ∈ l →
  (∀ x, check_var solve src tv B (Some x) e = None) →
  foldl (check_var solve src tv B) acc l = None.
Proof.
  intros Hin Hfail. revert acc.
  induction l as [|e' l IH]; intros acc; [by apply elem_of_nil in Hin|].
  cbn [foldl]. apply elem_of_cons in Hin as [<-|Hin].
  - destruct acc as [x|].
    + rewrite Hfail. apply foldl_check_var_None.
    + replace (check_var solve src tv B None e) with (@None (Solver * Errors))
        by done.
      apply foldl_check_var_None.
  - by apply IH.
Qed.

(** X15. In the per-value mode the driver throws, and reports nothing, as
    soon as the source state has a value for an instruction with a
    [%]-name that no instruction of the target has, or whose namesake in
    the target has no value in the target state. *)
Theorem verify_states_missing_target (solve : Oracle) (t : Transform)
    (A B : State) (var : ValuePtr) (val : ValTy) (name : string) :
  getValues A !! var = Some val →
  getName (src t) var = Some name →
  not_percent name = false →
  is_Instr var = true →
  name ∉ instr_names (tgt t) ∨
  (∃ p, tgt_vals_of (tgt t) !! name = Some p ∧ getValues B !! p = None) →
  verify_states solve (mkOpts true) t A B = None.
Proof.
  intros Hval Hname Hpc Hi Hmiss. unfold verify_states, check_each. simpl.
  rewrite (foldl_check_var_missing solve (src t) (tgt_vals_of (tgt t)) B _ _
             (var, val)); [done| |].
  - by apply elem_of_map_to_list.
  - intros x. apply (check_var_missing _ _ _ _ _ _ _ name); try done.
    destruct Hmiss as [Hn|Hp]; [left|by right].
    by apply tgt_vals_of_None.
Qed.

(** The instance at the source [fn_undef], whose [%r] an empty target does
    not have. *)
Lemma verify_states_missing_target_witness :
  verify_states eval_oracle (mkOpts true) (mkTransform fn_undef empty_fn)
    (fn_undef_state 0) unreachable_state = None.
Proof.
  apply (verify_states_missing_target eval_oracle
           (mkTransform fn_undef empty_fn) (fn_undef_state 0)
           unreachable_state (InstrPtr 0 0)
           (mkStateValue (add (mkVar "undef_0" 8) (mkVar "%x" 8)) (mkBool true), ∅)
           "%r"); try reflexivity.
  left. simpl. apply not_elem_of_nil.
Defined.

Lemma check_refinement_length (solve : Oracle) (s : Solver) (errs : Errors)
    (gq : gset (string * N)) (dom_a : expr) (ap : ValTy) (dom_b : expr)
    (bp : ValTy) :
  let r := check_refinement solve s errs gq dom_a ap dom_b bp in
  length r.1 = (length s + 3)%nat ∧
  (length r.2 ≤ length errs + 3)%nat ∧
  (Forall (λ e, e ∈ messages) errs → Forall (λ e, e ∈ messages) r.2).
Proof.
  intros r. subst r. rewrite check_refinement_fst, check_refinement_snd.
  rewrite !length_app. cbn [length].
  pose proof (fired_length solve (length s)
    (mkForAll (gq ∪ ap.2) (dom_a && Not dom_b))
    "Source is more defined than target").
  pose proof (fired_length solve (length s + 1)
    (mkForAll (gq ∪ ap.2) (dom_a && (non_poison ap.1 && Not (non_poison bp.1))))
    "Target is more poisonous than source").
  pose proof (fired_length solve (length s + 2)
    (mkForAll (gq ∪ ap.2)
       ((dom_a && non_poison ap.1) && Not (value ap.1 == value bp.1)))
    "value mismatch").
  split; [lia|]. split; [lia|].
  intros Herrs. rewrite !Forall_app.
  split_and!; try done; apply fired_messages; apply messages_elem.
Qed.

(** X16. Whatever the engine answers, a run of the driver that returns
    has dispatched its queries three at a time, reports at most one error
    for each query and one for a mismatch of the returns, and reports only
    the five messages of [messages]. *)
Theorem verify_states_invariants (solve : Oracle) (opts : TransformVerifyOpts)
    (t : Transform) (A B : State) (s : Solver) (errs : Errors) :
  verify_states solve opts t A B = Some (s, errs) →
  (∃ k, length s = 3 * k)%nat ∧
  (length errs ≤ length s + 1)%nat ∧
  Forall (λ e, e ∈ messages) errs.
Proof.
  unfold verify_states. intros H.
  set (I := λ x : Solver * Errors,
         (∃ k, length x.1 = 3 * k)%nat ∧ (length x.2 ≤ length x.1)%nat ∧
         Forall (λ e, e ∈ messages) x.2).
  assert (Hstep : ∀ s0 e0 gq da ap db bp, I (s0, e0) →
            I (check_refinement solve s0 e0 gq da ap db bp)).
  { intros s0 e0 gq da ap db bp ([k Hk] & Hle & Hall).
    destruct (check_refinement_length solve s0 e0 gq da ap db bp)
      as (H1 & H2 & H3).
    cbn [fst snd] in Hk, Hle, Hall. split_and!.
    - exists (S k). lia.
    - lia.
    - by apply H3. }
  assert (Hpre : ∀ x,
    (if check_each_var opts
     then check_each solve (src t) (tgt t) A B [] []
     else Some ([], [])) = Some x → I x).
  { intros x Hx.
    assert (I0 : I ([], [])).
    { split_and!; [by exists 0%nat|done|apply Forall_nil_2]. }
    destruct (check_each_var opts); [|by injection Hx as <-].
    unfold check_each in Hx.
    apply (check_each_ind I _ _ _ _ _ _ _ Hx); [done|].
    intros [s0 e0] [var val] x' Hin Hi Hs.
    apply check_var_cases in Hs as [->|[tval ->]]; [done|].
    by apply Hstep. }
  destruct (if check_each_var opts then _ else _) as [[s0 e0]|]; [|done].
  simpl in H. injection H as H. specialize (Hpre _ eq_refl).
  assert (Hweak : ∀ x, I x → (∃ k, length x.1 = 3 * k)%nat ∧
            (length x.2 ≤ length x.1 + 1)%nat ∧ Forall (λ e, e ∈ messages) x.2).
  { intros x (Hk & Hle & Hall). split_and!; [done|lia|done]. }
  unfold check_return, Errors_add in H.
  destruct Hpre as ([k Hk] & Hle & Hall). simpl in Hk, Hle, Hall.
  destruct (negb _).
  - destruct (fnReturned A); injection H as <- <-;
      (split; [by exists k|]); rewrite length_app, Forall_app; simpl;
      (split; [lia|]); (split; [done|]);
      (apply Forall_cons_2; [apply messages_elem|apply Forall_nil_2]).
  - destruct (fnReturned A).
    + assert (Hi : I (s0, e0)) by (split_and!; [by exists k|done|done]).
      pose proof (Hweak _ (Hstep s0 e0 (getQuantVars B) (returnDomain A)
                             (returnVal A) (returnDomain B) (returnVal B) Hi))
        as Hw.
      by rewrite H in Hw.
    + injection H as <- <-. split_and!; [by exists k|lia|done].
Qed.

(** The instance at two states that returned [%x]. *)
Lemma verify_states_invariants_witness :
  (∃ k, length [mkForAll (∅ ∪ ∅) (mkBool true && Not (mkBool true));
                mkForAll (∅ ∪ ∅)
                  (mkBool true && (mkBool true && Not (mkBool true)));
                mkForAll (∅ ∪ ∅)
                  ((mkBool true && mkBool true)
                   && Not (mkVar "%x" 8 == mkVar "%x" 8))]%E = 3 * k)%nat ∧
  (length (@nil string) ≤ 3 + 1)%nat ∧
  Forall (λ e, e ∈ messages) (@nil string).
Proof.
  apply (verify_states_invariants eval_oracle (mkOpts false)
           (mkTransform empty_fn empty_fn) ret_x_state ret_x_state).
  by vm_compute.
Defined.

(** X17. The per-value mode compares nothing, and so behaves as the plain
    mode, when every value of the source state is an input, a constant or
    an undef value, or has a name that does not start with [%]. *)
Theorem verify_states_nothing_to_compare (solve : Oracle) (t : Transform)
    (A B : State) :
  (∀ var val, getValues A !! var = Some val →
     ∃ name, getName (src t) var = Some name ∧
             (not_percent name = true ∨ is_Instr var = false)) →
  verify_states solve (mkOpts true) t A B
  = verify_states solve (mkOpts false) t A B.
Proof.
  intros Hskip. unfold verify_states. simpl.
  assert (Hpre : check_each solve (src t) (tgt t) A B [] [] = Some ([], [])).
  { unfold check_each.
    destruct (check_each_total (λ x, x = ([], [])) solve (src t)
                (tgt_vals_of (tgt t)) B (map_to_list (getValues A)) ([], []))
      as (r & Hr & ->); [done| |done].
    intros x [var val] Hin ->. apply elem_of_map_to_list in Hin.
    destruct (Hskip var val Hin) as (name & Hname & Hor).
    exists ([], []). split; [|done]. unfold check_var. simpl.
    rewrite Hname. simpl.
    destruct Hor as [->| ->]; [done|]. by rewrite orb_true_r. }
  by rewrite Hpre.
Qed.

(** The instance at a source state that values only an undef value. *)
Lemma verify_states_nothing_to_compare_witness :
  verify_states eval_oracle (mkOpts true) (mkTransform fn_undef empty_fn)
    (mkState (mkBool true)
       {[ UndefPtr 0 := (mkStateValue (mkVar "undef_0" 8) (mkBool true), ∅) ]}
       ∅ false (mkBool false) (mkStateValue mkInvalid mkInvalid, ∅))
    unreachable_state
  = verify_states eval_oracle (mkOpts false) (mkTransform fn_undef empty_fn)
      (mkState (mkBool true)
         {[ UndefPtr 0 := (mkStateValue (mkVar "undef_0" 8) (mkBool true), ∅) ]}
         ∅ false (mkBool false) (mkStateValue mkInvalid mkInvalid, ∅))
      unreachable_state.
Proof.
  apply (verify_states_nothing_to_compare eval_oracle
           (mkTransform fn_undef empty_fn)).
  intros var val Hin. simpl in Hin.
  apply lookup_singleton_Some in Hin as [<- _].
  exists "undef". split; [done|]. by right.
Defined.

End verify_more_facts.

(** ** The tokenizer *)

Section tokenizer_facts.
Import smt IR values parser.

Lemma OK_inj {A : Type} (x y : A) (st st' : PState) :
  OK x st = OK y st' → x = y ∧ st = st'.
Proof. intros H. split; congruence. Qed.

(** A token that was read leaves nothing put back. *)
Lemma next_token_returned (st st' : PState) (t : token) :
  next_token st = OK t st' → returned (tokenizer st') = false.
Proof.
  unfold next_token, get_new_token, yylex, mbind, M_bind, gets, modify, mret,
    M_ret. simpl.
  destruct (returned (tokenizer st)) eqn:Hr; simpl; [by intros [= <- <-]|].
  destruct (lexer st) as [|[e|l] rest]; simpl; [|done|];
    by intros [= <- <-].
Qed.

(** X18. Looking ahead loses nothing.  After [peek] has returned a token,
    [peek] returns it again and changes nothing, and reading returns that
    very token and leaves the state that reading instead of peeking would
    have left (but for the record of the last token). *)
Theorem peek_then_next_token (st st1 : PState) (t : token) :
  peek st = OK t st1 →
  peek st1 = OK t st1 ∧
  ∃ st2, next_token st = OK t st2 ∧
         next_token st1 = OK t (with_tokenizer (mkTokenizer t false) st2).
Proof.
  unfold peek, next_token, get_new_token, yylex, mbind, M_bind, gets, modify,
    mret, M_ret. simpl.
  destruct (returned (tokenizer st)) eqn:Hr; simpl.
  - intros [= <- <-]. rewrite Hr. split; [done|]. by eexists.
  - destruct (lexer st) as [|[e|l] rest]; simpl; [|done|];
      intros [= <- <-]; simpl; split; try done; by eexists.
Qed.

(** X19. One token can be put back, and only one.  After a token was
    read, putting it back succeeds, and reading again returns it and leaves
    the state the first reading left (but for the record of the last
    token); putting back a second token fails the assertion of [unget]. *)
Theorem unget_then_next_token (st st1 : PState) (t : token) :
  next_token st = OK t st1 →
  ∃ st2, unget t st1 = OK tt st2 ∧
         next_token st2 = OK t (with_tokenizer (mkTokenizer t false) st1) ∧
         ∀ t', unget t' st2 = Abort.
Proof.
  intros H. apply next_token_returned in H.
  unfold unget, next_token, mbind, M_bind, gets, modify, mret, M_ret, abort.
  simpl. rewrite H. by eexists.
Qed.

(** The instance at a lexer that is about to return a number. *)
Lemma peek_then_next_token_witness :
  ∃ st1, peek (parser_samples.start [parser_samples.lex NUM 1 ""]) = OK NUM st1 ∧
         peek st1 = OK NUM st1 ∧
         ∃ st2, next_token (parser_samples.start [parser_samples.lex NUM 1 ""])
                = OK NUM st2 ∧
                next_token st1
                = OK NUM (with_tokenizer (mkTokenizer NUM false) st2).
Proof.
  eexists. split; [reflexivity|].
  apply (peek_then_next_token
           (parser_samples.start [parser_samples.lex NUM 1 ""])).
  reflexivity.
Defined.

Lemma unget_then_next_token_witness :
  ∃ st1, next_token (parser_samples.start [parser_samples.lex NUM 1 ""])
         = OK NUM st1 ∧
         ∃ st2, unget NUM st1 = OK tt st2 ∧
                next_token st2
                = OK NUM (with_tokenizer (mkTokenizer NUM false) st1) ∧
                ∀ t', unget t' st2 = Abort.
Proof.
  eexists. split; [reflexivity|].
  apply (unget_then_next_token
           (parser_samples.start [parser_samples.lex NUM 1 ""])).
  reflexivity.
Defined.

End tokenizer_facts.

(** ** The routines of the parser *)

Section parser_more_facts.
Import smt IR values parser.

Variable token_name : token → string.
Variable IntType_new : Z → type.
Variable SymbolicType_new : type.
Variable IntConst_name : Z → string.
Variable Return_name : string.
Variable Unreachable_name : string.

#[local] Abbreviation parse_operand := (parse_operand token_name IntConst_name).
#[local] Abbreviation later := (later token_name IntConst_name).
#[local] Abbreviation ensure := (ensure token_name).
#[local] Abbreviation parse_type :=
  (parse_type token_name IntType_new SymbolicType_new).
#[local] Abbreviation parse_binop :=
  (parse_binop token_name IntType_new SymbolicType_new IntConst_name).
#[local] Abbreviation parse_instr :=
  (parse_instr token_name IntType_new SymbolicType_new IntConst_name).
#[local] Abbreviation parse_return :=
  (parse_return token_name IntType_new SymbolicType_new IntConst_name Return_name).
#[local] Abbreviation parse_stmt :=
  (parse_stmt token_name IntType_new SymbolicType_new IntConst_name
     Return_name Unreachable_name).
#[local] Abbreviation parse_fn_loop :=
  (parse_fn_loop token_name IntType_new SymbolicType_new IntConst_name
     Return_name Unreachable_name).
#[local] Abbreviation parse_fn :=
  (parse_fn token_name IntType_new SymbolicType_new IntConst_name
     Return_name Unreachable_name).

Tactic Notation "bind_inv" hyp(H) "as" ident(x) ident(st) ident(H1) :=
  apply bind_OK in H as (x & st & H1 & H).

Tactic Notation "gets_inv" hyp(H) :=
  let x := fresh "x" in
  let st := fresh "st" in
  let H1 := fresh "H" in
  apply bind_OK in H as (x & st & H1 & H);
  apply gets_OK in H1 as [-> ->].

Lemma bind_run {A B : Type} (m : M A) (f : A → M B) (st st' : PState) (x : A) :
  m st = OK x st' → (m ≫= f) st = f x st'.
Proof. intros H. unfold mbind, M_bind. by rewrite H. Qed.

(** *** Operands *)

(** X20. An operand is a number or an identifier, and nothing else: given
    the token that comes next, [parse_operand] returns exactly when it is
    [NUM] or [IDENTIFIER], and otherwise throws a [ParseException] that
    names the token and carries the line of the lexer. *)
Theorem parse_operand_succeeds_iff (ty : type) (st st0 : PState) (t : token) :
  next_token st = OK t st0 →
  ((∃ p st', parse_operand ty st = OK p st') ↔ t = NUM ∨ t = IDENTIFIER) ∧
  (t ≠ NUM → t ≠ IDENTIFIER →
   parse_operand ty st
   = Throw (mkParseException ("Expected an operand, got: " +:+ token_name t)
              (yylineno st0))).
Proof.
  intros Ht. unfold parser.parse_operand.
  rewrite !(bind_run _ _ _ _ _ Ht).
  destruct t;
    try (split; [split; [by intros (p & st' & ?)|by intros [?|?]]
                |intros _ _; reflexivity]).
  - split; [|done]. split; [by left|intros _].
    unfold get_constant, mbind, M_bind, gets, modify, mret, M_ret. simpl.
    by eexists _, _.
  - split; [|done]. split; [by right|intros _].
    unfold mbind, M_bind, gets, modify, mret, M_ret. simpl.
    destruct (identifiers st0 !! str (yylval st0)); by eexists _, _.
Qed.

(** *** What a routine leaves alone *)

Lemma quiet_refl (st : PState) : quiet st st.
Proof. by split. Qed.

Lemma quiet_trans (st1 st2 st3 : PState) :
  quiet st1 st2 → quiet st2 st3 → quiet st1 st3.
Proof. intros [H1 H2] [H3 H4]. split; congruence. Qed.

Lemma ensure_quiet (e : token) (st st' : PState) :
  ensure e st = OK tt st' → quiet st st'.
Proof.
  unfold parser.ensure. intros H. bind_inv H as t st1 Ht.
  case_decide; [done|]. apply mret_OK in H as [_ ->].
  by apply next_token_same in Ht.
Qed.

Lemma parse_type_quiet (o : bool) (ty : type) (st st' : PState) :
  parse_type o st = OK ty st' → quiet st st'.
Proof.
  unfold parser.parse_type. intros H. bind_inv H as t st1 Ht.
  apply next_token_same in Ht. apply (quiet_trans _ st1); [done|].
  assert (Hother : ((if o then unget t;; mret SymbolicType_new
                     else error ("Expecting a type, got: " +:+ token_name t))
                    : M type) st1 = OK ty st' → quiet st1 st').
  { destruct o; [|done]. intros H'. bind_inv H' as u st2 Hu.
    apply mret_OK in H' as [_ ->]. destruct u. by apply unget_same in Hu. }
  destruct t; try (by apply Hother).
  gets_inv H. apply mret_OK in H as [_ ->]. apply quiet_refl.
Qed.

Lemma parse_nsw_nuw_loop_quiet (fuel : nat) (fl fl' : BinOp_Flags)
    (st st' : PState) :
  parse_nsw_nuw_loop fuel fl st = OK fl' st' → quiet st st'.
Proof.
  revert fl st. induction fuel as [|fuel IH]; intros fl st H; [done|].
  simpl in H. bind_inv H as c st1 Hc. apply consumeIf_same in Hc.
  apply (quiet_trans _ st1); [done|]. destruct c; [by eapply IH|].
  bind_inv H as c st2 Hc2. apply consumeIf_same in Hc2.
  apply (quiet_trans _ st2); [done|]. destruct c; [by eapply IH|].
  apply mret_OK in H as [_ ->]. apply quiet_refl.
Qed.

Lemma parse_exact_quiet (fl : BinOp_Flags) (st st' : PState) :
  parse_exact st = OK fl st' → quiet st st'.
Proof.
  unfold parse_exact. intros H. bind_inv H as c st1 Hc.
  apply consumeIf_same in Hc.
  destruct c; apply mret_OK in H as [_ ->]; done.
Qed.

Lemma parse_binop_flags_quiet (fuel : nat) (t : token) (fl : BinOp_Flags)
    (st st' : PState) :
  parse_binop_flags fuel t st = OK fl st' → quiet st st'.
Proof.
  destruct t; simpl; try done; try apply parse_exact_quiet;
    apply parse_nsw_nuw_loop_quiet.
Qed.

(** *** Functions that grow *)

Lemma extends_refl (f : Function) : extends f f.
Proof.
  split_and!; try done. intros bb b Hb. exists b. by split_and!.
Qed.

Lemma extends_trans (f1 f2 f3 : Function) :
  extends f1 f2 → extends f2 f3 → extends f1 f3.
Proof.
  intros (Hi & Hc & Hu & Hb) (Hi' & Hc' & Hu' & Hb').
  split_and!; eauto.
  intros bb b Hbb. destruct (Hb bb b Hbb) as (b2 & Hb2 & Hn2 & Hk2).
  destruct (Hb' bb b2 Hb2) as (b3 & Hb3 & Hn3 & Hk3).
  exists b3. split; [done|]. split; [congruence|]. eauto.
Qed.

Lemma extends_getName (f f' : Function) (p : ValuePtr) (n : string) :
  extends f f' → getName f p = Some n → getName f' p = Some n.
Proof.
  intros (Hi & Hc & Hu & Hb). destruct p as [k|k|k|bb k]; simpl.
  - destruct (inputs f !! k) as [x|] eqn:Hx; [|done].
    by rewrite (Hi k x Hx).
  - destruct (constants f !! k) as [x|] eqn:Hx; [|done].
    by rewrite (Hc k x Hx).
  - destruct (undefs f !! k) as [x|] eqn:Hx; [|done].
    by rewrite (Hu k x Hx).
  - destruct (BBs f !! bb) as [b|] eqn:Hbb; [|done]. simpl.
    destruct (bb_instrs b !! k) as [i|] eqn:Hi'; [|done].
    destruct (Hb bb b Hbb) as (b' & -> & _ & Hk). simpl.
    by rewrite (Hk k i Hi').
Qed.

Lemma extends_valid (f f' : Function) (p : ValuePtr) :
  extends f f' → valid f p → valid f' p.
Proof. intros He [n Hn]. exists n. by eapply extends_getName. Qed.

Lemma quiet_extends (st st' : PState) : quiet st st' → extends (fn st) (fn st').
Proof. intros [_ ->]. apply extends_refl. Qed.

Lemma quiet_well_bound (st st' : PState) :
  quiet st st' → well_bound st → well_bound st'.
Proof. intros [Hi Hf] H id p. rewrite Hi, Hf. apply H. Qed.

(** *** What an operand is *)

Lemma parse_operand_scoped (ty : type) (st st' : PState) (p : ValuePtr) :
  parse_operand ty st = OK p st' →
  well_bound st →
  well_bound st' ∧ valid (fn st') p ∧ extends (fn st) (fn st') ∧
  BBs (fn st') = BBs (fn st).
Proof.
  unfold parser.parse_operand. intros H Hwb.
  bind_inv H as t st1 Ht. apply next_token_same in Ht as [Hi Hf].
  assert (Hwb1 : well_bound st1) by by apply (quiet_well_bound st).
  rewrite <- Hf. clear Hi Hf Hwb.
  destruct t; try done.
  - unfold get_constant, mbind, M_bind, gets, modify, mret, M_ret in H.
    simpl in H. apply OK_inj in H as [<- <-]. simpl.
    assert (He : extends (fn st1)
              (mkFunction (inputs (fn st1))
                 (constants (fn st1)
                  ++ [mkIntConst ty (IntConst_name (num (yylval st1)))
                        (num (yylval st1))])
                 (undefs (fn st1)) (BBs (fn st1)))).
    { split_and!; simpl; try done.
      - intros k x Hk. by apply lookup_app_l_Some.
      - intros bb b Hb. exists b. by split_and!. }
    split_and!; try done.
    + intros id q Hq. simpl in *. eapply extends_valid; [done|].
      by apply (Hwb1 id).
    + unfold valid. simpl. rewrite lookup_app_r by done.
      rewrite Nat.sub_diag. by eexists.
  - unfold mbind, M_bind, gets, modify, mret, M_ret in H. simpl in H.
    destruct (identifiers st1 !! str (yylval st1)) as [q|] eqn:Hq.
    + apply OK_inj in H as [<- <-]. split_and!; try done.
      * by apply (Hwb1 _ _ Hq).
      * apply extends_refl.
    + apply OK_inj in H as [<- <-]. simpl.
      assert (He : extends (fn st1)
                (mkFunction
                   (inputs (fn st1) ++ [mkInput ty (str (yylval st1))])
                   (constants (fn st1)) (undefs (fn st1)) (BBs (fn st1)))).
      { split_and!; simpl; try done.
        - intros k x Hk. by apply lookup_app_l_Some.
        - intros bb b Hb. exists b. by split_and!. }
      assert (Hv : valid
                (mkFunction
                   (inputs (fn st1) ++ [mkInput ty (str (yylval st1))])
                   (constants (fn st1)) (undefs (fn st1)) (BBs (fn st1)))
                (InputPtr (length (inputs (fn st1))))).
      { unfold valid. simpl. rewrite lookup_app_r by done.
        rewrite Nat.sub_diag. by eexists. }
      split_and!; try done.
      intros id q' Hq'. simpl in *.
      destruct (decide (id = str (yylval st1))) as [->|Hne].
      * rewrite lookup_insert_eq in Hq'. by injection Hq' as <-.
      * rewrite lookup_insert_ne in Hq' by done.
        eapply extends_valid; [done|]. by apply (Hwb1 id).
Qed.

(** *** The steps only add to the function *)

Lemma parse_operand_extends (ty : type) (st st' : PState) (p : ValuePtr) :
  parse_operand ty st = OK p st' → extends (fn st) (fn st').
Proof.
  unfold parser.parse_operand. intros H.
  bind_inv H as t st1 Ht. apply next_token_same in Ht as [Hi Hf].
  rewrite <- Hf. clear Hi Hf.
  destruct t; try done.
  - unfold get_constant, mbind, M_bind, gets, modify, mret, M_ret in H.
    simpl in H. apply OK_inj in H as [<- <-]. simpl.
    split_and!; simpl; try done.
    + intros k x Hk. by apply lookup_app_l_Some.
    + intros bb b Hb. exists b. by split_and!.
  - unfold mbind, M_bind, gets, modify, mret, M_ret in H. simpl in H.
    destruct (identifiers st1 !! str (yylval st1)) as [q|] eqn:Hq;
      apply OK_inj in H as [<- <-]; [apply extends_refl|]. simpl.
    split_and!; simpl; try done.
    + intros k x Hk. by apply lookup_app_l_Some.
    + intros bb b Hb. exists b. by split_and!.
Qed.

(** [Function::getBB] returns a block of the function and adds at most an
    empty block. *)
Lemma getBB_effect (name : string) (k : nat) (st st' : PState) :
  getBB name st = OK k st' →
  lexer st' = lexer st ∧ tokenizer st' = tokenizer st ∧
  identifiers st' = identifiers st ∧
  inputs (fn st') = inputs (fn st) ∧ constants (fn st') = constants (fn st) ∧
  undefs (fn st') = undefs (fn st) ∧
  (k < length (BBs (fn st')))%nat ∧
  (BBs (fn st') = BBs (fn st) ∨
   BBs (fn st') = BBs (fn st) ++ [mkBasicBlock name []]).
Proof.
  unfold getBB, mbind, M_bind, gets, modify, mret, M_ret. simpl.
  destruct (list_find _ _) as [[j b]|] eqn:Hf; intros H;
    apply OK_inj in H as [<- <-]; simpl; split_and!; try done.
  - apply list_find_Some in Hf as (Hj & _). by apply lookup_lt_Some in Hj.
  - by left.
  - rewrite length_app. simpl. lia.
  - by right.
Qed.

(** [BasicBlock::addIntr] appends the instruction to the block. *)
Lemma addIntr_effect (bb : nat) (i : Instr) (st st' : PState) :
  addIntr bb i st = OK tt st' →
  ∃ b, BBs (fn st) !! bb = Some b ∧
       st' = with_fn
               (mkFunction (inputs (fn st)) (constants (fn st)) (undefs (fn st))
                  (<[bb := mkBasicBlock (bb_name b) (bb_instrs b ++ [i])]>
                     (BBs (fn st)))) st.
Proof.
  unfold addIntr, mbind, M_bind, gets, modify, abort. simpl.
  destruct (BBs (fn st) !! bb) as [b|]; [|done]. intros H.
  apply OK_inj in H as [_ <-]. by exists b.
Qed.

Lemma insert_block_extends (f : Function) (bb : nat) (b : BasicBlock) (i : Instr) :
  BBs f !! bb = Some b →
  extends f (mkFunction (inputs f) (constants f) (undefs f)
               (<[bb := mkBasicBlock (bb_name b) (bb_instrs b ++ [i])]> (BBs f))).
Proof.
  intros Hb. split_and!; simpl; try done.
  intros bb' b' Hb'. destruct (decide (bb' = bb)) as [->|Hne].
  - rewrite Hb in Hb'. injection Hb' as <-.
    eexists. split.
    + apply list_lookup_insert_eq. by apply lookup_lt_Some in Hb.
    + split; [done|]. simpl. intros k j Hk. by apply lookup_app_l_Some.
  - exists b'. rewrite list_lookup_insert_ne by done. by split_and!.
Qed.

Lemma step_extends (st st' : PState) :
  step token_name IntConst_name st st' → extends (fn st) (fn st').
Proof.
  intros [t H|t H|e b H|t H|ty p H|name p H|name k H|bb i H].
  - apply next_token_same in H. by apply quiet_extends.
  - apply peek_same in H. by apply quiet_extends.
  - apply consumeIf_same in H. by apply quiet_extends.
  - apply unget_same in H. by apply quiet_extends.
  - by eapply parse_operand_extends.
  - unfold emplace, mbind, M_bind, gets, modify, mret, M_ret in H.
    simpl in H. destruct (identifiers st !! name);
      apply OK_inj in H as [_ <-]; apply extends_refl.
  - apply getBB_effect in H as (_ & _ & _ & Hi & Hc & Hu & _ & Hb).
    split_and!; try (by rewrite ?Hi, ?Hc, ?Hu).
    intros bb b Hbb. exists b. split; [|by split].
    destruct Hb as [-> | ->]; [done|]. by apply lookup_app_l_Some.
  - apply addIntr_effect in H as (b & Hb & ->). simpl.
    by apply insert_block_extends.
Qed.

Lemma later_extends (st st' : PState) : later st st' → extends (fn st) (fn st').
Proof.
  induction 1 as [st|st1 st2 st3 Hs _ IH]; [apply extends_refl|].
  eapply extends_trans; [by apply step_extends|done].
Qed.

(** X21. Numbers are not shared.  A numeric operand always creates a new
    constant of the operand type, appended to the constants of the
    function, and binds no identifier; the constant stays where it is, and
    every later numeric operand, even of the same number, is another
    constant. *)
Theorem parse_operand_number (ty : type) (st st0 : PState) :
  next_token st = OK NUM st0 →
  let n := num (yylval st0) in
  let p := ConstantPtr (length (constants (fn st))) in
  ∃ st1,
    parse_operand ty st = OK p st1 ∧
    constants (fn st1) = constants (fn st) ++ [mkIntConst ty (IntConst_name n) n] ∧
    identifiers st1 = identifiers st ∧
    inputs (fn st1) = inputs (fn st) ∧
    ∀ st2, later st1 st2 →
      constants (fn st2) !! length (constants (fn st))
        = Some (mkIntConst ty (IntConst_name n) n) ∧
      ∀ ty' st3 p',
        next_token st2 = OK NUM st3 →
        (∃ st4, parse_operand ty' st2 = OK p' st4) →
        p' ≠ p.
Proof.
  intros Ht n p.
  pose proof (next_token_same _ _ _ Ht) as [Hi Hf].
  assert (Hnum : ∀ ty' s s0, next_token s = OK NUM s0 →
            parse_operand ty' s
            = OK (ConstantPtr (length (constants (fn s))))
                (with_fn (mkFunction (inputs (fn s))
                            (constants (fn s)
                             ++ [mkIntConst ty' (IntConst_name (num (yylval s0)))
                                   (num (yylval s0))])
                            (undefs (fn s)) (BBs (fn s))) s0)).
  { intros ty' s s0 Hs. unfold parser.parse_operand.
    rewrite (bind_run _ _ _ _ _ Hs).
    apply next_token_same in Hs as [_ Hfs].
    unfold get_constant, mbind, M_bind, gets, modify, mret, M_ret. simpl.
    by rewrite Hfs. }
  eexists. split; [by apply Hnum|]. simpl. split; [done|].
  split; [done|]. split; [done|].
  intros st2 Hlater. apply later_extends in Hlater as (_ & Hc & _). simpl in Hc.
  assert (Hk : constants (fn st2) !! length (constants (fn st))
               = Some (mkIntConst ty (IntConst_name n) n)).
  { apply Hc. rewrite lookup_app_r by done. by rewrite Nat.sub_diag. }
  split; [done|].
  intros ty' st3 p' Ht3 [st4 Hp']. rewrite (Hnum ty' st2 st3 Ht3) in Hp'.
  apply OK_inj in Hp' as [<- _]. unfold p. intros [= Heq].
  apply lookup_lt_Some in Hk. lia.
Qed.

(** *** Flags *)

Lemma parse_nsw_nuw_loop_exact (fuel : nat) (fl fl' : BinOp_Flags)
    (st st' : PState) :
  parse_nsw_nuw_loop fuel fl st = OK fl' st' → exact fl' = exact fl.
Proof.
  revert fl st. induction fuel as [|fuel IH]; intros fl st H; [done|].
  simpl in H. bind_inv H as c st1 Hc.
  destruct c.
  { apply IH in H. rewrite H. simpl. by rewrite orb_false_r. }
  bind_inv H as c st2 Hc2. destruct c.
  { apply IH in H. rewrite H. simpl. by rewrite orb_false_r. }
  by apply mret_OK in H as [-> _].
Qed.

Lemma parse_exact_flags (fl : BinOp_Flags) (st st' : PState) :
  parse_exact st = OK fl st' → nsw fl = false ∧ nuw fl = false.
Proof.
  unfold parse_exact. intros H. bind_inv H as c st1 Hc.
  destruct c; by apply mret_OK in H as [-> _].
Qed.

Lemma parse_binop_shape (fuel : nat) (name : string) (t : token) (i : Instr)
    (st st' : PState) :
  parse_binop fuel name t st = OK i st' →
  ∃ ty a b op fl, i = BinOp ty name a b op fl ∧ flags_valid op fl.
Proof.
  unfold parser.parse_binop. intros H.
  bind_inv H as fl st1 H1. bind_inv H as ty st2 H2.
  bind_inv H as a st3 H3. bind_inv H as u st4 H4. bind_inv H as b st5 H5.
  assert (Hnn : ∀ s s', parse_nsw_nuw fuel s = OK fl s' → exact fl = false).
  { intros s s' Hs. by apply parse_nsw_nuw_loop_exact in Hs. }
  destruct t; try done; simpl in H1; apply mret_OK in H as [-> _];
    eexists _, _, _, _, _; (split; [reflexivity|]); simpl;
    first [by eapply Hnn | by eapply parse_exact_flags].
Qed.


(** X22. The parser builds only instructions whose flags fit the
    operation: an instruction that [parse_instr] returns is a binary
    operation of the given name, without [exact] when it is an addition, a
    subtraction, a multiplication or a left shift, and without [nsw] and
    [nuw] when it is a division or a right shift. *)
Theorem parse_instr_flags_valid (fuel : nat) (name : string) (i : Instr)
    (st st' : PState) :
  parse_instr fuel name st = OK i st' →
  ∃ ty a b op fl, i = BinOp ty name a b op fl ∧ flags_valid op fl.
Proof.
  unfold parser.parse_instr. intros H.
  bind_inv H as u st1 H1. bind_inv H as t st2 H2.
  destruct t; try done; by eapply parse_binop_shape.
Qed.

(** *** No dangling operands *)

Lemma well_scoped_extends (f f' : Function) :
  extends f f' → BBs f' = BBs f → well_scoped f → well_scoped f'.
Proof.
  intros He Hb Hws bb b k i Hbb Hi. rewrite Hb in Hbb.
  eapply Forall_impl; [by eapply Hws|]. intros p. by apply extends_valid.
Qed.

Lemma quiet_scoped (st st' : PState) : quiet st st' → scoped st → scoped st'.
Proof.
  intros Hq [Hwb Hws]. split; [by eapply quiet_well_bound|].
  destruct Hq as [_ ->]. done.
Qed.

Lemma parse_operand_scoped' (ty : type) (st st' : PState) (p : ValuePtr) :
  parse_operand ty st = OK p st' →
  scoped st →
  scoped st' ∧ valid (fn st') p ∧ extends (fn st) (fn st') ∧
  BBs (fn st') = BBs (fn st).
Proof.
  intros H [Hwb Hws].
  destruct (parse_operand_scoped ty st st' p H Hwb) as (Hwb' & Hv & He & Hb).
  split_and!; try done. split; [done|]. by eapply well_scoped_extends.
Qed.

Lemma parse_binop_scoped (fuel : nat) (name : string) (t : token) (i : Instr)
    (st st' : PState) :
  parse_binop fuel name t st = OK i st' →
  scoped st →
  scoped st' ∧ Forall (valid (fn st')) (operands i) ∧
  extends (fn st) (fn st') ∧ BBs (fn st') = BBs (fn st).
Proof.
  unfold parser.parse_binop. intros H Hs.
  bind_inv H as fl st1 H1. apply parse_binop_flags_quiet in H1.
  bind_inv H as ty st2 H2. apply parse_type_quiet in H2.
  pose proof (quiet_trans _ _ _ H1 H2) as Hq.
  apply (quiet_scoped _ _ Hq) in Hs.
  bind_inv H as a st3 H3.
  destruct (parse_operand_scoped' _ _ _ _ H3 Hs) as (Hs3 & Hva & He3 & Hb3).
  bind_inv H as u st4 H4. destruct u. apply ensure_quiet in H4.
  apply (quiet_scoped _ _ H4) in Hs3.
  bind_inv H as b st5 H5.
  destruct (parse_operand_scoped' _ _ _ _ H5 Hs3) as (Hs5 & Hvb & He5 & Hb5).
  destruct Hq as [_ Hqf]. destruct H4 as [_ H4f].
  rewrite H4f in He5, Hb5. rewrite Hqf in He3, Hb3.
  assert (Hva' : valid (fn st5) a) by by eapply extends_valid.
  assert (Hops : ∀ op, Forall (valid (fn st5)) (operands (BinOp ty name a b op fl)))
    by (intros op; simpl; by repeat constructor).
  assert (He : extends (fn st) (fn st5)) by by eapply extends_trans.
  assert (Hb : BBs (fn st5) = BBs (fn st)) by congruence.
  destruct t; try done; by apply mret_OK in H as [-> ->].
Qed.

Lemma parse_instr_scoped (fuel : nat) (name : string) (i : Instr)
    (st st' : PState) :
  parse_instr fuel name st = OK i st' →
  scoped st →
  scoped st' ∧ Forall (valid (fn st')) (operands i) ∧
  extends (fn st) (fn st') ∧ BBs (fn st') = BBs (fn st).
Proof.
  unfold parser.parse_instr. intros H Hs.
  bind_inv H as u st1 H1. destruct u. apply ensure_quiet in H1.
  bind_inv H as t st2 H2. apply next_token_same in H2.
  pose proof (quiet_trans _ _ _ H1 H2) as Hq.
  apply (quiet_scoped _ _ Hq) in Hs. destruct Hq as [_ Hqf].
  rewrite <- Hqf.
  destruct t; try done; by eapply parse_binop_scoped.
Qed.

Lemma parse_return_scoped (i : Instr) (st st' : PState) :
  parse_return st = OK i st' →
  scoped st →
  scoped st' ∧ Forall (valid (fn st')) (operands i) ∧
  extends (fn st) (fn st') ∧ BBs (fn st') = BBs (fn st).
Proof.
  unfold parser.parse_return. intros H Hs.
  bind_inv H as ty st1 H1. apply parse_type_quiet in H1.
  apply (quiet_scoped _ _ H1) in Hs. destruct H1 as [_ H1f].
  bind_inv H as val st2 H2.
  destruct (parse_operand_scoped' _ _ _ _ H2 Hs) as (Hs2 & Hv & He & Hb).
  apply mret_OK in H as [-> ->]. rewrite H1f in He, Hb.
  split_and!; try done. simpl. by repeat constructor.
Qed.

(** Adding an instruction whose operands are values of the function. *)
Lemma addIntr_scoped (bb : nat) (i : Instr) (st st' : PState) :
  addIntr bb i st = OK tt st' →
  scoped st →
  Forall (valid (fn st)) (operands i) →
  scoped st' ∧ extends (fn st) (fn st') ∧
  length (BBs (fn st')) = length (BBs (fn st)) ∧
  ∃ b, BBs (fn st) !! bb = Some b ∧
       getName (fn st') (InstrPtr bb (length (bb_instrs b)))
       = Some (Instr_getName i).
Proof.
  intros H [Hwb Hws] Hops.
  apply addIntr_effect in H as (b & Hb & ->). simpl.
  pose proof (insert_block_extends (fn st) bb b i Hb) as He.
  assert (Hlt : (bb < length (BBs (fn st)))%nat) by by apply lookup_lt_Some in Hb.
  split_and!.
  - split.
    + intros id p Hp. simpl in *. eapply extends_valid; [done|].
      by apply (Hwb id).
    + intros bb' b' k j Hbb' Hj. simpl in Hbb'.
      eapply Forall_impl; [|intros p; by apply extends_valid].
      destruct (decide (bb' = bb)) as [->|Hne].
      * rewrite list_lookup_insert_eq in Hbb' by done.
        injection Hbb' as <-. simpl in Hj.
        apply lookup_app_Some in Hj as [Hj|[_ Hj]]; [by eapply Hws|].
        apply list_lookup_singleton_Some in Hj as [_ <-]. done.
      * rewrite list_lookup_insert_ne in Hbb' by done. by eapply Hws.
  - done.
  - by rewrite length_insert.
  - exists b. split; [done|]. simpl.
    rewrite list_lookup_insert_eq by done. simpl.
    rewrite lookup_app_r by done. by rewrite Nat.sub_diag.
Qed.

Lemma parse_stmt_scoped (fuel bb : nat) (r : option nat) (st st' : PState) :
  parse_stmt fuel bb st = OK r st' →
  scoped st →
  (bb < length (BBs (fn st)))%nat →
  scoped st' ∧ ∀ bb', r = Some bb' → (bb' < length (BBs (fn st')))%nat.
Proof.
  unfold parser.parse_stmt. intros H Hs Hbb. bind_inv H as t st1 Ht.
  apply next_token_same in Ht. apply (quiet_scoped _ _ Ht) in Hs.
  destruct Ht as [_ Htf]. rewrite <- Htf in Hbb. clear Htf.
  assert (Hother : (unget t;; mret None : M (option nat)) st1 = OK r st' →
            scoped st' ∧ ∀ bb', r = Some bb' → (bb' < length (BBs (fn st')))%nat).
  { intros H'. bind_inv H' as u st2 Hu. apply mret_OK in H' as [-> ->].
    destruct u. apply unget_same in Hu.
    split; [by apply (quiet_scoped _ _ Hu)|done]. }
  destruct t; try (by apply Hother).
  - (* an instruction *)
    gets_inv H. bind_inv H as i st2 Hi.
    destruct (parse_instr_scoped _ _ _ _ _ Hi Hs) as (Hs2 & Hops & He & Hb).
    bind_inv H as p st3 Hp.
    pose proof (next_instr_same _ _ _ _ Hp) as ->.
    unfold next_instr in Hp. apply bind_OK in Hp as (f0 & s0 & Hg & Hp).
    apply gets_OK in Hg as [-> ->].
    destruct (BBs (fn st2) !! bb) as [b|] eqn:Hblk; [|done].
    apply mret_OK in Hp as [-> _].
    bind_inv H as u st4 He4. destruct u.
    bind_inv H as u st5 Ha. destruct u.
    apply mret_OK in H as [-> ->].
    (* [emplace] may bind the name to the instruction that comes next *)
    assert (Hem : fn st4 = fn st2 ∧
              ∀ id q, identifiers st4 !! id = Some q →
                      identifiers st2 !! id = Some q
                      ∨ q = InstrPtr bb (length (bb_instrs b))).
    { unfold emplace, mbind, M_bind, gets, modify, mret, M_ret in He4.
      simpl in He4.
      destruct (identifiers st2 !! str (yylval st1)) eqn:Hid;
        apply OK_inj in He4 as [_ <-]; (split; [done|]); simpl.
      - intros id q Hq. by left.
      - intros id q Hq. destruct (decide (id = str (yylval st1))) as [->|Hne].
        + rewrite lookup_insert_eq in Hq. injection Hq as <-. by right.
        + rewrite lookup_insert_ne in Hq by done. by left. }
    destruct Hem as [Hf4 Hids].
    pose proof (addIntr_effect _ _ _ _ Ha) as (b' & Hb' & Hst5).
    rewrite Hf4, Hblk in Hb'. injection Hb' as <-.
    assert (He5 : extends (fn st2) (fn st5)).
    { rewrite Hst5. simpl. rewrite Hf4. by apply insert_block_extends. }
    assert (Hlt : (bb < length (BBs (fn st2)))%nat)
      by by apply lookup_lt_Some in Hblk.
    split; [|intros bb' [= <-]; rewrite Hst5; simpl;
             by rewrite length_insert, Hf4].
    destruct Hs2 as [Hwb2 Hws2]. split.
    + intros id q Hq. rewrite Hst5 in Hq. simpl in Hq.
      destruct (Hids id q Hq) as [Hold| ->].
      * eapply extends_valid; [done|]. by apply (Hwb2 id).
      * rewrite Hst5. unfold valid. simpl. rewrite Hf4.
        rewrite list_lookup_insert_eq by done. simpl.
        rewrite lookup_app_r by done. rewrite Nat.sub_diag. by eexists.
    + intros bb' b0 k j Hbb' Hj.
      eapply Forall_impl; [|intros q; by apply (extends_valid (fn st2))].
      rewrite Hst5 in Hbb'. simpl in Hbb'. rewrite Hf4 in Hbb'.
      destruct (decide (bb' = bb)) as [->|Hne].
      * rewrite list_lookup_insert_eq in Hbb' by done.
        injection Hbb' as <-. simpl in Hj.
        apply lookup_app_Some in Hj as [Hj|[_ Hj]]; [by eapply Hws2|].
        apply list_lookup_singleton_Some in Hj as [_ <-]. done.
      * rewrite list_lookup_insert_ne in Hbb' by done. by eapply Hws2.
  - (* a label *)
    gets_inv H. bind_inv H as k st2 Hk. apply mret_OK in H as [-> ->].
    apply getBB_effect in Hk as (_ & _ & Hi & Hin & Hc & Hu & Hlt & Hb).
    destruct Hs as [Hwb Hws].
    assert (He : extends (fn st1) (fn st2)).
    { split_and!; try (by rewrite ?Hin, ?Hc, ?Hu).
      intros bb0 b0 Hbb0. exists b0. split; [|by split].
      destruct Hb as [-> | ->]; [done|]. by apply lookup_app_l_Some. }
    split; [|by intros bb' [= <-]]. split.
    + intros id q Hq. rewrite Hi in Hq. eapply extends_valid; [done|].
      by apply (Hwb id).
    + intros bb' b0 k' j Hbb' Hj.
      eapply Forall_impl; [|intros q; by apply (extends_valid (fn st1))].
      destruct Hb as [Hb|Hb]; rewrite Hb in Hbb'; [by eapply Hws|].
      apply lookup_app_Some in Hbb' as [Hbb'|[_ Hbb']]; [by eapply Hws|].
      apply list_lookup_singleton_Some in Hbb' as [_ <-]. done.
  - (* a return *)
    bind_inv H as i st2 Hi.
    destruct (parse_return_scoped _ _ _ Hi Hs) as (Hs2 & Hops & He & Hb).
    bind_inv H as u st3 Ha. destruct u. apply mret_OK in H as [-> ->].
    destruct (addIntr_scoped _ _ _ _ Ha Hs2 Hops) as (Hs3 & _ & Hlen & _).
    split; [done|]. intros bb' [= <-]. rewrite Hlen, Hb. done.
  - (* unreachable *)
    bind_inv H as u st2 Ha. destruct u. apply mret_OK in H as [-> ->].
    destruct (addIntr_scoped _ _ _ _ Ha Hs) as (Hs2 & _ & Hlen & _);
      [by apply Forall_nil_2|].
    split; [done|]. intros bb' [= <-]. by rewrite Hlen.
Qed.

Lemma parse_fn_loop_scoped (fuel bb : nat) (st st' : PState) :
  parse_fn_loop fuel bb st = OK tt st' →
  scoped st →
  (bb < length (BBs (fn st)))%nat →
  scoped st'.
Proof.
  revert bb st. induction fuel as [|fuel IH]; intros bb st H Hs Hbb; [done|].
  cbn [parser.parse_fn_loop] in H. bind_inv H as r st1 Hr.
  destruct (parse_stmt_scoped _ _ _ _ _ Hr Hs Hbb) as [Hs1 Hbb1].
  destruct r as [bb'|].
  - eapply IH; [done|done|]. by apply Hbb1.
  - by apply mret_OK in H as [_ ->].
Qed.

(** X23. The parser leaves no dangling reference.  In the function that
    [parse_fn] returns, every operand of every instruction points to an
    input, a constant or an instruction of that function, and so does
    every binding of the identifier table it leaves. *)
Theorem parse_fn_well_scoped (fuel : nat) (st st' : PState) (f : Function) :
  parse_fn fuel st = OK f st' →
  f = fn st' ∧ well_scoped f ∧ well_bound st'.
Proof.
  unfold parser.parse_fn. intros H.
  bind_inv H as u st1 H1. destruct u. apply OK_inj in H1 as [_ <-].
  bind_inv H as u st2 H2. destruct u. apply OK_inj in H2 as [_ <-].
  bind_inv H as bb st3 H3.
  bind_inv H as u st4 H4. destruct u. apply gets_OK in H as [-> ->].
  pose proof (getBB_effect _ _ _ _ H3) as (_ & _ & Hi & _ & _ & _ & Hlt & Hb).
  simpl in Hi, Hb.
  assert (Hs3 : scoped st3).
  { split.
    - intros id q Hq. rewrite Hi in Hq. by rewrite lookup_empty in Hq.
    - intros bb0 b0 k j Hbb0 Hj.
      destruct Hb as [Hb|Hb]; rewrite Hb in Hbb0; [done|].
      simpl in Hbb0. apply list_lookup_singleton_Some in Hbb0 as [_ <-].
      done. }
  destruct (parse_fn_loop_scoped _ _ _ _ H4 Hs3 Hlt) as [Hwb Hws].
  done.
Qed.

(** *** The body of a function *)

(** The tokenizer does not look at the identifier table or the function. *)
Lemma next_token_frame (st st0 : PState) (t : token)
    (ids : gmap string ValuePtr) (f : Function) :
  next_token st = OK t st0 →
  next_token (with_fn f (with_identifiers ids st))
  = OK t (with_fn f (with_identifiers ids st0)).
Proof.
  unfold next_token, get_new_token, yylex, mbind, M_bind, gets, modify, mret,
    M_ret. simpl.
  destruct (returned (tokenizer st)) eqn:Hr; simpl.
  - intros H. apply OK_inj in H as [<- <-]. done.
  - destruct (lexer st) as [|[e|l] rest]; simpl; [|done|];
      intros H; apply OK_inj in H as [<- <-]; done.
Qed.

(** X24. A function body may be empty.  When the next token does not
    start a statement (it is not an identifier, a label, [ret] or
    [unreachable]), [parse_fn] returns the function that has the entry
    block, named by the empty string, and nothing else; the token is not
    consumed, and the identifier table is empty. *)
Theorem parse_fn_empty_body (fuel : nat) (st st0 : PState) (t : token) :
  next_token st = OK t st0 →
  t ∉ [IDENTIFIER; LABEL; RETURN; UNREACH] →
  ∃ st', parse_fn (S fuel) st
         = OK (mkFunction [] [] [] [mkBasicBlock "" []]) st' ∧
         peek st' = OK t st' ∧
         identifiers st' = ∅.
Proof.
  intros Ht Hnot.
  pose proof (next_token_returned _ _ _ Ht) as Hr.
  pose proof (next_token_frame st st0 t ∅
                (mkFunction [] [] [] [mkBasicBlock "" []]) Ht) as Hf.
  exists (with_tokenizer (mkTokenizer t true)
            (with_fn (mkFunction [] [] [] [mkBasicBlock "" []])
               (with_identifiers ∅ st0))).
  split; [|split; [reflexivity|done]].
  set (f0 := mkFunction [] [] [] [mkBasicBlock "" []]) in *.
  set (s1 := with_fn f0 (with_identifiers ∅ st)) in *.
  assert (E : parse_fn (S fuel) st
              = (parse_fn_loop (S fuel) 0%nat ;; gets fn) s1) by reflexivity.
  rewrite E. clear E.
  assert (Hunget : ∀ s, returned (tokenizer s) = false →
            (unget t;; mret None : M (option nat)) s
            = OK None (with_tokenizer (mkTokenizer t true) s)).
  { intros s Hs. unfold unget, mbind, M_bind, gets, modify, mret, M_ret.
    simpl. by rewrite Hs. }
  assert (Hstmt : parse_stmt (S fuel) 0%nat s1
                  = OK None (with_tokenizer (mkTokenizer t true)
                               (with_fn f0 (with_identifiers ∅ st0)))).
  { unfold parser.parse_stmt. rewrite (bind_run _ _ _ _ _ Hf).
    destruct t; try (by apply Hunget);
      exfalso; apply Hnot; repeat constructor. }
  cbn [parser.parse_fn_loop].
  unfold mbind at 1. unfold M_bind at 1.
  rewrite (bind_run _ _ _ _ _ Hstmt). reflexivity.
Qed.




(** *** Termination of the loops *)

(** Where a token that is read comes from. *)
Lemma next_token_cases (st st1 : PState) (t : token) :
  next_token st = OK t st1 →
  returned (tokenizer st1) = false ∧
  ((returned (tokenizer st) = true ∧ lexer st1 = lexer st) ∨
   (returned (tokenizer st) = false ∧ lexer st = [] ∧ lexer st1 = [] ∧ t = END) ∨
   (returned (tokenizer st) = false ∧ ∃ l, lexer st = inr l :: lexer st1)).
Proof.
  unfold next_token, get_new_token, yylex, mbind, M_bind, gets, modify, mret,
    M_ret. simpl.
  destruct (returned (tokenizer st)) eqn:Hr; simpl.
  - intros H. apply OK_inj in H as [<- <-]. simpl. split; [done|]. by left.
  - destruct (lexer st) as [|[e|l] rest] eqn:Hl; simpl; [|done|];
      intros H; apply OK_inj in H as [<- <-]; simpl; (split; [done|]); right.
    + by left.
    + right. split; [done|]. by exists l.
Qed.

Lemma next_token_pending (st st1 : PState) (t : token) :
  next_token st = OK t st1 →
  (pending st1 ≤ pending st)%nat ∧ (t ≠ END → pending st1 < pending st)%nat.
Proof.
  intros H. apply next_token_cases in H as [Hr1 H]. unfold pending.
  rewrite Hr1.
  destruct H as [[Hr Hl]|[(Hr & Hl & Hl1 & Ht)|(Hr & l & Hl)]]; rewrite Hr.
  - rewrite Hl. lia.
  - rewrite Hl, Hl1. split; [lia|done].
  - rewrite Hl. simpl. lia.
Qed.

Lemma next_token_length (st st1 : PState) (t : token) :
  next_token st = OK t st1 →
  (length (lexer st1) ≤ length (lexer st))%nat.
Proof.
  intros H. apply next_token_cases in H as [_ H].
  destruct H as [[_ Hl]|[(_ & Hl & Hl1 & _)|(_ & l & Hl)]]; rewrite Hl;
    [done|by rewrite Hl1|simpl; lia].
Qed.

Lemma peek_length (st st1 : PState) (t : token) :
  peek st = OK t st1 → (length (lexer st1) ≤ length (lexer st))%nat.
Proof.
  unfold peek, get_new_token, yylex, mbind, M_bind, gets, modify, mret, M_ret.
  simpl.
  destruct (returned (tokenizer st)); simpl.
  - intros H. by apply OK_inj in H as [_ <-].
  - destruct (lexer st) as [|[e|l] rest] eqn:Hl; simpl; [|done|];
      intros H; apply OK_inj in H as [_ <-]; simpl; rewrite ?Hl; simpl; lia.
Qed.

Lemma consumeIf_length (e : token) (b : bool) (st st1 : PState) :
  consumeIf e st = OK b st1 → (length (lexer st1) ≤ length (lexer st))%nat.
Proof.
  unfold consumeIf. intros H. bind_inv H as t st0 Hp.
  apply peek_length in Hp. case_decide.
  - unfold mbind, M_bind, gets, modify, mret, M_ret in H. simpl in H.
    by apply OK_inj in H as [_ <-].
  - by apply mret_OK in H as [_ ->].
Qed.

Lemma step_length (st st' : PState) :
  step token_name IntConst_name st st' →
  (length (lexer st') ≤ length (lexer st))%nat.
Proof.
  intros [t H|t H|e b H|t H|ty p H|name p H|name k H|bb i H].
  - by eapply next_token_length.
  - by eapply peek_length.
  - by eapply consumeIf_length.
  - unfold unget, mbind, M_bind, gets, modify, abort in H. simpl in H.
    destruct (returned (tokenizer st)); [done|].
    by apply OK_inj in H as [_ <-].
  - unfold parser.parse_operand in H. bind_inv H as t st1 Ht.
    apply next_token_length in Ht.
    assert (lexer st' = lexer st1) as ->; [|done].
    destruct t; try done.
    + unfold get_constant, mbind, M_bind, gets, modify, mret, M_ret in H.
      simpl in H. by apply OK_inj in H as [_ <-].
    + unfold mbind, M_bind, gets, modify, mret, M_ret in H. simpl in H.
      destruct (identifiers st1 !! str (yylval st1));
        by apply OK_inj in H as [_ <-].
  - unfold emplace, mbind, M_bind, gets, modify, mret, M_ret in H.
    simpl in H. destruct (identifiers st !! name);
      by apply OK_inj in H as [_ <-].
  - apply getBB_effect in H as (-> & _). done.
  - apply addIntr_effect in H as (b & _ & ->). done.
Qed.

Lemma later_length (st st' : PState) :
  later st st' → (length (lexer st') ≤ length (lexer st))%nat.
Proof.
  induction 1 as [st|st1 st2 st3 Hs _ IH]; [done|].
  apply step_length in Hs. lia.
Qed.

Lemma pending_bound (st : PState) :
  (pending st ≤ 2 * length (lexer st) + 1)%nat ∧
  (2 * length (lexer st) ≤ pending st)%nat.
Proof. unfold pending. destruct (returned (tokenizer st)); lia. Qed.

(** A token read when none was put back comes from the lexer. *)
Lemma next_token_fresh (st st1 : PState) (t : token) :
  next_token st = OK t st1 →
  returned (tokenizer st) = false →
  (lexer st = [] ∧ t = END ∧ st1 = st) ∨
  (length (lexer st1) < length (lexer st))%nat.
Proof.
  unfold next_token, get_new_token, yylex, mbind, M_bind, gets, modify, mret,
    M_ret. simpl. intros H Hr. rewrite Hr in H. simpl in H.
  destruct (lexer st) as [|[e|l] rest] eqn:Hl; simpl in H; [|done|];
    apply OK_inj in H as [<- <-].
  - by left.
  - right. simpl. lia.
Qed.

(** A statement consumes a token. *)
Lemma parse_stmt_pending (fuel bb bb' : nat) (st st' : PState) :
  parse_stmt fuel bb st = OK (Some bb') st' →
  (pending st' < pending st)%nat.
Proof.
  unfold parser.parse_stmt. intros H. bind_inv H as t st1 Ht.
  pose proof (next_token_cases _ _ _ Ht) as [Hr1 _].
  pose proof (next_token_length _ _ _ Ht) as Hlen1.
  pose proof (next_token_pending _ _ _ Ht) as [_ Hpend].
  assert (Hstrict : ∀ s, (length (lexer s) < length (lexer st1))%nat →
                         (pending s < pending st)%nat).
  { intros s Hs. pose proof (pending_bound s). pose proof (pending_bound st).
    lia. }
  destruct t;
    try (bind_inv H as u st2 Hu; by apply mret_OK in H as [? _]).
  - (* an instruction: the token [=] comes from the lexer *)
    gets_inv H. bind_inv H as i st2 Hi.
    bind_inv H as p st3 Hp. apply next_instr_same in Hp as ->.
    bind_inv H as u st4 He. destruct u.
    bind_inv H as u st5 Ha. destruct u. apply mret_OK in H as [_ ->].
    apply addIntr_effect in Ha as (b & _ & ->).
    assert (Hst4 : lexer st4 = lexer st2 ∧ tokenizer st4 = tokenizer st2).
    { unfold emplace, mbind, M_bind, gets, modify, mret, M_ret in He.
      simpl in He. destruct (identifiers st2 !! str (yylval st1));
        by apply OK_inj in He as [_ <-]. }
    destruct Hst4 as [Hl4 Ht4].
    assert (Hlt : (length (lexer st2) < length (lexer st1))%nat).
    { unfold parser.parse_instr in Hi. bind_inv Hi as u sa Hens.
      destruct u. unfold parser.ensure in Hens. bind_inv Hens as t sb Hnt.
      case_decide as Hne; [done|]. apply mret_OK in Hens as [_ ->].
      assert (t = EQUALS) as -> by (destruct (decide (t = EQUALS)); done).
      destruct (next_token_fresh _ _ _ Hnt Hr1) as [(_ & ? & _)|Hlt]; [done|].
      bind_inv Hi as t' sc Hnt'. apply next_token_length in Hnt'.
      assert (Hrest : (length (lexer st2) ≤ length (lexer sc))%nat).
      { destruct t'; try done;
          apply (parse_binop_later token_name IntType_new SymbolicType_new
                   IntConst_name) in Hi;
          by apply later_length in Hi. }
      lia. }
    unfold pending at 1. simpl. rewrite Hl4, Ht4.
    by apply (Hstrict st2).
  - (* a label *)
    gets_inv H. bind_inv H as k st2 Hk. apply mret_OK in H as [_ ->].
    apply getBB_effect in Hk as (Hl & Htk & _).
    unfold pending at 1. rewrite Hl, Htk. by apply Hpend.
  - (* a return: its operand comes from the lexer *)
    bind_inv H as i st2 Hi.
    bind_inv H as u st3 Ha. destruct u. apply mret_OK in H as [_ ->].
    apply addIntr_effect in Ha as (b & _ & ->).
    assert (Hlt : (length (lexer st2) < length (lexer st1))%nat).
    { unfold parser.parse_return in Hi. bind_inv Hi as ty sa Hty.
      bind_inv Hi as v sb Hop. apply mret_OK in Hi as [_ ->].
      pose proof Hop as Hop'.
      apply (parse_operand_later token_name IntConst_name) in Hop'.
      apply later_length in Hop'.
      unfold parser.parse_type in Hty. bind_inv Hty as t sc Hnt.
      destruct (next_token_fresh _ _ _ Hnt Hr1) as [(Hempty & -> & ->)|Hlt].
      - exfalso. bind_inv Hty as u sd Hu. destruct u.
        apply mret_OK in Hty as [_ ->].
        unfold unget, mbind, M_bind, gets, modify, abort in Hu. simpl in Hu.
        rewrite Hr1 in Hu. apply OK_inj in Hu as [_ <-].
        unfold parser.parse_operand, next_token, mbind, M_bind, gets, modify,
          mret, M_ret, error in Hop. simpl in Hop. done.
      - assert (Hsa : (length (lexer sa) ≤ length (lexer sc))%nat).
        { destruct t;
            try (bind_inv Hty as u sd Hu; destruct u;
                 apply mret_OK in Hty as [_ ->];
                 unfold unget, mbind, M_bind, gets, modify, abort in Hu;
                 simpl in Hu; destruct (returned (tokenizer sc)); [done|];
                 by apply OK_inj in Hu as [_ <-]).
          gets_inv Hty. by apply mret_OK in Hty as [_ ->]. }
        lia. }
    unfold pending at 1. simpl. by apply (Hstrict st2).
  - (* unreachable *)
    bind_inv H as u st2 Ha. destruct u. apply mret_OK in H as [_ ->].
    apply addIntr_effect in Ha as (b & _ & ->).
    unfold pending at 1. simpl. by apply Hpend.
Qed.

Lemma bind_fueled {A B : Type} (m : M A) (f : A → M B) (st : PState) :
  m st ≠ OutOfFuel →
  (∀ x st', m st = OK x st' → f x st' ≠ OutOfFuel) →
  (m ≫= f) st ≠ OutOfFuel.
Proof.
  intros Hm Hf. unfold mbind, M_bind.
  destruct (m st) as [x st'| | |]; try done. by apply Hf.
Qed.

Lemma next_token_fueled (st : PState) : next_token st ≠ OutOfFuel.
Proof.
  unfold next_token, get_new_token, yylex, mbind, M_bind, gets, modify, mret,
    M_ret. simpl.
  destruct (returned (tokenizer st)); simpl; [done|].
  by destruct (lexer st) as [|[e|l] rest].
Qed.

Lemma consumeIf_fueled (e : token) (st : PState) : consumeIf e st ≠ OutOfFuel.
Proof.
  unfold consumeIf, peek, get_new_token, yylex, mbind, M_bind, gets, modify,
    mret, M_ret. simpl.
  destruct (returned (tokenizer st)); simpl.
  - by case_decide.
  - destruct (lexer st) as [|[x|l] rest]; simpl; try done; by case_decide.
Qed.

Lemma ensure_fueled (e : token) (st : PState) : ensure e st ≠ OutOfFuel.
Proof.
  unfold parser.ensure. apply bind_fueled; [apply next_token_fueled|].
  intros t st' _. by case_decide.
Qed.

Lemma unget_fueled (t : token) (st : PState) : unget t st ≠ OutOfFuel.
Proof.
  unfold unget, mbind, M_bind, gets, modify, abort. simpl.
  by destruct (returned (tokenizer st)).
Qed.

Lemma parse_type_fueled (o : bool) (st : PState) : parse_type o st ≠ OutOfFuel.
Proof.
  unfold parser.parse_type. apply bind_fueled; [apply next_token_fueled|].
  intros t st' _.
  assert (Hother : ((if o then unget t;; mret SymbolicType_new
                     else error ("Expecting a type, got: " +:+ token_name t))
                    : M type) st' ≠ OutOfFuel).
  { destruct o; [|done]. apply bind_fueled; [apply unget_fueled|done]. }
  by destruct t.
Qed.

Lemma parse_operand_fueled (ty : type) (st : PState) :
  parse_operand ty st ≠ OutOfFuel.
Proof.
  unfold parser.parse_operand. apply bind_fueled; [apply next_token_fueled|].
  intros t st' _. destruct t; try done.
  unfold mbind, M_bind, gets, modify, mret, M_ret. simpl.
  by destruct (identifiers st' !! str (yylval st')).
Qed.

Lemma addIntr_fueled (bb : nat) (i : Instr) (st : PState) :
  addIntr bb i st ≠ OutOfFuel.
Proof.
  unfold addIntr, mbind, M_bind, gets, modify, abort. simpl.
  by destruct (BBs (fn st) !! bb).
Qed.

(** The two ways in which [consumeIf] returns. *)
Lemma consumeIf_true (e : token) (st st1 : PState) :
  consumeIf e st = OK true st1 →
  ∃ st2, next_token st = OK e st2 ∧
         st1 = with_tokenizer (mkTokenizer e false) st2.
Proof.
  unfold consumeIf, peek, next_token, get_new_token, yylex, mbind, M_bind,
    gets, modify, mret, M_ret. simpl.
  destruct (returned (tokenizer st)) eqn:Hr; simpl.
  - case_decide as Ht; [|done]. intros H. apply OK_inj in H as [_ <-].
    rewrite Ht. by eexists.
  - destruct (lexer st) as [|[x|l] rest]; simpl; [|done|];
      (case_decide as Ht; [|done]); intros H; apply OK_inj in H as [_ <-];
      rewrite Ht; by eexists.
Qed.

Lemma consumeIf_false (e : token) (st st1 : PState) :
  consumeIf e st = OK false st1 →
  ∃ t st2, t ≠ e ∧ next_token st = OK t st2 ∧
           next_token st1 = OK t (with_tokenizer (mkTokenizer t false) st2).
Proof.
  unfold consumeIf, peek, next_token, get_new_token, yylex, mbind, M_bind,
    gets, modify, mret, M_ret. simpl.
  destruct (returned (tokenizer st)) eqn:Hr; simpl.
  - case_decide as Ht; [done|]. intros H. apply OK_inj in H as [_ <-].
    rewrite Hr. by eexists _, _.
  - destruct (lexer st) as [|[x|l] rest]; simpl; [|done|];
      (case_decide as Ht; [done|]); intros H; apply OK_inj in H as [_ <-];
      simpl; by eexists _, _.
Qed.

Lemma pending_consumed (t : token) (st : PState) :
  (pending (with_tokenizer (mkTokenizer t false) st) ≤ pending st)%nat.
Proof. unfold pending. simpl. destruct (returned (tokenizer st)); lia. Qed.

(** Every turn of the loop of [parse_nsw_nuw] that goes on has consumed a
    flag. *)
Lemma parse_nsw_nuw_loop_fueled (fuel : nat) (fl : BinOp_Flags) (st : PState) :
  (pending st < fuel)%nat → parse_nsw_nuw_loop fuel fl st ≠ OutOfFuel.
Proof.
  revert fl st. induction fuel as [|fuel IH]; intros fl st Hp; [lia|].
  simpl. apply bind_fueled; [apply consumeIf_fueled|].
  intros c st1 Hc. destruct c.
  - apply consumeIf_true in Hc as (st2 & Hn & ->). apply IH.
    apply next_token_pending in Hn as [_ Hn].
    pose proof (pending_consumed NSW st2). specialize (Hn ltac:(done)). lia.
  - apply bind_fueled; [apply consumeIf_fueled|].
    intros c st2 Hc2. destruct c; [|done].
    apply consumeIf_false in Hc as (t & sa & Hne & Hn & Hn1).
    apply consumeIf_true in Hc2 as (sb & Hn2 & ->).
    rewrite Hn1 in Hn2. apply OK_inj in Hn2 as [-> <-]. apply IH.
    apply next_token_pending in Hn as [_ Hn]. specialize (Hn ltac:(done)).
    pose proof (pending_consumed NUW sa).
    pose proof (pending_consumed NUW (with_tokenizer (mkTokenizer NUW false) sa)).
    lia.
Qed.

Lemma parse_binop_fueled (fuel : nat) (name : string) (t : token) (st : PState) :
  (pending st < fuel)%nat → parse_binop fuel name t st ≠ OutOfFuel.
Proof.
  intros Hp. unfold parser.parse_binop. apply bind_fueled.
  { destruct t; simpl; try done;
      first [by apply parse_nsw_nuw_loop_fueled
            | apply bind_fueled; [apply consumeIf_fueled|];
              intros c s _; by destruct c]. }
  intros fl st1 _. apply bind_fueled; [apply parse_type_fueled|].
  intros ty st2 _. apply bind_fueled; [apply parse_operand_fueled|].
  intros a st3 _. apply bind_fueled; [apply ensure_fueled|].
  intros u st4 _. apply bind_fueled; [apply parse_operand_fueled|].
  intros b st5 _. by destruct t.
Qed.

Lemma parse_stmt_fueled (fuel bb : nat) (st : PState) :
  (pending st < fuel)%nat → parse_stmt fuel bb st ≠ OutOfFuel.
Proof.
  intros Hp. unfold parser.parse_stmt.
  apply bind_fueled; [apply next_token_fueled|].
  intros t st1 Ht. apply next_token_pending in Ht as [Ht _].
  assert (Hother : (unget t;; mret None : M (option nat)) st1 ≠ OutOfFuel).
  { apply bind_fueled; [apply unget_fueled|done]. }
  destruct t; try done.
  - apply bind_fueled; [done|]. intros v s Hg. apply gets_OK in Hg as [-> ->].
    apply bind_fueled.
    { unfold parser.parse_instr. apply bind_fueled; [apply ensure_fueled|].
      intros u st2 Hens. destruct u.
      unfold parser.ensure in Hens. bind_inv Hens as t st3 Hn.
      case_decide; [done|]. apply mret_OK in Hens as [_ ->].
      apply next_token_pending in Hn as [Hn _].
      apply bind_fueled; [apply next_token_fueled|].
      intros t' st4 Hn'. apply next_token_pending in Hn' as [Hn' _].
      destruct t'; try done; apply parse_binop_fueled; lia. }
    intros i st2 _. apply bind_fueled.
    { unfold next_instr, mbind, M_bind, gets, mret, M_ret, abort. simpl.
      by destruct (BBs (fn st2) !! bb). }
    intros p st3 _. apply bind_fueled.
    { unfold emplace, mbind, M_bind, gets, modify, mret, M_ret. simpl.
      by destruct (identifiers st3 !! str (yylval st1)). }
    intros u st4 _. apply bind_fueled; [apply addIntr_fueled|done].
  - apply bind_fueled; [done|]. intros v s Hg. apply gets_OK in Hg as [-> ->].
    apply bind_fueled; [|done].
    unfold getBB, mbind, M_bind, gets, modify, mret, M_ret. simpl.
    by destruct (list_find _ _) as [[k b]|].
  - apply bind_fueled.
    { unfold parser.parse_return. apply bind_fueled; [apply parse_type_fueled|].
      intros ty st2 _. apply bind_fueled; [apply parse_operand_fueled|done]. }
    intros i st2 _. apply bind_fueled; [apply addIntr_fueled|done].
  - apply bind_fueled; [apply addIntr_fueled|done].
Qed.

Lemma parse_fn_loop_fueled (fuel bb : nat) (st : PState) :
  (pending st < fuel)%nat → parse_fn_loop fuel bb st ≠ OutOfFuel.
Proof.
  revert bb st. induction fuel as [|fuel IH]; intros bb st Hp; [lia|].
  cbn [parser.parse_fn_loop].
  apply bind_fueled; [by apply parse_stmt_fueled|].
  intros r st1 Hr. destruct r as [bb'|]; [|done].
  apply parse_stmt_pending in Hr. apply IH. lia.
Qed.

(** X26. The loops of the parser terminate: every turn of the loop of
    [parse_fn] that goes on has consumed a token, and so has every turn of
    the loop of [parse_nsw_nuw].  With more fuel than the input has tokens
    (counted by [pending]) neither [parse_fn] nor [parse_nsw_nuw] runs out
    of fuel: they return or they throw. *)
Theorem parse_fn_terminates (fuel : nat) (st : PState) :
  (pending st < fuel)%nat →
  parse_fn fuel st ≠ OutOfFuel ∧ parse_nsw_nuw fuel st ≠ OutOfFuel.
Proof.
  intros Hp. split; [|by apply parse_nsw_nuw_loop_fueled].
  unfold parser.parse_fn.
  apply bind_fueled; [done|]. intros u st1 H1. apply OK_inj in H1 as [_ <-].
  apply bind_fueled; [done|]. intros u' st2 H2. apply OK_inj in H2 as [_ <-].
  apply bind_fueled.
  { unfold getBB, mbind, M_bind, gets, modify, mret, M_ret. simpl. done. }
  intros bb st3 H3. apply getBB_effect in H3 as (Hl & Ht & _).
  apply bind_fueled; [|done].
  apply parse_fn_loop_fueled. unfold pending in *. by rewrite Hl, Ht.
Qed.

End parser_more_facts.

Section parser_more_examples.
Import smt IR values parser parser_samples.

(** The instance at a lexer that is about to return a comma. *)
Lemma parse_operand_succeeds_iff_witness :
  ((∃ p st', parse_operand token_name IntConst_name VoidTy
               (start [lex COMMA 0 ""]) = OK p st')
   ↔ COMMA = NUM ∨ COMMA = IDENTIFIER) ∧
  (COMMA ≠ NUM → COMMA ≠ IDENTIFIER →
   parse_operand token_name IntConst_name VoidTy (start [lex COMMA 0 ""])
   = Throw (mkParseException
              ("Expected an operand, got: " +:+ token_name COMMA) 1)).
Proof.
  apply (parse_operand_succeeds_iff token_name IntConst_name VoidTy
           (start [lex COMMA 0 ""])
           (mkPState [] (mkYylval 0 "") 1 (mkTokenizer END false) ∅
              (mkFunction [] [] [] []))).
  reflexivity.
Defined.

(** The instance at the number [1]. *)
Lemma parse_operand_number_witness :
  ∃ st1,
    parse_operand token_name IntConst_name (IntType_new 8)
      (start [lex NUM 1 ""]) = OK (ConstantPtr 0) st1 ∧
    constants (fn st1) = [] ++ [mkIntConst (IntType_new 8) (IntConst_name 1) 1] ∧
    identifiers st1 = ∅ ∧
    inputs (fn st1) = [] ∧
    ∀ st2, later token_name IntConst_name st1 st2 →
      constants (fn st2) !! 0%nat
        = Some (mkIntConst (IntType_new 8) (IntConst_name 1) 1) ∧
      ∀ ty' st3 p',
        next_token st2 = OK NUM st3 →
        (∃ st4, parse_operand token_name IntConst_name ty' st2 = OK p' st4) →
        p' ≠ ConstantPtr 0.
Proof.
  apply (parse_operand_number token_name IntConst_name (IntType_new 8)
           (start [lex NUM 1 ""])
           (mkPState [] (mkYylval 1 "") 1 (mkTokenizer END false) ∅
              (mkFunction [] [] [] []))).
  reflexivity.
Defined.

(** The instance at [%r = add i8 %x, %x], from the token [=] on. *)
Lemma parse_instr_flags_valid_witness :
  ∃ ty a b op fl,
    BinOp (IntType_new 8) "%r" (InputPtr 0) (InputPtr 0) Add None_
    = BinOp ty "%r" a b op fl ∧ flags_valid op fl.
Proof.
  eapply (parse_instr_flags_valid token_name IntType_new SymbolicType_new
            IntConst_name 4 "%r" _ (start (drop 1 add_x_x))).
  vm_compute. reflexivity.
Defined.

(** The instance at the function parsed from [add_x_x]. *)
Lemma parse_fn_well_scoped_witness :
  ∃ st', add_x_x_fn = fn st' ∧ well_scoped add_x_x_fn ∧ well_bound st'.
Proof.
  eexists.
  eapply (parse_fn_well_scoped token_name IntType_new SymbolicType_new
            IntConst_name Return_name Unreachable_name 4 (start add_x_x)).
  vm_compute. reflexivity.
Defined.

(** The instance at an input that starts with [=>]. *)
Lemma parse_fn_empty_body_witness :
  ∃ st', parse_fn token_name IntType_new SymbolicType_new IntConst_name
           Return_name Unreachable_name 1 (start [lex ARROW 0 ""])
         = OK (mkFunction [] [] [] [mkBasicBlock "" []]) st' ∧
         peek st' = OK ARROW st' ∧
         identifiers st' = ∅.
Proof.
  apply (parse_fn_empty_body token_name IntType_new SymbolicType_new
           IntConst_name Return_name Unreachable_name 0
           (start [lex ARROW 0 ""])
           (mkPState [] (mkYylval 0 "") 1 (mkTokenizer END false) ∅
              (mkFunction [] [] [] []))).
  - reflexivity.
  - intros H. repeat (apply elem_of_cons in H as [H|H]; [discriminate|]).
    by apply elem_of_nil in H.
Defined.


(** The instance at the input [add_x_x], which has 11 tokens. *)
Lemma parse_fn_terminates_witness :
  parse_fn token_name IntType_new SymbolicType_new IntConst_name
    Return_name Unreachable_name 23 (start add_x_x) ≠ OutOfFuel ∧
  parse_nsw_nuw 23 (start add_x_x) ≠ OutOfFuel.
Proof.
  apply (parse_fn_terminates token_name IntType_new SymbolicType_new
           IntConst_name Return_name Unreachable_name 23 (start add_x_x)).
  unfold pending. simpl. lia.
Defined.

End parser_more_examples.

(** ** The LLVM plugin *)

Section tv_facts.
Import smt IR values tools tv.

Lemma percent_name (s : string) : not_percent ("%" +:+ s) = false.
Proof. done. Qed.

Lemma percent_nonempty (n : string) : not_percent n = false → n ≠ "".
Proof. by intros H ->. Qed.

(** X27. Names of imported values are stable and start with [%].  From a
    cache in which every name starts with [%] (the empty cache of
    [reset_state] is one), [value_name] returns a name that starts with [%],
    so that the per-value mode of the checker does not skip it; it keeps
    every cached name; and asked again about the same object it returns
    the same name and changes nothing. *)
Theorem value_name_stable (v : llvm_Value) (st st' : names_t) (n : string) :
  names_ok st →
  value_name v st = (n, st') →
  not_percent n = false ∧
  names_ok st' ∧
  (∀ a n', value_names st !! a = Some n' → value_names st' !! a = Some n') ∧
  (∀ v', llvm_addr v' = llvm_addr v → value_name v' st' = (n, st')).
Proof.
  intros Hok H.
  assert (Hagain : ∀ (m : gmap N string) c v',
            llvm_addr v' = llvm_addr v → not_percent n = false →
            m !! llvm_addr v = Some n →
            value_name v' (mkNames m c) = (n, mkNames m c)).
  { intros m c v' Hv' Hn Hm. unfold value_name. simpl. rewrite Hv', Hm.
    simpl. rewrite decide_True; [done|]. by apply percent_nonempty. }
  unfold value_name in H.
  destruct (value_names st !! llvm_addr v) as [n0|] eqn:Hc; simpl in H.
  - pose proof (Hok _ _ Hc) as Hn0.
    rewrite decide_True in H by by apply percent_nonempty.
    injection H as <- <-. split_and!; try done.
    intros v' Hv'. destruct st as [m c]. by apply Hagain.
  - assert (Hfresh : ∀ x c, not_percent x = false →
              names_ok (mkNames (<[llvm_addr v := x]> (value_names st)) c) ∧
              (∀ a n', value_names st !! a = Some n' →
                 <[llvm_addr v := x]> (value_names st) !! a = Some n')).
    { intros x c Hx. split.
      - intros a n' Ha. simpl in Ha.
        destruct (decide (a = llvm_addr v)) as [->|Hne].
        + rewrite lookup_insert_eq in Ha. by injection Ha as <-.
        + rewrite lookup_insert_ne in Ha by done. by apply (Hok a).
      - intros a n' Ha. rewrite lookup_insert_ne; [done|]. congruence. }
    case_decide as Hnm; injection H as <- <-;
      (split; [apply percent_name|]);
      (split; [apply Hfresh, percent_name|]);
      (split; [apply (Hfresh _ 0%N), percent_name|]);
      intros v' Hv'; apply Hagain; try done; by rewrite lookup_insert_eq.
Qed.

(** The instance at the first unnamed value after [reset_state]. *)
Lemma value_name_stable_witness :
  not_percent "%0" = false ∧
  names_ok (mkNames {[ 7%N := "%0" ]} 1) ∧
  (∀ a n', value_names reset_names !! a = Some n' →
           value_names (mkNames {[ 7%N := "%0" ]} 1) !! a = Some n') ∧
  (∀ v', llvm_addr v' = llvm_addr (mk_llvm_Value 7 "") →
         value_name v' (mkNames {[ 7%N := "%0" ]} 1)
         = ("%0", mkNames {[ 7%N := "%0" ]} 1)).
Proof.
  apply (value_name_stable (mk_llvm_Value 7 "") reset_names).
  - intros a n Ha. simpl in Ha. by rewrite lookup_empty in Ha.
  - reflexivity.
Defined.

(** X28. Unnamed values are numbered in the order in which they are
    first seen: two unnamed values that are not in the cache, named one
    after the other, get the numbers of two successive states of the
    counter, and these are different names as long as the counter does
    not wrap around. *)
Theorem value_name_numbered (v1 v2 : llvm_Value) (st st1 st2 : names_t)
    (n1 n2 : string) :
  llvm_getName v1 = "" → llvm_getName v2 = "" →
  value_names st !! llvm_addr v1 = None →
  value_names st !! llvm_addr v2 = None →
  llvm_addr v1 ≠ llvm_addr v2 →
  (value_id_counter st + 1 < 2 ^ 32)%N →
  value_name v1 st = (n1, st1) →
  value_name v2 st1 = (n2, st2) →
  n1 = "%" +:+ pretty (value_id_counter st) ∧
  n2 = "%" +:+ pretty (value_id_counter st + 1)%N ∧
  n1 ≠ n2.
Proof.
  intros Hu1 Hu2 Hc1 Hc2 Hne Hwrap. unfold value_name.
  rewrite Hc1, Hu1. simpl. intros [= <- <-]. simpl.
  rewrite lookup_insert_ne by done. rewrite Hc2, Hu2. simpl.
  intros [= <-]. rewrite N.mod_small by done.
  split; [done|]. split; [done|].
  intros [= Heq]. change (pretty (value_id_counter st)
                          = pretty (value_id_counter st + 1)%N) in Heq.
  apply pretty_N_inj in Heq. lia.
Qed.

(** The instance at two unnamed values after [reset_state]. *)
Lemma value_name_numbered_witness :
  "%0" = "%" +:+ pretty (value_id_counter reset_names) ∧
  "%1" = "%" +:+ pretty (value_id_counter reset_names + 1)%N ∧
  "%0" ≠ "%1".
Proof.
  apply (value_name_numbered (mk_llvm_Value 7 "") (mk_llvm_Value 8 "")
           reset_names (mkNames {[ 7%N := "%0" ]} 1)
           (mkNames (<[ 8%N := "%1" ]> {[ 7%N := "%0" ]}) 2));
    try reflexivity; try done.
Defined.

Lemma int_types_Some (k : N) (t : ref type) :
  int_types k = Some t →
  (1 ≤ k ≤ 64)%N ∧ t = mkRef k (IntTy (IntType_new ("i" +:+ pretty k) k)).
Proof. unfold int_types. case_decide; [|done]. by intros [= <-]. Qed.

(** What [llvm_type2alive] returns. *)
Lemma llvm_type2alive_Some (ty : llvm_Type) (t : ref type) :
  llvm_type2alive ty = Some t →
  (ty = VoidTyID ∧ t = voidTy) ∨
  (∃ k, ty = IntegerTyID k ∧ (1 ≤ k ≤ 64)%N ∧
        t = mkRef k (IntTy (IntType_new ("i" +:+ pretty k) k))).
Proof.
  destruct ty as [|k|]; simpl; [|destruct (k <=? 64)%N|]; try done.
  - intros [= <-]. by left.
  - intros H. apply int_types_Some in H as [Hk ->]. right. by exists k.
Qed.

(** X29. The importer supports [void] and the integers of 1 to 64 bits,
    and nothing else (not even a 0-bit integer); and every type it returns
    satisfies its type constraints under every model. *)
Theorem llvm_type2alive_supported (ty : llvm_Type) :
  (is_Some (llvm_type2alive ty) ↔
   ty = VoidTyID ∨ ∃ k, ty = IntegerTyID k ∧ (1 ≤ k ≤ 64)%N) ∧
  (∀ t, llvm_type2alive ty = Some t →
     ∃ c, Type_getTypeConstraints (deref t) = Some c ∧ ∀ m, sat m c).
Proof.
  split.
  - split.
    + intros [t Ht].
      apply llvm_type2alive_Some in Ht as [[-> _]|(k & -> & Hk & _)];
        [by left|right; by exists k].
    + intros [->|(k & -> & Hk)]; [done|]. simpl.
      assert (Hle : (k <=? 64)%N = true) by (apply N.leb_le; lia).
      rewrite Hle. unfold int_types. by rewrite decide_True.
  - intros t Ht.
    apply llvm_type2alive_Some in Ht as [[-> ->]|(k & -> & Hk & ->)]; simpl.
    + by eexists.
    + eexists. split; [reflexivity|]. intros m. simpl.
      unfold var_bw_bits.
      rewrite (wrap_small 10 (Z.of_N k)) by (simpl; lia).
      change (wrap 10 0) with 0. change (wrap 10 64) with 64.
      destruct (Z.eqb_spec (Z.of_N k) 0); [lia|].
      destruct (Z.leb_spec (Z.of_N k) 64); [done|lia].
Qed.

(** X30. Imported types are equal exactly when the LLVM types are the
    same: the equality of two types that [llvm_type2alive] returns holds
    under a model if and only if they come from the same LLVM type. *)
Theorem llvm_type2alive_eq (ty1 ty2 : llvm_Type) (t1 t2 : ref type)
    (m : Model) :
  llvm_type2alive ty1 = Some t1 →
  llvm_type2alive ty2 = Some t2 →
  ∃ c, Type_eq t1 t2 = Some c ∧ (sat m c ↔ ty1 = ty2).
Proof.
  intros H1 H2.
  apply llvm_type2alive_Some in H1 as [[-> ->]|(k1 & -> & Hk1 & ->)];
    apply llvm_type2alive_Some in H2 as [[-> ->]|(k2 & -> & Hk2 & ->)].
  - eexists. split; [reflexivity|]. done.
  - unfold Type_eq. rewrite decide_False by (simpl; lia). simpl.
    eexists. split; [reflexivity|]. simpl. split; congruence.
  - unfold Type_eq. rewrite decide_False by (simpl; lia). simpl.
    eexists. split; [reflexivity|]. simpl. split; congruence.
  - unfold Type_eq. simpl. destruct (decide (k1 = k2)) as [->|Hne].
    + eexists. split; [reflexivity|]. done.
    + eexists. split; [reflexivity|]. simpl. unfold var_bw_bits.
      rewrite !(wrap_small 10) by (simpl; lia).
      destruct (Z.eqb_spec (Z.of_N k1) (Z.of_N k2)) as [Heq|Hneq]; [lia|].
      split; [done|]. intros [= ?]. done.
Qed.

(** The instance at [i8] and [i16]. *)
Lemma llvm_type2alive_eq_witness :
  ∃ c, Type_eq (mkRef 8%N (IntTy (IntType_new "i8" 8)))
         (mkRef 16%N (IntTy (IntType_new "i16" 16))) = Some c ∧
       (sat ∅ c ↔ IntegerTyID 8 = IntegerTyID 16).
Proof.
  apply (llvm_type2alive_eq (IntegerTyID 8) (IntegerTyID 16)); reflexivity.
Defined.

End tv_facts.
